(** * speck/draw.py : the ribbon curve generator of [SpeckPlot]

    A shallow embedding of [src/speck/draw.py].  One-dimensional numpy
    arrays are lists, Python integers are [Z] (or [nat] where they count
    elements), and a Python exception is the [Raise] branch of [result].

    The float64 arithmetic of the code is read in three ways.  [_y] and the
    definitions it is built from take a float64 operation to be the exact
    operation on real numbers; they carry the properties that are about the
    shape of the result (which rows, which lengths, which sample reads
    which pixel, the mirror relation).  [_y_g] is the same program with the
    result of every floating-point operation passed through a rounding
    function; it carries the properties that are about magnitudes, which
    hold up to a rounding slack.  [binary64] evaluates the clipping step on
    machine floats. *)

From Stdlib Require Import String Reals Lra Lia ZArith Bool Arith List.
From Stdlib Require Import Floats.
Import ListNotations.

Open Scope R_scope.

(** ** Exceptions *)

Inductive exn : Set :=
| IndexError
| ValueError
| ZeroDivisionError
| AttributeError.

Inductive result (A : Type) : Type :=
| Ok (a : A)
| Raise (e : exn).

Arguments Ok {A} a.
Arguments Raise {A} e.

Definition bind {A B : Type} (c : result A) (f : A -> result B) : result B :=
  match c with
  | Ok a => f a
  | Raise e => Raise e
  end.

Notation "x <- c ;; f" := (bind c (fun x => f))
  (at level 61, c at next level, right associativity).

(** ** The numpy operations used by draw.py *)

Module np.

(** [arr[idx]] for a Python index, negative indices counting from the end. *)
Definition getitem {A : Type} (arr : list A) (idx : Z) : result A :=
  let n := Z.of_nat (length arr) in
  let j := if (idx <? 0)%Z then (idx + n)%Z else idx in
  if ((0 <=? j) && (j <? n))%Z
  then match nth_error arr (Z.to_nat j) with
       | Some a => Ok a
       | None => Raise IndexError
       end
  else Raise IndexError.

(** [np.ones(n) * v]: [n] copies of [v]. *)
Definition ones_times {A : Type} (n : nat) (v : A) : list A := repeat v n.

(** [np.insert(arr, obj, values)] for a scalar index [obj]: all of [values]
    go in front of position [obj]. *)
Definition insert {A : Type} (arr : list A) (obj : Z) (values : list A)
  : result (list A) :=
  let n := Z.of_nat (length arr) in
  if ((obj <? - n) || (n <? obj))%Z then Raise IndexError
  else
    let j := Z.to_nat (if (obj <? 0)%Z then (obj + n)%Z else obj) in
    Ok (firstn j arr ++ values ++ skipn j arr).

(** [np.append(arr, v)] *)
Definition append {A : Type} (arr : list A) (v : A) : list A := arr ++ [v].

(** [np.repeat(arr, n)]: every element [n] times in a row. *)
Definition repeat {A : Type} (arr : list A) (n : nat) : list A :=
  flat_map (fun a => List.repeat a n) arr.

(** [np.arange(start, stop)] on integers. *)
Definition arange (start stop : Z) : list Z :=
  map (fun j => (start + Z.of_nat j)%Z) (seq 0 (Z.to_nat (stop - start))).

(** [np.linspace(start, stop, num)], end point included. *)
Definition linspace (start stop : R) (num : nat) : list R :=
  let step := (stop - start) / INR (num - 1) in
  map (fun j => start + INR j * step) (seq 0 num).

(** [a.clip(lo, hi)] on one element: [minimum(maximum(a, lo), hi)]. *)
Definition clip (lo hi v : R) : R := Rmin (Rmax v lo) hi.

(** An elementwise binary operation on two 1-D arrays, with numpy's
    broadcasting: equal lengths, or one side of length one. *)
Definition broadcast2 (f : R -> R -> R) (a b : list R) : result (list R) :=
  if (length a =? length b)%nat then Ok (map (fun p => f (fst p) (snd p)) (combine a b))
  else match a, b with
       | [x], _ => Ok (map (f x) b)
       | _, [y] => Ok (map (fun x => f x y) a)
       | _, _ => Raise ValueError
       end.

End np.

(** ** SpeckPlot *)

(** The fields of a [SpeckPlot] that the curve generator reads: the
    grayscale array [im] of shape [(h, w)], the logistic growth rate [k]
    and the interpolation density [inter]. *)
Record SpeckPlot : Type := {
  im : list (list Z);
  h : nat;
  w : nat;
  k : Z;
  inter : nat
}.

(** [np.array(image.convert('L'))] has a shape: [h] rows of [w] pixels. *)
Definition rectangular (sp : SpeckPlot) : Prop :=
  length (im sp) = h sp /\ Forall (fun line => length line = w sp) (im sp).

(** [SpeckPlot.__init__], on the decoded grayscale array. *)
Definition __init__ (pixels : list (list Z)) (upscale : Z) : SpeckPlot :=
  {| im := pixels;
     h := length pixels;
     w := match pixels with [] => 0 | line :: _ => length line end;
     k := 10;
     inter := Z.to_nat (if (10 <=? upscale)%Z then upscale else 10) |}.

(** [SpeckPlot._x] *)
Definition _x (sp : SpeckPlot) : list R :=
  np.linspace 0 (INR (w sp)) (w sp * inter sp).

Definition repeat_head_tail {A : Type} (arr : list A) (n : nat)
  : result (list A) :=
  a0 <- np.getitem arr 0 ;;
  head <- np.insert arr 0 (np.ones_times (n / 2) a0) ;;
  al <- np.getitem arr (-1) ;;
  repeated <- np.insert head (-1) (np.ones_times (n / 2) al) ;;
  if (n mod 2 =? 0)%nat then Ok repeated
  else
    last <- np.getitem repeated (-1) ;;
    Ok (np.append repeated last).

Abbreviation curve := (list R) (only parsing).

Section CurveGenerator.

Variable sp : SpeckPlot.
Variables weights weight_clipping : R * R.

Definition y_min : R := fst weights / 2 + 0.5.
Definition y_max : R := snd weights / 2 + 0.5.
Definition clip_min : R := (1 - snd weight_clipping) * 255.
Definition clip_max : R := (1 - fst weight_clipping) * 255.

(** The clipping step on one pixel value, in exact arithmetic. *)
Definition rescale (v : R) : R :=
  (np.clip clip_min clip_max v - clip_min) * 255 / (clip_max - clip_min).

(** The target value a rescaled intensity is mapped to, in exact
    arithmetic. *)
Definition level (r : R) : R := y_max - r * (y_max - y_min) / 255.

(** The body of the loop of [_y] for a row that is not skipped. *)
Definition y_row (i : nat) (pixels : list Z) : result (curve * curve) :=
  let line := map rescale (map IZR pixels) in
  let y_offset := np.repeat (map level (removelast line)) (inter sp) in
  L <- np.broadcast2 Rminus (np.repeat (map level (tl line)) (inter sp)) y_offset ;;
  let x0 := np.repeat (np.arange 1 (Z.of_nat (w sp))) (inter sp) in
  y_offset <- repeat_head_tail y_offset (inter sp) ;;
  L <- repeat_head_tail L (inter sp) ;;
  x0 <- repeat_head_tail x0 (inter sp) ;;
  d <- np.broadcast2 Rminus (_x sp) (map IZR x0) ;;
  q <- np.broadcast2 Rdiv L (map (fun t => 1 + exp (IZR (- k sp) * t)) d) ;;
  y_top <- np.broadcast2 Rplus (map (fun v => INR i + v) q) y_offset ;;
  let y_bot := map (fun t => INR (2 * i + 1) - t) y_top in
  Ok (y_top, y_bot).

(** The loop of [_y] over [enumerate(self.im)], from row [i] on, with the
    pairs appended so far in [y]. *)
Fixpoint y_loop (skip : Z) (i : nat) (rows : list (list Z))
  (y : list (curve * curve)) : result (list (curve * curve)) :=
  match rows with
  | [] => Ok y
  | line :: rest =>
      if (skip + 1 =? 0)%Z then Raise ZeroDivisionError
      else if negb (Z.of_nat i mod (skip + 1) =? 0)%Z
      then y_loop skip (S i) rest y
      else
        pair <- y_row i line ;;
        y_loop skip (S i) rest (y ++ [pair])
  end.

(** [SpeckPlot._y] *)
Definition _y (skip : Z) : result (list (curve * curve)) :=
  y_loop skip 0 (im sp) [].

End CurveGenerator.

(** ** Noise offsets and the ribbons that [draw] fills *)

(** One side of a noise pair: a scalar or an array added to a curve. *)
Inductive offset : Type :=
| Scalar (r : R)
| Array (a : list R).

Definition NoiseData : Type := list (offset * offset).

(** A [Noise] object: hashed by identity, called with [(h, w * inter)]. *)
Record Noise : Type := {
  noise_id : nat;
  noise_call : nat -> nat -> NoiseData
}.

(** [SpeckPlot._noise] *)
Definition _noise (sp : SpeckPlot) (noise : option Noise) : NoiseData :=
  match noise with
  | Some g => noise_call g (h sp) (w sp * inter sp)
  | None => map (fun _ => (Scalar 0, Scalar 0)) (seq 0 (h sp))
  end.

(** [y_[0] + n_[0]] *)
Definition add_offset (y : curve) (n : offset) : result curve :=
  match n with
  | Scalar r => Ok (map (fun v => v + r) y)
  | Array a => np.broadcast2 Rplus y a
  end.

(** Element [j] of [itertools.cycle(l)]; an empty [l] yields nothing. *)
Definition cycle_nth {A : Type} (l : list A) (j : nat) : option A :=
  nth_error l (j mod length l).

(** The loop of [draw] over [zip(y, cycle(n), cycle(c))]: the two curves
    handed to [fill_between] with their colour, from position [j] on. *)
Fixpoint fill_loop {C : Type} (j : nat) (y : list (curve * curve))
  (n : NoiseData) (c : list C) : result (list (curve * curve * C)) :=
  match y with
  | [] => Ok []
  | y_ :: rest =>
      match cycle_nth n j, cycle_nth c j with
      | Some n_, Some c_ =>
          y_top <- add_offset (fst y_) (fst n_) ;;
          y_bot <- add_offset (snd y_) (snd n_) ;;
          filled <- fill_loop (S j) rest n c ;;
          Ok ((y_top, y_bot, c_) :: filled)
      | _, _ => Ok []
      end
  end.

(** ** functools.lru_cache *)

Module functools.

Section LruCache.

Context {K V : Type}.
Variable K_eq_dec : forall a b : K, {a = b} + {a <> b}.

(** The entries are kept most recently used first. *)
Record lru_cache : Type := {
  entries : list (K * V);
  hits : nat;
  misses : nat
}.

Definition empty : lru_cache := {| entries := []; hits := 0; misses := 0 |}.

Fixpoint lookup (key : K) (l : list (K * V)) : option V :=
  match l with
  | [] => None
  | (key', v) :: rest => if K_eq_dec key key' then Some v else lookup key rest
  end.

Fixpoint remove (key : K) (l : list (K * V)) : list (K * V) :=
  match l with
  | [] => []
  | (key', v) :: rest =>
      if K_eq_dec key key' then remove key rest else (key', v) :: remove key rest
  end.

(** A call of the wrapped function [f] through the cache.  A hit returns
    the stored value and makes it the most recent entry; a miss runs [f],
    stores an [Ok] result and drops the oldest entry beyond [maxsize]. *)
Definition call (maxsize : nat) (f : K -> result V) (key : K) (c : lru_cache)
  : result V * lru_cache :=
  match lookup key (entries c) with
  | Some v =>
      (Ok v, {| entries := (key, v) :: remove key (entries c);
                hits := S (hits c);
                misses := misses c |})
  | None =>
      match f key with
      | Ok v =>
          (Ok v, {| entries := firstn maxsize ((key, v) :: entries c);
                    hits := hits c;
                    misses := S (misses c) |})
      | Raise e =>
          (Raise e, {| entries := entries c;
                       hits := hits c;
                       misses := S (misses c) |})
      end
  end.

Definition cache_clear (c : lru_cache) : lru_cache := empty.

Definition cache_info (maxsize : nat) (c : lru_cache) : nat * nat * nat * nat :=
  (hits c, misses c, maxsize, length (entries c)).

End LruCache.

Arguments lru_cache : clear implicits.

(** [lru_cache()] without arguments *)
Definition default_maxsize : nat := 128.

End functools.

(** ** The three memoised methods and [cache_clear] *)

(** A [SpeckPlot] object: its identity, which is what it hashes to, and
    its fields. *)
Definition self : Type := nat * SpeckPlot.

Definition x_key : Type := nat.
Definition y_key : Type := nat * ((R * R) * (R * R) * Z).
Definition noise_key : Type := nat * option nat.

Definition YData : Type := list (curve * curve).

(** The caches of [_x], [_y] and [_noise], one per decorated function. *)
Record caches : Type := {
  x_cache : functools.lru_cache x_key (list R);
  y_cache : functools.lru_cache y_key YData;
  noise_cache : functools.lru_cache noise_key NoiseData
}.

Definition x_key_eq_dec : forall a b : x_key, {a = b} + {a <> b} := Nat.eq_dec.

Definition y_key_eq_dec : forall a b : y_key, {a = b} + {a <> b}.
Proof.
  repeat decide equality; solve [apply Req_dec_T | apply Nat.eq_dec].
Defined.

Definition noise_key_eq_dec : forall a b : noise_key, {a = b} + {a <> b}.
Proof.
  repeat decide equality.
Defined.

Definition cached_x (s : self) (c : caches) : result (list R) * caches :=
  let (r, xc) :=
    functools.call x_key_eq_dec functools.default_maxsize
      (fun _ => Ok (_x (snd s))) (fst s) (x_cache c) in
  (r, {| x_cache := xc; y_cache := y_cache c; noise_cache := noise_cache c |}).

(** The body of the loop of [_y] up to the call of [self._x()]: the three
    padded arrays [y_offset], [L] and [x0]. *)
Definition y_row_pads (sp : SpeckPlot) (weights weight_clipping : R * R)
  (pixels : list Z) : result (list R * list R * list Z) :=
  let line := map (rescale weight_clipping) (map IZR pixels) in
  let y_offset := np.repeat (map (level weights) (removelast line)) (inter sp) in
  L <- np.broadcast2 Rminus
         (np.repeat (map (level weights) (tl line)) (inter sp)) y_offset ;;
  let x0 := np.repeat (np.arange 1 (Z.of_nat (w sp))) (inter sp) in
  y_offset <- repeat_head_tail y_offset (inter sp) ;;
  L <- repeat_head_tail L (inter sp) ;;
  x0 <- repeat_head_tail x0 (inter sp) ;;
  Ok (y_offset, L, x0).

(** The two curves of row [i] from the padded arrays and the array [x]
    that [self._x()] returned. *)
Definition y_row_curves (sp : SpeckPlot) (i : nat)
  (pads : list R * list R * list Z) (x : list R) : result (curve * curve) :=
  let '(y_offset, L, x0) := pads in
  d <- np.broadcast2 Rminus x (map IZR x0) ;;
  q <- np.broadcast2 Rdiv L (map (fun t => 1 + exp (IZR (- k sp) * t)) d) ;;
  y_top <- np.broadcast2 Rplus (map (fun v => INR i + v) q) y_offset ;;
  let y_bot := map (fun t => INR (2 * i + 1) - t) y_top in
  Ok (y_top, y_bot).

(** The body of the loop of [_y] as it runs inside the object: [self._x()]
    is a call through the cache of [_x], made once the three arrays are
    padded. *)
Definition y_row_cached (s : self) (weights weight_clipping : R * R)
  (i : nat) (pixels : list Z) (c : caches) : result (curve * curve) * caches :=
  match y_row_pads (snd s) weights weight_clipping pixels with
  | Raise e => (Raise e, c)
  | Ok pads =>
      let (rx, c') := cached_x s c in
      (x <- rx ;; y_row_curves (snd s) i pads x, c')
  end.

Fixpoint y_loop_cached (s : self) (weights weight_clipping : R * R)
  (skip : Z) (i : nat) (rows : list (list Z)) (y : list (curve * curve))
  (c : caches) : result YData * caches :=
  match rows with
  | [] => (Ok y, c)
  | line :: rest =>
      if (skip + 1 =? 0)%Z then (Raise ZeroDivisionError, c)
      else if negb (Z.of_nat i mod (skip + 1) =? 0)%Z
      then y_loop_cached s weights weight_clipping skip (S i) rest y c
      else
        let (r, c') := y_row_cached s weights weight_clipping i line c in
        match r with
        | Raise e => (Raise e, c')
        | Ok curves =>
            y_loop_cached s weights weight_clipping skip (S i) rest (y ++ [curves]) c'
        end
  end.

(** The function that [lru_cache] wraps for [_y]: it returns the curves
    and leaves its calls of [_x] in the cache of [_x]. *)
Definition _y_cached (s : self) (weights weight_clipping : R * R) (skip : Z)
  (c : caches) : result YData * caches :=
  y_loop_cached s weights weight_clipping skip 0 (im (snd s)) [] c.

(** [self._y(weights, weight_clipping, skip)]: on a hit nothing runs; on
    a miss the wrapped function runs, and with it its calls of [_x]. *)
Definition cached_y (s : self) (weights weight_clipping : R * R) (skip : Z)
  (c : caches) : result YData * caches :=
  let key := (fst s, (weights, weight_clipping, skip)) in
  let body := _y_cached s weights weight_clipping skip c in
  let (r, yc) :=
    functools.call y_key_eq_dec functools.default_maxsize
      (fun _ => fst body) key (y_cache c) in
  (r, {| x_cache :=
           match functools.lookup y_key_eq_dec key (functools.entries (y_cache c)) with
           | Some _ => x_cache c
           | None => x_cache (snd body)
           end;
         y_cache := yc;
         noise_cache := noise_cache c |}).

Definition cached_noise (s : self) (noise : option Noise) (c : caches)
  : result NoiseData * caches :=
  let (r, nc) :=
    functools.call noise_key_eq_dec functools.default_maxsize
      (fun _ => Ok (_noise (snd s) noise))
      (fst s, option_map noise_id noise) (noise_cache c) in
  (r, {| x_cache := x_cache c; y_cache := y_cache c; noise_cache := nc |}).

(** [SpeckPlot.cache_clear]: [getattr(self, parameter).cache_clear()], or
    all three caches when [parameter] is [None]. *)
Definition cache_clear (parameter : option string) (c : caches) : result caches :=
  match parameter with
  | Some p =>
      if String.eqb p "_x" then
        Ok {| x_cache := functools.cache_clear (x_cache c);
              y_cache := y_cache c;
              noise_cache := noise_cache c |}
      else if String.eqb p "_y" then
        Ok {| x_cache := x_cache c;
              y_cache := functools.cache_clear (y_cache c);
              noise_cache := noise_cache c |}
      else if String.eqb p "_noise" then
        Ok {| x_cache := x_cache c;
              y_cache := y_cache c;
              noise_cache := functools.cache_clear (noise_cache c) |}
      else Raise AttributeError
  | None =>
      Ok {| x_cache := functools.cache_clear (x_cache c);
            y_cache := functools.cache_clear (y_cache c);
            noise_cache := functools.cache_clear (noise_cache c) |}
  end.

Definition cache_info (c : caches)
  : (nat * nat * nat * nat) * (nat * nat * nat * nat) * (nat * nat * nat * nat) :=
  (functools.cache_info functools.default_maxsize (x_cache c),
   functools.cache_info functools.default_maxsize (y_cache c),
   functools.cache_info functools.default_maxsize (noise_cache c)).

(** [SpeckPlot.set_k]: the new growth rate invalidates every cache. *)
Definition set_k (sp : SpeckPlot) (k' : Z) (c : caches)
  : SpeckPlot * result caches :=
  ({| im := im sp; h := h sp; w := w sp; k := k'; inter := inter sp |},
   cache_clear None c).

(** ** Colours, modifiers and [draw] *)

(** The [colour] argument of [draw]: a name, a sequence of colours that
    can be iterated again (a list or a tuple), or a [Colour] object called
    with the number of rows, whose call returns the same colours every
    time.  An iterator that can be consumed once and a [Colour] or a
    [Modifier] with a state of its own are not in this model. *)
Inductive colour_arg (C : Type) : Type :=
| ColourName (name : C)
| ColourList (colours : list C)
| ColourObject (generate : nat -> list C).

Arguments ColourName {C} name.
Arguments ColourList {C} colours.
Arguments ColourObject {C} generate.

(** [SpeckPlot._colour] *)
Definition _colour {C : Type} (sp : SpeckPlot) (colour : colour_arg C) : list C :=
  match colour with
  | ColourName name => [name]
  | ColourList colours => colours
  | ColourObject generate => generate (h sp)
  end.

(** The data a [Modifier] receives and returns. *)
Definition plot_data (C : Type) : Type :=
  (list R * list (curve * curve) * NoiseData * list C)%type.

Definition Modifier (C : Type) : Type := plot_data C -> result (plot_data C).

(** The loop [for m in modifiers: x, y, n, c = m(x, y, n, c)]. *)
Fixpoint run_modifiers {C : Type} (modifiers : list (Modifier C))
  (data : plot_data C) : result (plot_data C) :=
  match modifiers with
  | [] => Ok data
  | m :: rest => data' <- m data ;; run_modifiers rest data'
  end.

(** [SpeckPlot.draw]: the sample axis and the ribbons handed to
    [fill_between], with the caches after the call.  The random seed and
    the drawing surface are not part of the model. *)
Definition draw {C : Type} (s : self) (weights weight_clipping : R * R)
  (noise : option Noise) (colour : colour_arg C) (skip : Z)
  (modifiers : option (list (Modifier C))) (c : caches)
  : result (list R * list (curve * curve * C)) * caches :=
  let (rx, c1) := cached_x s c in
  match rx with
  | Raise e => (Raise e, c1)
  | Ok x =>
      let (ry, c2) := cached_y s weights weight_clipping skip c1 in
      match ry with
      | Raise e => (Raise e, c2)
      | Ok y =>
          let (rn, c3) := cached_noise s noise c2 in
          match rn with
          | Raise e => (Raise e, c3)
          | Ok n =>
              (data <- match modifiers with
                       | Some ms => run_modifiers ms (x, y, n, _colour (snd s) colour)
                       | None => Ok (x, y, n, _colour (snd s) colour)
                       end ;;
               let '(x', y', n', c') := data in
               filled <- fill_loop 0 y' n' c' ;;
               Ok (x', filled),
               c3)
          end
      end
  end.

(** What [draw] does once it has the sample axis, the curves and the
    noise. *)
Definition finish_draw {C : Type} (s : self) (colour : colour_arg C)
  (modifiers : option (list (Modifier C)))
  (x : list R) (y : list (curve * curve)) (n : NoiseData)
  : result (list R * list (curve * curve * C)) :=
  data <- match modifiers with
          | Some ms => run_modifiers ms (x, y, n, _colour (snd s) colour)
          | None => Ok (x, y, n, _colour (snd s) colour)
          end ;;
  let '(x', y', n', c') := data in
  filled <- fill_loop 0 y' n' c' ;;
  Ok (x', filled).

(** ** Closed forms used to state the properties *)

(** What [repeat_head_tail] builds from a non-empty array. *)
Definition padded {A : Type} (a : A) (l : list A) (n : nat) : list A :=
  List.repeat a (n / 2) ++ removelast (a :: l)
    ++ List.repeat (last (a :: l) a) (n - n / 2 + 1).

(** The position of the unpadded arrays that sample [j] reads. *)
Definition source_index (sp : SpeckPlot) (j : nat) : nat :=
  Nat.min (j - inter sp / 2) ((w sp - 1) * inter sp - 1).

(** The pixel boundary whose transition sample [j] belongs to: boundary
    [m] lies between pixels [m] and [m + 1], at abscissa [m + 1]. *)
Definition boundary (sp : SpeckPlot) (j : nat) : nat :=
  (source_index sp j / inter sp)%nat.

(** The logistic weight of the right-hand pixel at sample [j]. *)
Definition blend (sp : SpeckPlot) (j : nat) : R :=
  1 / (1 + exp (IZR (- k sp) * (nth j (_x sp) 0 - IZR (1 + Z.of_nat (boundary sp j))))).

(** The value of the top curve of row [i] at sample [j], in closed form. *)
Definition top_at (sp : SpeckPlot) (weights weight_clipping : R * R)
  (i : nat) (pixels : list Z) (j : nat) : R :=
  let m := boundary sp j in
  let r0 := rescale weight_clipping (IZR (nth m pixels 0%Z)) in
  let r1 := rescale weight_clipping (IZR (nth (S m) pixels 0%Z)) in
  INR i
  + (level weights r1 - level weights r0)
    / (1 + exp (IZR (- k sp) * (nth j (_x sp) 0 - IZR (1 + Z.of_nat m))))
  + level weights r0.

(** [enumerate(rows)], counting from [i]. *)
Fixpoint enumerate {A : Type} (i : nat) (l : list A) : list (nat * A) :=
  match l with
  | [] => []
  | x :: rest => (i, x) :: enumerate (S i) rest
  end.

(** Row [i] is kept when [i % (skip + 1)] is zero. *)
Definition retained (skip : Z) (i : nat) : bool :=
  (Z.of_nat i mod (skip + 1) =? 0)%Z.

(** The rows the loop does not skip, with their indices. *)
Definition retained_rows (skip : Z) (i : nat) (rows : list (list Z))
  : list (nat * list Z) :=
  filter (fun p => retained skip (fst p)) (enumerate i rows).

(** [ceil(a / b)] on natural numbers. *)
Definition ceil_div (a b : nat) : nat := ((a + b - 1) / b)%nat.

Definition row_curves (sp : SpeckPlot) (weights wc : R * R) (i : nat)
  (pixels : list Z) : curve * curve :=
  let y_top := map (top_at sp weights wc i pixels) (seq 0 (w sp * inter sp)) in
  (y_top, map (fun t => INR (2 * i + 1) - t) y_top).

(** The linear interpolation from [weights[1]] at rescaled intensity [0]
    down to [weights[0]] at rescaled intensity [255]. *)
Definition thickness (weights : R * R) (r : R) : R :=
  snd weights - r * (snd weights - fst weights) / 255.

(** [caches] after a call of one of the three methods. *)
Definition cached_only (p : string) (c c' : caches) : Prop :=
  (p <> "_x"%string -> x_cache c' = x_cache c) /\
  (p <> "_y"%string -> y_cache c' = y_cache c) /\
  (p <> "_noise"%string -> noise_cache c' = noise_cache c).

(** The caches of a fresh interpreter. *)
Definition no_caches : caches :=
  {| x_cache := functools.empty;
     y_cache := functools.empty;
     noise_cache := functools.empty |}.

(** ** The arithmetic of [_y] with rounding *)

(** In the definitions above a float64 operation is the exact operation on
    real numbers.  Here the curve generator is written once more with the
    result of every floating-point operation of draw.py passed through a
    rounding function [rnd], with [expf] for [np.exp] and [x] for the array
    that [self._x()] returns.  Integer arithmetic ([2 * i + 1], [- self.k])
    and the conversion of an integer to a float are exact. *)

Section Rounded.

Variable rnd : R -> R.
Variable expf : R -> R.

Definition y_min_g (weights : R * R) : R := rnd (rnd (fst weights / 2) + 0.5).
Definition y_max_g (weights : R * R) : R := rnd (rnd (snd weights / 2) + 0.5).
Definition clip_min_g (wc : R * R) : R := rnd (rnd (1 - snd wc) * 255).
Definition clip_max_g (wc : R * R) : R := rnd (rnd (1 - fst wc) * 255).

Definition rescale_g (wc : R * R) (v : R) : R :=
  rnd (rnd (rnd (np.clip (clip_min_g wc) (clip_max_g wc) v - clip_min_g wc) * 255)
       / rnd (clip_max_g wc - clip_min_g wc)).

Definition level_g (weights : R * R) (r : R) : R :=
  rnd (y_max_g weights
       - rnd (rnd (r * rnd (y_max_g weights - y_min_g weights)) / 255)).

Definition y_row_g (sp : SpeckPlot) (weights wc : R * R) (x : list R)
  (i : nat) (pixels : list Z) : result (curve * curve) :=
  let line := map (rescale_g wc) (map IZR pixels) in
  let y_offset := np.repeat (map (level_g weights) (removelast line)) (inter sp) in
  L <- np.broadcast2 (fun a b => rnd (a - b))
         (np.repeat (map (level_g weights) (tl line)) (inter sp)) y_offset ;;
  let x0 := np.repeat (np.arange 1 (Z.of_nat (w sp))) (inter sp) in
  y_offset <- repeat_head_tail y_offset (inter sp) ;;
  L <- repeat_head_tail L (inter sp) ;;
  x0 <- repeat_head_tail x0 (inter sp) ;;
  d <- np.broadcast2 (fun a b => rnd (a - b)) x (map IZR x0) ;;
  q <- np.broadcast2 (fun a b => rnd (a / b)) L
         (map (fun t => rnd (1 + expf (rnd (IZR (- k sp) * t)))) d) ;;
  y_top <- np.broadcast2 (fun a b => rnd (a + b))
             (map (fun v => rnd (INR i + v)) q) y_offset ;;
  let y_bot := map (fun t => rnd (INR (2 * i + 1) - t)) y_top in
  Ok (y_top, y_bot).

Fixpoint y_loop_g (sp : SpeckPlot) (weights wc : R * R) (x : list R)
  (skip : Z) (i : nat) (rows : list (list Z))
  (y : list (curve * curve)) : result (list (curve * curve)) :=
  match rows with
  | [] => Ok y
  | line :: rest =>
      if (skip + 1 =? 0)%Z then Raise ZeroDivisionError
      else if negb (Z.of_nat i mod (skip + 1) =? 0)%Z
      then y_loop_g sp weights wc x skip (S i) rest y
      else
        pair <- y_row_g sp weights wc x i line ;;
        y_loop_g sp weights wc x skip (S i) rest (y ++ [pair])
  end.

Definition _y_g (sp : SpeckPlot) (weights wc : R * R) (x : list R) (skip : Z)
  : result (list (curve * curve)) :=
  y_loop_g sp weights wc x skip 0 (im sp) [].

(** The denominator of the logistic term of sample [j]. *)
Definition den_g (sp : SpeckPlot) (x : list R) (j : nat) : R :=
  rnd (1 + expf (rnd (IZR (- k sp)
                      * rnd (nth j x 0 - IZR (1 + Z.of_nat (boundary sp j)))))).

(** One sample of a top curve, from the row index, the levels [l0], [l1]
    of the two pixels next to the boundary and the denominator. *)
Definition sample_g (i : nat) (l0 l1 den : R) : R :=
  rnd (rnd (INR i + rnd (rnd (l1 - l0) / den)) + l0).

(** The bottom curve from the top curve. *)
Definition mirror_g (i : nat) (top : R) : R := rnd (INR (2 * i + 1) - top).

(** The value of the top curve of row [i] at sample [j], in closed form. *)
Definition top_at_g (sp : SpeckPlot) (weights wc : R * R) (x : list R)
  (i : nat) (pixels : list Z) (j : nat) : R :=
  let m := boundary sp j in
  sample_g i
    (level_g weights (rescale_g wc (IZR (nth m pixels 0%Z))))
    (level_g weights (rescale_g wc (IZR (nth (S m) pixels 0%Z))))
    (den_g sp x j).

Definition row_curves_g (sp : SpeckPlot) (weights wc : R * R) (x : list R)
  (i : nat) (pixels : list Z) : curve * curve :=
  let y_top := map (top_at_g sp weights wc x i pixels) (seq 0 (w sp * inter sp)) in
  (y_top, map (mirror_g i) y_top).

End Rounded.

(** What is assumed of the rounding: it is monotone and its relative error
    is at most the unit roundoff [u].  Exact arithmetic is the case
    [u = 0]; for binary64 with rounding to nearest [u] is [2 ^ -53], as
    long as no result overflows or is subnormal. *)
Record rounding (rnd : R -> R) (u : R) : Prop := {
  unit_roundoff : 0 <= u <= / 1024;
  rnd_monotone : forall x y, x <= y -> rnd x <= rnd y;
  rnd_error : forall x, Rabs (rnd x - x) <= u * Rabs x
}.

(** The distance by which rounding can move a sample of row [i]: the
    samples of that row have magnitude about [i + 1], and a sample is the
    result of a dozen rounded operations. *)
Definition slack (u : R) (i : nat) : R := 8 * u * (INR i + 6).

(** ** The binary64 arithmetic of the clipping and of the levels *)

Module binary64.

(** A [uint8] pixel as a float. *)
Definition of_pixel (v : Z) : float := PrimFloat.of_uint63 (Uint63.of_Z v).

(** [np.maximum] and [np.minimum] on one element. *)
Definition maximum (x y : float) : float :=
  if PrimFloat.is_nan x then x
  else if PrimFloat.is_nan y then y
  else if PrimFloat.ltb x y then y else x.

Definition minimum (x y : float) : float :=
  if PrimFloat.is_nan x then x
  else if PrimFloat.is_nan y then y
  else if PrimFloat.ltb y x then y else x.

Definition clip (lo hi v : float) : float := minimum (maximum v lo) hi.

Definition y_min (weights : float * float) : float :=
  (fst weights / 2 + 0.5)%float.
Definition y_max (weights : float * float) : float :=
  (snd weights / 2 + 0.5)%float.
Definition clip_min (wc : float * float) : float := ((1 - snd wc) * 255)%float.
Definition clip_max (wc : float * float) : float := ((1 - fst wc) * 255)%float.

Definition rescale (wc : float * float) (v : float) : float :=
  ((clip (clip_min wc) (clip_max wc) v - clip_min wc) * 255
   / (clip_max wc - clip_min wc))%float.

Definition level (weights : float * float) (r : float) : float :=
  (y_max weights - r * (y_max weights - y_min weights) / 255)%float.

End binary64.

(** ** What the caches hold *)

(** The value stored for object [s] by [_x], if any, is the sample axis of
    [s]. *)
Definition x_agrees (s : self) (c : caches) : Prop :=
  forall v,
    functools.lookup x_key_eq_dec (fst s) (functools.entries (x_cache c)) = Some v ->
    v = _x (snd s).

(** The array that a call of [_x] on [s] returns: the stored one, if any. *)
Definition x_value (s : self) (c : caches) : list R :=
  match functools.lookup x_key_eq_dec (fst s) (functools.entries (x_cache c)) with
  | Some v => v
  | None => _x (snd s)
  end.

(** The number of calls of [_x] the cache has counted. *)
Definition x_calls (c : caches) : nat :=
  (functools.hits (x_cache c) + functools.misses (x_cache c))%nat.

(** The values stored for object [s] by [_y] are the curves of [s]. *)
Definition y_agrees (s : self) (c : caches) : Prop :=
  forall wt wcl sk v,
    functools.lookup y_key_eq_dec (fst s, (wt, wcl, sk))
      (functools.entries (y_cache c)) = Some v ->
    _y (snd s) wt wcl sk = Ok v.

(** The value stored for object [s] and the argument [noise] by [_noise],
    if any, is the noise data of that argument. *)
Definition noise_agrees (s : self) (noise : option Noise) (c : caches) : Prop :=
  forall v,
    functools.lookup noise_key_eq_dec (fst s, option_map noise_id noise)
      (functools.entries (noise_cache c)) = Some v ->
    v = _noise (snd s) noise.

(** ** Example plots *)

(** A black row above a white row, two pixels wide. *)
Definition black_white_plot : SpeckPlot := __init__ [[0; 0]; [255; 255]]%Z 10.

(** A single white row. *)
Definition white_plot : SpeckPlot := __init__ [[255; 255]]%Z 10.

(** A single black row. *)
Definition black_plot : SpeckPlot := __init__ [[0; 0]]%Z 10.

(** * Properties *)

(** ** Indexing, insertion and padding *)

Section ArrayFacts.

Context {A : Type}.
Implicit Types (arr l : list A) (a d : A) (n j : nat).

Lemma getitem_nil (idx : Z) : np.getitem (@nil A) idx = Raise IndexError.
Proof.
  unfold np.getitem; cbn [length Z.of_nat].
  destruct (idx <? 0)%Z eqn:E.
  - replace (0 <=? idx + 0)%Z with false; [reflexivity|].
    symmetry; apply Z.leb_gt; apply Z.ltb_lt in E; lia.
  - destruct (0 <=? idx)%Z; cbn [andb]; [|reflexivity].
    replace (idx <? 0)%Z with false; reflexivity.
Qed.

Lemma getitem_first a l : np.getitem (a :: l) 0 = Ok a.
Proof.
  unfold np.getitem.
  replace (0 <? 0)%Z with false by reflexivity.
  replace (0 <=? 0)%Z with true by reflexivity.
  replace (0 <? Z.of_nat (length (a :: l)))%Z with true
    by (symmetry; apply Z.ltb_lt; cbn [length]; lia).
  reflexivity.
Qed.

Lemma nth_error_last arr d :
  arr <> [] -> nth_error arr (length arr - 1) = Some (last arr d).
Proof.
  intros Hne.
  pose proof (app_removelast_last d Hne) as Happ.
  remember (removelast arr) as r eqn:Hr.
  remember (last arr d) as x eqn:Hx.
  clear Hr Hx Hne; subst arr.
  rewrite length_app; cbn [length].
  replace (length r + 1 - 1)%nat with (length r) by lia.
  rewrite nth_error_app2 by lia.
  rewrite Nat.sub_diag; reflexivity.
Qed.

Lemma getitem_last arr d : arr <> [] -> np.getitem arr (-1) = Ok (last arr d).
Proof.
  intros Hne.
  assert (Hlen : (1 <= length arr)%nat)
    by (destruct arr; [contradiction | cbn [length]; lia]).
  unfold np.getitem.
  replace (-1 <? 0)%Z with true by reflexivity.
  replace (0 <=? -1 + Z.of_nat (length arr))%Z with true
    by (symmetry; apply Z.leb_le; lia).
  replace (-1 + Z.of_nat (length arr) <? Z.of_nat (length arr))%Z with true
    by (symmetry; apply Z.ltb_lt; lia).
  cbn [andb].
  replace (Z.to_nat (-1 + Z.of_nat (length arr))) with (length arr - 1)%nat by lia.
  rewrite (nth_error_last arr d Hne); reflexivity.
Qed.

Lemma insert_front arr (values : list A) :
  np.insert arr 0 values = Ok (values ++ arr).
Proof.
  unfold np.insert.
  replace (0 <? - Z.of_nat (length arr))%Z with false
    by (symmetry; apply Z.ltb_ge; lia).
  replace (Z.of_nat (length arr) <? 0)%Z with false
    by (symmetry; apply Z.ltb_ge; lia).
  reflexivity.
Qed.

Lemma split_before_last arr d :
  arr <> [] ->
  firstn (length arr - 1) arr = removelast arr /\
  skipn (length arr - 1) arr = [last arr d].
Proof.
  intros Hne.
  pose proof (app_removelast_last d Hne) as Happ.
  remember (removelast arr) as r eqn:Hr.
  remember (last arr d) as x eqn:Hx.
  clear Hr Hx Hne; subst arr.
  rewrite length_app; cbn [length].
  replace (length r + 1 - 1)%nat with (length r) by lia.
  split.
  - rewrite firstn_app, Nat.sub_diag, firstn_all.
    cbn [firstn]. apply app_nil_r.
  - rewrite skipn_app, Nat.sub_diag, skipn_all.
    reflexivity.
Qed.

Lemma insert_before_last arr d (values : list A) :
  arr <> [] ->
  np.insert arr (-1) values = Ok (removelast arr ++ values ++ [last arr d]).
Proof.
  intros Hne.
  assert (Hlen : (1 <= length arr)%nat)
    by (destruct arr; [contradiction | cbn [length]; lia]).
  unfold np.insert.
  replace (-1 <? - Z.of_nat (length arr))%Z with false
    by (symmetry; apply Z.ltb_ge; lia).
  replace (Z.of_nat (length arr) <? -1)%Z with false
    by (symmetry; apply Z.ltb_ge; lia).
  replace (-1 <? 0)%Z with true by reflexivity.
  cbn [orb].
  replace (Z.to_nat (-1 + Z.of_nat (length arr))) with (length arr - 1)%nat by lia.
  destruct (split_before_last arr d Hne) as [-> ->]; reflexivity.
Qed.

Lemma last_app_r l l' d : l' <> [] -> last (l ++ l') d = last l' d.
Proof.
  intros Hne. induction l as [|x l IH]; [reflexivity|].
  cbn [app last]. destruct (l ++ l') eqn:E; [|exact IH].
  apply app_eq_nil in E; destruct E; contradiction.
Qed.

Lemma repeat_head_tail_cons a l n :
  repeat_head_tail (a :: l) n = Ok (padded a l n).
Proof.
  unfold repeat_head_tail, padded, np.ones_times, np.append.
  set (al := last (a :: l) a).
  rewrite getitem_first; cbn [bind].
  rewrite insert_front; cbn [bind].
  rewrite (getitem_last (a :: l) a) by discriminate; cbn [bind]; fold al.
  assert (Hne : List.repeat a (n / 2) ++ a :: l <> [])
    by (intros H; apply app_eq_nil in H; destruct H; discriminate).
  rewrite (insert_before_last _ a _ Hne); cbn [bind].
  rewrite removelast_app by discriminate.
  rewrite last_app_r by discriminate; fold al.
  pose proof (Nat.div_mod_eq n 2) as Hdm.
  pose proof (Nat.mod_upper_bound n 2 ltac:(lia)) as Hm.
  destruct (n mod 2 =? 0)%nat eqn:E.
  - apply Nat.eqb_eq in E.
    replace (n - n / 2 + 1)%nat with (n / 2 + 1)%nat by lia.
    rewrite repeat_app, <- !app_assoc; reflexivity.
  - apply Nat.eqb_neq in E.
    match goal with
    | |- context [np.getitem ?r (-1)] =>
        assert (Hr : r <> [])
          by (intros H; apply (f_equal (@length A)) in H;
              rewrite !length_app in H; cbn [length] in H; lia);
        rewrite (getitem_last r a Hr)
    end.
    cbn [bind].
    rewrite !app_assoc, last_last, <- !app_assoc.
    replace (n - n / 2 + 1)%nat with (n / 2 + 1 + 1)%nat by lia.
    rewrite !repeat_app, <- !app_assoc; reflexivity.
Qed.

End ArrayFacts.

Section PaddingFacts.

Context {A : Type}.
Implicit Types (arr l : list A) (a d : A) (n j : nat).

Lemma repeat_head_tail_nil n : repeat_head_tail (@nil A) n = Raise IndexError.
Proof. unfold repeat_head_tail. rewrite getitem_nil. reflexivity. Qed.

Lemma length_removelast_cons a l : length (removelast (a :: l)) = length l.
Proof.
  pose proof (@app_removelast_last A (a :: l) a ltac:(discriminate)) as H.
  apply (f_equal (@length A)) in H.
  rewrite length_app in H; cbn [length] in H. lia.
Qed.

Lemma padded_length a l n : length (padded a l n) = (length (a :: l) + n)%nat.
Proof.
  unfold padded. rewrite !length_app, !repeat_length, length_removelast_cons.
  pose proof (Nat.div_mod_eq n 2) as Hdm.
  pose proof (Nat.mod_upper_bound n 2 ltac:(lia)) as Hm.
  cbn [length]. lia.
Qed.

Lemma nth_removelast arr j d :
  (j < length arr - 1)%nat -> nth j (removelast arr) d = nth j arr d.
Proof.
  intros Hj. destruct arr as [|a l]; [cbn in Hj; lia|].
  pose proof (@app_removelast_last A (a :: l) a ltac:(discriminate)) as H.
  pose proof (length_removelast_cons a l) as Hl.
  rewrite H at 2. rewrite app_nth1; [reflexivity|].
  cbn [length] in Hj. lia.
Qed.

Lemma nth_last arr d : nth (length arr - 1) arr d = last arr d.
Proof.
  destruct arr as [|a l]; [reflexivity|].
  apply nth_error_nth. apply nth_error_last. discriminate.
Qed.

(** Position [j] of the padded array reads position
    [min (j - n/2) (length - 1)] of the array it was built from. *)
Lemma padded_nth a l n j d :
  (j < length (a :: l) + n)%nat ->
  nth j (padded a l n) d = nth (Nat.min (j - n / 2) (length l)) (a :: l) d.
Proof.
  intros Hj. unfold padded.
  pose proof (length_removelast_cons a l) as Hl.
  destruct (Nat.lt_ge_cases j (n / 2)) as [Hlt | Hge].
  - rewrite app_nth1 by (rewrite repeat_length; exact Hlt).
    rewrite nth_repeat_lt by exact Hlt.
    replace (j - n / 2)%nat with 0%nat by lia. reflexivity.
  - rewrite app_nth2 by (rewrite repeat_length; exact Hge).
    rewrite repeat_length.
    destruct (Nat.lt_ge_cases (j - n / 2) (length l)) as [Hin | Hout].
    + rewrite app_nth1 by lia.
      rewrite nth_removelast by (cbn [length]; lia).
      rewrite Nat.min_l by lia. reflexivity.
    + rewrite app_nth2 by lia.
      rewrite nth_repeat_lt.
      * rewrite Nat.min_r by lia.
        rewrite <- (nth_last (a :: l) a). cbn [length].
        replace (S (length l) - 1)%nat with (length l) by lia.
        apply nth_indep. cbn [length]. lia.
      * pose proof (Nat.div_mod_eq n 2) as Hdm.
        pose proof (Nat.mod_upper_bound n 2 ltac:(lia)) as Hm.
        cbn [length] in Hj. lia.
Qed.

(** The padding of a non-empty array succeeds, adds [n] elements, and
    every position of the result copies a position of the argument. *)
Lemma repeat_head_tail_ok arr n :
  arr <> [] ->
  exists r,
    repeat_head_tail arr n = Ok r /\
    length r = (length arr + n)%nat /\
    forall j d, (j < length arr + n)%nat ->
      nth j r d = nth (Nat.min (j - n / 2) (length arr - 1)) arr d.
Proof.
  intros Hne. destruct arr as [|a l]; [contradiction|].
  exists (padded a l n). split; [apply repeat_head_tail_cons|].
  split; [apply padded_length|].
  intros j d Hj. rewrite padded_nth by exact Hj.
  cbn [length]. replace (S (length l) - 1)%nat with (length l) by lia.
  reflexivity.
Qed.

Lemma length_np_repeat arr n : length (np.repeat arr n) = (length arr * n)%nat.
Proof.
  unfold np.repeat. induction arr as [|a l IH]; [reflexivity|].
  cbn [flat_map length]. rewrite length_app, repeat_length, IH. lia.
Qed.

Lemma nth_np_repeat arr n q d :
  (q < length arr * n)%nat -> nth q (np.repeat arr n) d = nth (q / n) arr d.
Proof.
  unfold np.repeat. revert q.
  induction arr as [|a l IH]; intros q Hq; [cbn in Hq; lia|].
  assert (Hn : (0 < n)%nat) by (destruct n; [cbn [length] in Hq; lia | lia]).
  cbn [flat_map].
  destruct (Nat.lt_ge_cases q n) as [Hlt | Hge].
  - rewrite app_nth1 by (rewrite repeat_length; exact Hlt).
    rewrite nth_repeat_lt by exact Hlt.
    rewrite Nat.div_small by exact Hlt. reflexivity.
  - rewrite app_nth2 by (rewrite repeat_length; exact Hge).
    rewrite repeat_length, IH by (cbn [length] in Hq; lia).
    replace q with ((q - n) + 1 * n)%nat at 2 by lia.
    rewrite Nat.div_add by lia.
    replace ((q - n) / n + 1)%nat with (S ((q - n) / n)) by lia.
    reflexivity.
Qed.

End PaddingFacts.

Lemma nth_map_lt {A B : Type} (f : A -> B) (l : list A) (j : nat) (d : B) (d' : A) :
  (j < length l)%nat -> nth j (map f l) d = f (nth j l d').
Proof.
  intros Hj. rewrite (nth_indep _ d (f d')) by (rewrite length_map; exact Hj).
  apply map_nth.
Qed.

Lemma broadcast2_same_length (f : R -> R -> R) (a b : list R) :
  length a = length b ->
  np.broadcast2 f a b = Ok (map (fun p => f (fst p) (snd p)) (combine a b)).
Proof.
  intros Hlen. unfold np.broadcast2.
  rewrite (proj2 (Nat.eqb_eq _ _) Hlen). reflexivity.
Qed.

Lemma nth_zip_with (f : R -> R -> R) (a b : list R) (j : nat) (d : R) :
  length a = length b -> (j < length a)%nat ->
  nth j (map (fun p => f (fst p) (snd p)) (combine a b)) d
  = f (nth j a d) (nth j b d).
Proof.
  intros Hlen Hj.
  rewrite (nth_map_lt _ _ _ _ (d, d))
    by (rewrite length_combine, <- Hlen, Nat.min_id; exact Hj).
  rewrite combine_nth by exact Hlen. reflexivity.
Qed.

Lemma length_zip_with (f : R -> R -> R) (a b : list R) :
  length a = length b ->
  length (map (fun p => f (fst p) (snd p)) (combine a b)) = length a.
Proof.
  intros Hlen. rewrite length_map, length_combine, <- Hlen. apply Nat.min_id.
Qed.

Lemma length_arange (start stop : Z) :
  length (np.arange start stop) = Z.to_nat (stop - start).
Proof. unfold np.arange. rewrite length_map, length_seq. reflexivity. Qed.

Lemma nth_arange (start stop : Z) (j : nat) (d : Z) :
  (j < Z.to_nat (stop - start))%nat ->
  nth j (np.arange start stop) d = (start + Z.of_nat j)%Z.
Proof.
  intros Hj. unfold np.arange.
  rewrite (nth_map_lt _ _ _ _ 0%nat) by (rewrite length_seq; exact Hj).
  rewrite seq_nth by exact Hj. reflexivity.
Qed.

Lemma length_linspace (start stop : R) (num : nat) :
  length (np.linspace start stop num) = num.
Proof. unfold np.linspace. rewrite length_map, length_seq. reflexivity. Qed.

Lemma length__x (sp : SpeckPlot) : length (_x sp) = (w sp * inter sp)%nat.
Proof. apply length_linspace. Qed.

(** ** One row of [_y] *)

Lemma not_nil_of_length {A : Type} (l : list A) : (0 < length l)%nat -> l <> [].
Proof. intros H ->. cbn in H. lia. Qed.

Lemma boundary_lt (sp : SpeckPlot) (j : nat) :
  (2 <= w sp)%nat -> (1 <= inter sp)%nat -> (boundary sp j < w sp - 1)%nat.
Proof.
  intros Hw Hn. unfold boundary, source_index.
  apply Nat.Div0.div_lt_upper_bound.
  assert (1 <= (w sp - 1) * inter sp)%nat by nia.
  lia.
Qed.

Section RowFacts.

Variable sp : SpeckPlot.
Variables weights weight_clipping : R * R.
Variable i : nat.
Variable pixels : list Z.

Hypothesis Hwidth : length pixels = w sp.
Hypothesis Hw : (2 <= w sp)%nat.
Hypothesis Hinter : (1 <= inter sp)%nat.

Lemma y_row_ok :
  exists y_top,
    y_row sp weights weight_clipping i pixels
      = Ok (y_top, map (fun t => INR (2 * i + 1) - t) y_top) /\
    length y_top = (w sp * inter sp)%nat /\
    forall j, (j < w sp * inter sp)%nat ->
      nth j y_top 0 = top_at sp weights weight_clipping i pixels j.
Proof.
  unfold y_row.
  set (n := inter sp) in *.
  set (line := map (rescale weight_clipping) (map IZR pixels)).
  assert (Hline : length line = w sp)
    by (unfold line; rewrite !length_map; exact Hwidth).
  set (lo := map (level weights) (removelast line)).
  set (hi := map (level weights) (tl line)).
  assert (Hlo : length lo = (w sp - 1)%nat).
  { unfold lo. rewrite length_map.
    destruct line as [|a l]; [cbn in Hline; lia|].
    rewrite length_removelast_cons. cbn [length] in Hline. lia. }
  assert (Hhi : length hi = (w sp - 1)%nat)
    by (unfold hi; rewrite length_map, length_tl; lia).
  set (N := ((w sp - 1) * n)%nat).
  assert (HN : (1 <= N)%nat) by (unfold N; nia).
  assert (HNn : (N + n = w sp * n)%nat) by (unfold N; nia).
  assert (Hrlo : length (np.repeat lo n) = N)
    by (rewrite length_np_repeat, Hlo; reflexivity).
  assert (Hrhi : length (np.repeat hi n) = N)
    by (rewrite length_np_repeat, Hhi; reflexivity).
  rewrite broadcast2_same_length by congruence. cbn [bind].
  set (L0 := map (fun p => fst p - snd p) (combine (np.repeat hi n) (np.repeat lo n))).
  assert (HL0 : length L0 = N)
    by (unfold L0; rewrite length_zip_with by congruence; exact Hrhi).
  set (c0 := np.repeat (np.arange 1 (Z.of_nat (w sp))) n).
  assert (Hc0 : length c0 = N).
  { unfold c0. rewrite length_np_repeat, length_arange. unfold N. f_equal. lia. }
  destruct (repeat_head_tail_ok (np.repeat lo n) n) as (off & -> & Hoff & Hoffn);
    [apply not_nil_of_length; lia|].
  cbn [bind].
  destruct (repeat_head_tail_ok L0 n) as (L & -> & HL & HLn);
    [apply not_nil_of_length; lia|].
  cbn [bind].
  destruct (repeat_head_tail_ok c0 n) as (x0 & -> & Hx0 & Hx0n);
    [apply not_nil_of_length; lia|].
  cbn [bind].
  rewrite Hrlo in Hoff, Hoffn. rewrite HL0 in HL, HLn. rewrite Hc0 in Hx0, Hx0n.
  pose proof (length__x sp) as Hx. fold n in Hx.
  rewrite broadcast2_same_length by (rewrite length_map; lia). cbn [bind].
  set (d := map (fun p => fst p - snd p) (combine (_x sp) (map IZR x0))).
  assert (Hd : length d = (w sp * n)%nat)
    by (unfold d; rewrite length_zip_with by (rewrite length_map; lia); exact Hx).
  rewrite broadcast2_same_length by (rewrite length_map; lia). cbn [bind].
  set (den := map (fun t => 1 + exp (IZR (- k sp) * t)) d).
  set (q := map (fun p => fst p / snd p) (combine L den)).
  assert (Hden : length den = (w sp * n)%nat)
    by (unfold den; rewrite length_map; exact Hd).
  assert (Hq : length q = (w sp * n)%nat)
    by (unfold q; rewrite length_zip_with by lia; lia).
  rewrite broadcast2_same_length by (rewrite length_map; lia). cbn [bind].
  eexists. split; [reflexivity|].
  split; [rewrite length_zip_with by (rewrite length_map; lia);
          rewrite length_map; exact Hq|].
  intros j Hj.
  rewrite nth_zip_with by (rewrite length_map; lia).
  rewrite (nth_map_lt _ _ _ _ 0) by lia.
  unfold q. rewrite nth_zip_with by lia.
  unfold den. rewrite (nth_map_lt _ _ _ _ 0) by lia.
  unfold d. rewrite nth_zip_with by (rewrite ?length_map; lia).
  rewrite (nth_map_lt _ _ _ _ 0%Z) by lia.
  rewrite Hoffn, HLn, Hx0n by lia.
  assert (Hs : (Nat.min (j - n / 2) (N - 1) < N)%nat) by lia.
  pose proof (boundary_lt sp j Hw Hinter) as Hm.
  unfold L0. rewrite nth_zip_with by lia.
  unfold c0. rewrite !nth_np_repeat by (rewrite ?length_arange; nia).
  change (Nat.min (j - n / 2) (N - 1) / n)%nat with (boundary sp j).
  set (m := boundary sp j) in *.
  rewrite nth_arange by lia.
  unfold lo, hi.
  rewrite !(nth_map_lt _ _ _ _ 0)
    by (rewrite ?length_tl; destruct line; cbn [length] in *;
        rewrite ?length_removelast_cons; lia).
  rewrite nth_removelast by lia.
  replace (nth m (tl line) 0) with (nth (S m) line 0)
    by (destruct line; [cbn in Hline; lia | reflexivity]).
  unfold line.
  rewrite !(nth_map_lt _ _ _ _ 0) by (rewrite ?length_map; lia).
  rewrite !(nth_map_lt _ _ _ _ 0%Z) by lia.
  unfold top_at. fold m. reflexivity.
Qed.

End RowFacts.

(** ** The loop over the rows *)

Lemma ceil_div_spec (a b : nat) :
  (0 < b)%nat -> (a <= ceil_div a b * b < a + b)%nat.
Proof.
  intros Hb. unfold ceil_div.
  pose proof (Nat.div_mod_eq (a + b - 1) b) as Hdm.
  pose proof (Nat.mod_upper_bound (a + b - 1) b ltac:(lia)) as Hm.
  nia.
Qed.

Lemma ceil_div_unique (a b c : nat) :
  (0 < b)%nat -> (a <= c * b < a + b)%nat -> ceil_div a b = c.
Proof.
  intros Hb Hc. pose proof (ceil_div_spec a b Hb) as Hs. nia.
Qed.

Lemma bind_Ok_inv {A B : Type} (c : result A) (f : A -> result B) (b : B) :
  bind c f = Ok b -> exists a, c = Ok a /\ f a = Ok b.
Proof.
  destruct c as [a | e]; cbn [bind]; intros H; [|discriminate].
  exists a. split; [reflexivity | exact H].
Qed.

Lemma enumerate_snoc {A : Type} (l : list A) (x : A) (i : nat) :
  enumerate i (l ++ [x]) = enumerate i l ++ [((i + length l)%nat, x)].
Proof.
  revert i. induction l as [|y l IH]; intros i; cbn [app enumerate length].
  - rewrite Nat.add_0_r. reflexivity.
  - rewrite IH. replace (S i + length l)%nat with (i + S (length l))%nat by lia.
    reflexivity.
Qed.

Lemma length_enumerate {A : Type} (l : list A) (i : nat) :
  length (enumerate i l) = length l.
Proof.
  revert i. induction l as [|y l IH]; intros i; cbn [enumerate length];
    [reflexivity | rewrite IH; reflexivity].
Qed.

Lemma retained_nat (skip : Z) (i : nat) :
  (0 <= skip)%Z ->
  retained skip i = (i mod Z.to_nat (skip + 1) =? 0)%nat.
Proof.
  intros Hs. unfold retained.
  replace (skip + 1)%Z with (Z.of_nat (Z.to_nat (skip + 1))) at 1 by lia.
  rewrite <- Nat2Z.inj_mod.
  destruct (Nat.eqb_spec (i mod Z.to_nat (skip + 1)) 0) as [E | E].
  - rewrite E. reflexivity.
  - apply Z.eqb_neq. lia.
Qed.

(** With a stride [m = skip + 1 >= 1] the rows kept are rows
    [0, m, 2m, ...], [ceil(h / m)] of them. *)
Lemma retained_rows_multiples (skip : Z) (rows : list (list Z)) :
  (0 <= skip)%Z ->
  let m := Z.to_nat (skip + 1) in
  retained_rows skip 0 rows
  = map (fun j => ((j * m)%nat, nth (j * m) rows []))
        (seq 0 (ceil_div (length rows) m)).
Proof.
  intros Hs m. assert (Hm : (0 < m)%nat) by (unfold m; lia).
  unfold retained_rows.
  induction rows as [|x rows IH] using rev_ind.
  - cbn [enumerate filter length].
    rewrite (ceil_div_unique 0 m 0) by lia. reflexivity.
  - rewrite enumerate_snoc, filter_app, IH, length_app. cbn [length filter fst].
    rewrite Nat.add_0_l, retained_nat by exact Hs. fold m.
    set (len := length rows).
    pose proof (ceil_div_spec len m Hm) as Hc.
    pose proof (Nat.div_mod_eq len m) as Hdm.
    pose proof (Nat.mod_upper_bound len m ltac:(lia)) as Hr.
    destruct (Nat.eqb_spec (len mod m) 0) as [E | E].
    + rewrite E, Nat.add_0_r in Hdm.
      set (q := (len / m)%nat) in *.
      assert (Hq : ceil_div len m = q) by (apply ceil_div_unique; nia).
      assert (Hq' : ceil_div (len + 1) m = S q) by (apply ceil_div_unique; nia).
      rewrite Hq', seq_S, map_app, Hq. cbn [map plus].
      f_equal.
      * apply map_ext_in. intros j Hj. apply in_seq in Hj.
        rewrite app_nth1 by (fold len; nia). reflexivity.
      * replace (q * m)%nat with len by nia.
        rewrite app_nth2 by (fold len; lia).
        fold len. rewrite Nat.sub_diag. reflexivity.
    + set (q := (len / m)%nat) in *.
      assert (Hq : ceil_div len m = S q) by (apply ceil_div_unique; nia).
      assert (Hq' : ceil_div (len + 1) m = S q) by (apply ceil_div_unique; nia).
      rewrite Hq', Hq, app_nil_r.
      apply map_ext_in. intros j Hj. apply in_seq in Hj.
      rewrite app_nth1 by (fold len; nia). reflexivity.
Qed.

Lemma Forall2_nth_error {A B : Type} (P : A -> B -> Prop) (l : list A) (l' : list B) :
  Forall2 P l l' ->
  forall j y, nth_error l' j = Some y -> exists x, nth_error l j = Some x /\ P x y.
Proof.
  induction 1 as [|x y l l' Hxy _ IH]; intros j z Hj.
  - destruct j; discriminate.
  - destruct j as [|j]; cbn [nth_error] in *.
    + injection Hj as <-. exists x. split; [reflexivity | exact Hxy].
    + apply IH. exact Hj.
Qed.

Lemma Forall2_map_right {A B : Type} (P : A -> B -> Prop) (f : A -> B) (l : list A) :
  Forall (fun x => P x (f x)) l -> Forall2 P l (map f l).
Proof.
  induction 1; cbn [map]; constructor; assumption.
Qed.

Section LoopFacts.

Variable sp : SpeckPlot.
Variables weights weight_clipping : R * R.


Hypothesis Hrect : Forall (fun line => length line = w sp) (im sp).
Hypothesis Hw : (2 <= w sp)%nat.
Hypothesis Hinter : (1 <= inter sp)%nat.

Lemma y_loop_total (skip : Z) (rows : list (list Z)) :
  (skip + 1 <> 0)%Z ->
  Forall (fun line => length line = w sp) rows ->
  forall i acc, exists ys, y_loop sp weights weight_clipping skip i rows acc = Ok ys.
Proof.
  intros Hs. induction 1 as [|line rest Hline _ IH]; intros i acc; cbn [y_loop].
  - exists acc. reflexivity.
  - rewrite (proj2 (Z.eqb_neq _ _) Hs).
    destruct (Z.of_nat i mod (skip + 1) =? 0)%Z; cbn [negb]; [|apply IH].
    destruct (y_row_ok sp weights weight_clipping i line Hline Hw Hinter)
      as (top & -> & _).
    cbn [bind]. apply IH.
Qed.

Lemma _y_total (skip : Z) :
  (skip + 1 <> 0)%Z -> exists ys, _y sp weights weight_clipping skip = Ok ys.
Proof. intros Hs. apply y_loop_total; assumption. Qed.

End LoopFacts.

(** ** Clipping, levels and the logistic blend *)

Lemma clip_bounds (lo hi v : R) : lo <= hi -> lo <= np.clip lo hi v <= hi.
Proof.
  intros Hle. unfold np.clip, Rmin, Rmax.
  destruct (Rle_dec v lo), (Rle_dec _ hi); lra.
Qed.

Lemma clip_cases (lo hi v : R) :
  lo <= hi ->
  (v <= lo -> np.clip lo hi v = lo) /\
  (lo <= v <= hi -> np.clip lo hi v = v) /\
  (hi <= v -> np.clip lo hi v = hi).
Proof.
  intros Hle. unfold np.clip, Rmin, Rmax.
  repeat split; intros Hv; destruct (Rle_dec v lo), (Rle_dec _ hi); lra.
Qed.

Lemma scale_unit (u D : R) : 0 < D -> 0 <= u <= D -> 0 <= u * 255 / D <= 255.
Proof.
  intros HD Hu. unfold Rdiv.
  pose proof (Rinv_0_lt_compat D HD) as Hinv.
  assert (Hone : D * / D = 1) by (apply Rinv_r; lra).
  split; [nra|].
  replace 255 with (D * / D * 255) at 2 by (rewrite Hone; lra).
  nra.
Qed.

Lemma clip_range_pos (wc : R * R) : fst wc < snd wc -> clip_min wc < clip_max wc.
Proof. unfold clip_min, clip_max. lra. Qed.

Lemma rescale_bounds (wc : R * R) (v : R) :
  fst wc < snd wc -> 0 <= rescale wc v <= 255.
Proof.
  intros Hwc. pose proof (clip_range_pos wc Hwc) as Hr.
  pose proof (clip_bounds (clip_min wc) (clip_max wc) v ltac:(lra)) as Hc.
  unfold rescale. apply scale_unit; lra.
Qed.

Lemma level_bounds (weights : R * R) (r : R) :
  fst weights <= snd weights -> 0 <= r <= 255 ->
  y_min weights <= level weights r <= y_max weights.
Proof.
  intros Hw Hr. unfold level, y_min, y_max. split; nra.
Qed.

Lemma blend_range (sp : SpeckPlot) (j : nat) : 0 < blend sp j < 1.
Proof.
  unfold blend.
  set (e := exp _). assert (He : 0 < e) by apply exp_pos.
  split.
  - apply Rdiv_lt_0_compat; lra.
  - apply (Rmult_lt_reg_r (1 + e)); [lra|].
    unfold Rdiv. rewrite Rmult_assoc, Rinv_l by lra. lra.
Qed.

(** The top curve is, above the row index, a blend of the levels of the two
    pixels next to the boundary. *)
Lemma top_at_blend (sp : SpeckPlot) (weights wc : R * R) (i : nat)
  (pixels : list Z) (j : nat) :
  let m := boundary sp j in
  let l0 := level weights (rescale wc (IZR (nth m pixels 0%Z))) in
  let l1 := level weights (rescale wc (IZR (nth (S m) pixels 0%Z))) in
  top_at sp weights wc i pixels j
  = INR i + ((1 - blend sp j) * l0 + blend sp j * l1).
Proof.
  intros m l0 l1. unfold top_at, blend. fold m l0 l1.
  set (e := exp _). assert (He : 0 < e) by apply exp_pos.
  field. lra.
Qed.

Lemma top_at_range (sp : SpeckPlot) (weights wc : R * R) (i : nat)
  (pixels : list Z) (j : nat) :
  fst weights <= snd weights -> fst wc < snd wc ->
  INR i + y_min weights <= top_at sp weights wc i pixels j <= INR i + y_max weights.
Proof.
  intros Hw Hwc. rewrite top_at_blend.
  pose proof (blend_range sp j) as Hb.
  pose proof (level_bounds weights _ Hw
    (rescale_bounds wc (IZR (nth (boundary sp j) pixels 0%Z)) Hwc)) as H0.
  pose proof (level_bounds weights _ Hw
    (rescale_bounds wc (IZR (nth (S (boundary sp j)) pixels 0%Z)) Hwc)) as H1.
  split; nra.
Qed.

Lemma level_thickness (weights : R * R) (r : R) :
  2 * level weights r - 1 = thickness weights r.
Proof. unfold level, thickness, y_max, y_min. lra. Qed.

Lemma thickness_range (weights : R * R) (r : R) :
  fst weights <= snd weights -> 0 <= r <= 255 ->
  fst weights <= thickness weights r <= snd weights.
Proof. intros Hw Hr. unfold thickness. split; nra. Qed.

(** ** The closed form of a row and of the whole result *)

Section ClosedForm.

Variable sp : SpeckPlot.
Variables weights wc : R * R.

Hypothesis Hw : (2 <= w sp)%nat.
Hypothesis Hinter : (1 <= inter sp)%nat.

Lemma y_row_closed (i : nat) (pixels : list Z) :
  length pixels = w sp ->
  y_row sp weights wc i pixels = Ok (row_curves sp weights wc i pixels).
Proof.
  intros Hlen.
  destruct (y_row_ok sp weights wc i pixels Hlen Hw Hinter) as (top & -> & Htop & Hn).
  assert (E : top = map (top_at sp weights wc i pixels) (seq 0 (w sp * inter sp))).
  { apply (nth_ext _ _ 0 0); [rewrite length_map, length_seq; exact Htop|].
    intros j Hj. rewrite Htop in Hj. rewrite Hn by exact Hj.
    rewrite (nth_map_lt _ _ _ _ 0%nat) by (rewrite length_seq; exact Hj).
    rewrite seq_nth by exact Hj. reflexivity. }
  unfold row_curves. rewrite <- E. reflexivity.
Qed.

Lemma y_loop_closed (skip : Z) (rows : list (list Z)) :
  (skip + 1 <> 0)%Z ->
  Forall (fun line => length line = w sp) rows ->
  forall i acc,
    y_loop sp weights wc skip i rows acc
    = Ok (acc ++ map (fun p => row_curves sp weights wc (fst p) (snd p))
                     (retained_rows skip i rows)).
Proof.
  intros Hs. unfold retained_rows.
  induction 1 as [|line rest Hline _ IH]; intros i acc; cbn [y_loop].
  - cbn [enumerate filter map]. rewrite app_nil_r. reflexivity.
  - rewrite (proj2 (Z.eqb_neq _ _) Hs).
    cbn [enumerate filter fst].
    change (retained skip i) with (Z.of_nat i mod (skip + 1) =? 0)%Z.
    destruct (Z.of_nat i mod (skip + 1) =? 0)%Z; cbn [negb]; [|apply IH].
    rewrite y_row_closed by exact Hline. cbn [bind map fst snd].
    rewrite IH, <- app_assoc. reflexivity.
Qed.

Lemma _y_closed (skip : Z) :
  Forall (fun line => length line = w sp) (im sp) ->
  (skip + 1 <> 0)%Z ->
  _y sp weights wc skip
  = Ok (map (fun p => row_curves sp weights wc (fst p) (snd p))
            (retained_rows skip 0 (im sp))).
Proof.
  intros Hrect Hs. unfold _y. rewrite y_loop_closed by assumption. reflexivity.
Qed.

End ClosedForm.

(** ** The rounded generator *)

(** With no rounding, the exponential function and the sample axis of the
    object, the rounded generator is [_y]. *)
Lemma y_row_g_exact (sp : SpeckPlot) (weights wc : R * R) (i : nat)
  (pixels : list Z) :
  y_row_g (fun x => x) exp sp weights wc (_x sp) i pixels
  = y_row sp weights wc i pixels.
Proof. reflexivity. Qed.

Lemma _y_g_exact (sp : SpeckPlot) (weights wc : R * R) (skip : Z) :
  _y_g (fun x => x) exp sp weights wc (_x sp) skip = _y sp weights wc skip.
Proof.
  unfold _y_g, _y. generalize (@nil (curve * curve)) as acc. generalize 0%nat as i.
  induction (im sp) as [|line rest IH]; intros i acc; cbn [y_loop_g y_loop];
    [reflexivity|].
  destruct (skip + 1 =? 0)%Z; [reflexivity|].
  destruct (Z.of_nat i mod (skip + 1) =? 0)%Z; cbn [negb]; [|apply IH].
  rewrite y_row_g_exact.
  destruct (y_row sp weights wc i line); cbn [bind]; [apply IH | reflexivity].
Qed.

Section RoundedRowFacts.

Variable rnd : R -> R.
Variable expf : R -> R.
Variable sp : SpeckPlot.
Variables weights wc : R * R.
Variable x : list R.

Hypothesis Hw : (2 <= w sp)%nat.
Hypothesis Hinter : (1 <= inter sp)%nat.
Hypothesis Hx : length x = (w sp * inter sp)%nat.

Lemma y_row_g_ok (i : nat) (pixels : list Z) :
  length pixels = w sp ->
  exists y_top,
    y_row_g rnd expf sp weights wc x i pixels
      = Ok (y_top, map (mirror_g rnd i) y_top) /\
    length y_top = (w sp * inter sp)%nat /\
    forall j, (j < w sp * inter sp)%nat ->
      nth j y_top 0 = top_at_g rnd expf sp weights wc x i pixels j.
Proof.
  intros Hwidth. unfold y_row_g.
  set (n := inter sp) in *.
  set (line := map (rescale_g rnd wc) (map IZR pixels)).
  assert (Hline : length line = w sp)
    by (unfold line; rewrite !length_map; exact Hwidth).
  set (lo := map (level_g rnd weights) (removelast line)).
  set (hi := map (level_g rnd weights) (tl line)).
  assert (Hlo : length lo = (w sp - 1)%nat).
  { unfold lo. rewrite length_map.
    destruct line as [|a l]; [cbn in Hline; lia|].
    rewrite length_removelast_cons. cbn [length] in Hline. lia. }
  assert (Hhi : length hi = (w sp - 1)%nat)
    by (unfold hi; rewrite length_map, length_tl; lia).
  set (N := ((w sp - 1) * n)%nat).
  assert (HN : (1 <= N)%nat) by (unfold N; nia).
  assert (HNn : (N + n = w sp * n)%nat) by (unfold N; nia).
  assert (Hrlo : length (np.repeat lo n) = N)
    by (rewrite length_np_repeat, Hlo; reflexivity).
  assert (Hrhi : length (np.repeat hi n) = N)
    by (rewrite length_np_repeat, Hhi; reflexivity).
  rewrite broadcast2_same_length by congruence. cbn [bind].
  set (L0 := map (fun p => rnd (fst p - snd p))
                 (combine (np.repeat hi n) (np.repeat lo n))).
  assert (HL0 : length L0 = N).
  { unfold L0. rewrite (length_zip_with (fun a b => rnd (a - b))) by congruence.
    exact Hrhi. }
  set (c0 := np.repeat (np.arange 1 (Z.of_nat (w sp))) n).
  assert (Hc0 : length c0 = N).
  { unfold c0. rewrite length_np_repeat, length_arange. unfold N. f_equal. lia. }
  destruct (repeat_head_tail_ok (np.repeat lo n) n) as (off & -> & Hoff & Hoffn);
    [apply not_nil_of_length; lia|].
  cbn [bind].
  destruct (repeat_head_tail_ok L0 n) as (L & -> & HL & HLn);
    [apply not_nil_of_length; lia|].
  cbn [bind].
  destruct (repeat_head_tail_ok c0 n) as (x0 & -> & Hx0 & Hx0n);
    [apply not_nil_of_length; lia|].
  cbn [bind].
  rewrite Hrlo in Hoff, Hoffn. rewrite HL0 in HL, HLn. rewrite Hc0 in Hx0, Hx0n.
  rewrite broadcast2_same_length by (rewrite length_map; lia). cbn [bind].
  set (d := map (fun p => rnd (fst p - snd p)) (combine x (map IZR x0))).
  assert (Hd : length d = (w sp * n)%nat).
  { unfold d. rewrite (length_zip_with (fun a b => rnd (a - b)))
      by (rewrite length_map; lia). exact Hx. }
  rewrite broadcast2_same_length by (rewrite length_map; lia). cbn [bind].
  set (den := map (fun t => rnd (1 + expf (rnd (IZR (- k sp) * t)))) d).
  set (q := map (fun p => rnd (fst p / snd p)) (combine L den)).
  assert (Hden : length den = (w sp * n)%nat)
    by (unfold den; rewrite length_map; exact Hd).
  assert (Hq : length q = (w sp * n)%nat).
  { unfold q. rewrite (length_zip_with (fun a b => rnd (a / b))) by lia. lia. }
  rewrite broadcast2_same_length by (rewrite length_map; lia). cbn [bind].
  eexists. split; [reflexivity|].
  split.
  { rewrite (length_zip_with (fun a b => rnd (a + b))) by (rewrite length_map; lia).
    rewrite length_map. exact Hq. }
  intros j Hj.
  rewrite (nth_zip_with (fun a b => rnd (a + b))) by (rewrite length_map; lia).
  rewrite (nth_map_lt _ _ _ _ 0) by lia.
  unfold q. rewrite (nth_zip_with (fun a b => rnd (a / b))) by lia.
  unfold den. rewrite (nth_map_lt _ _ _ _ 0) by lia.
  unfold d. rewrite (nth_zip_with (fun a b => rnd (a - b)))
    by (rewrite ?length_map; lia).
  rewrite (nth_map_lt _ _ _ _ 0%Z) by lia.
  rewrite Hoffn, HLn, Hx0n by lia.
  assert (Hs : (Nat.min (j - n / 2) (N - 1) < N)%nat) by lia.
  pose proof (boundary_lt sp j Hw Hinter) as Hm.
  unfold L0. rewrite (nth_zip_with (fun a b => rnd (a - b))) by lia.
  unfold c0. rewrite !nth_np_repeat by (rewrite ?length_arange; nia).
  change (Nat.min (j - n / 2) (N - 1) / n)%nat with (boundary sp j).
  set (m := boundary sp j) in *.
  rewrite nth_arange by lia.
  unfold lo, hi.
  rewrite !(nth_map_lt _ _ _ _ 0)
    by (rewrite ?length_tl; destruct line; cbn [length] in *;
        rewrite ?length_removelast_cons; lia).
  rewrite nth_removelast by lia.
  replace (nth m (tl line) 0) with (nth (S m) line 0)
    by (destruct line; [cbn in Hline; lia | reflexivity]).
  unfold line.
  rewrite !(nth_map_lt _ _ _ _ 0) by (rewrite ?length_map; lia).
  rewrite !(nth_map_lt _ _ _ _ 0%Z) by lia.
  unfold top_at_g, sample_g, den_g. fold m. reflexivity.
Qed.

Lemma y_row_g_closed (i : nat) (pixels : list Z) :
  length pixels = w sp ->
  y_row_g rnd expf sp weights wc x i pixels
  = Ok (row_curves_g rnd expf sp weights wc x i pixels).
Proof.
  intros Hlen.
  destruct (y_row_g_ok i pixels Hlen) as (top & -> & Htop & Hn).
  assert (E : top = map (top_at_g rnd expf sp weights wc x i pixels)
                        (seq 0 (w sp * inter sp))).
  { apply (nth_ext _ _ 0 0); [rewrite length_map, length_seq; exact Htop|].
    intros j Hj. rewrite Htop in Hj. rewrite Hn by exact Hj.
    rewrite (nth_map_lt _ _ _ _ 0%nat) by (rewrite length_seq; exact Hj).
    rewrite seq_nth by exact Hj. reflexivity. }
  unfold row_curves_g. rewrite <- E. reflexivity.
Qed.

Lemma y_loop_g_closed (skip : Z) (rows : list (list Z)) :
  (skip + 1 <> 0)%Z ->
  Forall (fun line => length line = w sp) rows ->
  forall i acc,
    y_loop_g rnd expf sp weights wc x skip i rows acc
    = Ok (acc ++ map (fun p => row_curves_g rnd expf sp weights wc x (fst p) (snd p))
                     (retained_rows skip i rows)).
Proof.
  intros Hs. unfold retained_rows.
  induction 1 as [|line rest Hline _ IH]; intros i acc; cbn [y_loop_g].
  - cbn [enumerate filter map]. rewrite app_nil_r. reflexivity.
  - rewrite (proj2 (Z.eqb_neq _ _) Hs).
    cbn [enumerate filter fst].
    change (retained skip i) with (Z.of_nat i mod (skip + 1) =? 0)%Z.
    destruct (Z.of_nat i mod (skip + 1) =? 0)%Z; cbn [negb]; [|apply IH].
    rewrite y_row_g_closed by exact Hline. cbn [bind map fst snd].
    rewrite IH, <- app_assoc. reflexivity.
Qed.

Lemma _y_g_closed (skip : Z) :
  Forall (fun line => length line = w sp) (im sp) ->
  (skip + 1 <> 0)%Z ->
  _y_g rnd expf sp weights wc x skip
  = Ok (map (fun p => row_curves_g rnd expf sp weights wc x (fst p) (snd p))
            (retained_rows skip 0 (im sp))).
Proof.
  intros Hrect Hs. unfold _y_g. rewrite y_loop_g_closed by assumption. reflexivity.
Qed.

Lemma row_curves_g_nth (i : nat) (pixels : list Z) (j : nat) :
  (j < w sp * inter sp)%nat ->
  nth j (fst (row_curves_g rnd expf sp weights wc x i pixels)) 0
  = top_at_g rnd expf sp weights wc x i pixels j /\
  nth j (snd (row_curves_g rnd expf sp weights wc x i pixels)) 0
  = mirror_g rnd i (top_at_g rnd expf sp weights wc x i pixels j).
Proof.
  intros Hj. unfold row_curves_g. cbn [fst snd].
  assert (Htop : nth j (map (top_at_g rnd expf sp weights wc x i pixels)
                          (seq 0 (w sp * inter sp))) 0
                 = top_at_g rnd expf sp weights wc x i pixels j).
  { rewrite (nth_map_lt _ _ _ _ 0%nat) by (rewrite length_seq; exact Hj).
    rewrite seq_nth by exact Hj. reflexivity. }
  split; [exact Htop|].
  rewrite (nth_map_lt _ _ _ _ 0) by (rewrite length_map, length_seq; exact Hj).
  rewrite Htop. reflexivity.
Qed.

Lemma row_curves_g_lengths (i : nat) (pixels : list Z) :
  length (fst (row_curves_g rnd expf sp weights wc x i pixels)) = (w sp * inter sp)%nat /\
  length (snd (row_curves_g rnd expf sp weights wc x i pixels)) = (w sp * inter sp)%nat.
Proof.
  unfold row_curves_g. cbn [fst snd].
  rewrite !length_map, length_seq. split; reflexivity.
Qed.

End RoundedRowFacts.

(** ** Facts about the example plots *)

Lemma black_white_plot_rows :
  Forall (fun line => length line = w black_white_plot) (im black_white_plot).
Proof. repeat constructor. Qed.

Lemma white_plot_rows :
  Forall (fun line => length line = w white_plot) (im white_plot).
Proof. repeat constructor. Qed.

Lemma black_plot_rows :
  Forall (fun line => length line = w black_plot) (im black_plot).
Proof. repeat constructor. Qed.

(** ** The mirror relation between the two curves of a row *)




(** ** Totality and alignment with the sample axis *)

Lemma y_row_narrow (sp : SpeckPlot) (weights wc : R * R) (i : nat)
  (pixels : list Z) :
  (length pixels <= 1)%nat ->
  y_row sp weights wc i pixels = Raise IndexError.
Proof.
  intros Hlen. unfold y_row.
  destruct pixels as [|p [|p' rest]]; [| |cbn [length] in Hlen; lia];
    cbn [map removelast tl np.repeat flat_map];
    unfold np.broadcast2; cbn [length Nat.eqb combine map bind];
    rewrite repeat_head_tail_nil; reflexivity.
Qed.

Lemma y_loop_no_stride (sp : SpeckPlot) (weights wc : R * R) (skip : Z)
  (i : nat) (rows : list (list Z)) (acc : list (curve * curve)) :
  (skip + 1 = 0)%Z ->
  y_loop sp weights wc skip i rows acc <> Raise IndexError.
Proof.
  intros Hs. destruct rows as [|line rest]; cbn [y_loop]; [discriminate|].
  rewrite (proj2 (Z.eqb_eq _ _) Hs). discriminate.
Qed.

Lemma row_curves_lengths (sp : SpeckPlot) (weights wc : R * R) (i : nat)
  (pixels : list Z) :
  length (fst (row_curves sp weights wc i pixels)) = (w sp * inter sp)%nat /\
  length (snd (row_curves sp weights wc i pixels)) = (w sp * inter sp)%nat.
Proof.
  unfold row_curves. cbn [fst snd].
  rewrite !length_map, length_seq. split; reflexivity.
Qed.

(** C9. On an image at least two pixels wide the padding never indexes an
    empty array: [_y] raises no [IndexError], and for any stride other than
    [skip = -1] it returns curves that all have the [w * inter] elements of
    the sample axis [_x].  On a one-pixel-wide image the padding fails. *)
Theorem _y_total_and_aligned (sp : SpeckPlot) (weights wc : R * R) (skip : Z) :
  rectangular sp ->
  (1 <= inter sp)%nat ->
  ((2 <= w sp)%nat ->
     _y sp weights wc skip <> Raise IndexError /\
     ((skip + 1 <> 0)%Z ->
        exists ys,
          _y sp weights wc skip = Ok ys /\
          Forall (fun pr => length (fst pr) = length (_x sp) /\
                            length (snd pr) = length (_x sp)) ys)) /\
  length (_x sp) = (w sp * inter sp)%nat /\
  ((w sp <= 1)%nat -> (1 <= h sp)%nat -> (skip + 1 <> 0)%Z ->
     _y sp weights wc skip = Raise IndexError).
Proof.
  intros [Hh Hrows] Hinter. split; [|split].
  - intros Hw.
    destruct (Z.eq_dec (skip + 1) 0) as [E | E].
    + split; [apply y_loop_no_stride; exact E | contradiction].
    + rewrite (_y_closed sp weights wc Hw Hinter skip Hrows E).
      split; [discriminate|]. intros _.
      eexists. split; [reflexivity|].
      apply Forall_forall. intros pr Hin.
      apply in_map_iff in Hin. destruct Hin as (p & <- & _).
      rewrite length__x. apply row_curves_lengths.
  - apply length__x.
  - intros Hw Hpos Hs. unfold _y.
    destruct (im sp) as [|line rest] eqn:E; [cbn [length] in Hh; lia|].
    cbn [y_loop].
    rewrite (proj2 (Z.eqb_neq _ _) Hs).
    cbn [Z.of_nat]. rewrite Z.mod_0_l by exact Hs. cbn [Z.eqb negb].
    rewrite y_row_narrow; [reflexivity|].
    inversion Hrows as [|? ? Hline _]. lia.
Qed.

Lemma _y_total_and_aligned_witness :
  ((2 <= w black_white_plot)%nat ->
     _y black_white_plot (0, 1) (0, 1) 0 <> Raise IndexError /\
     ((0 + 1 <> 0)%Z ->
        exists ys,
          _y black_white_plot (0, 1) (0, 1) 0 = Ok ys /\
          Forall (fun pr => length (fst pr) = length (_x black_white_plot) /\
                            length (snd pr) = length (_x black_white_plot)) ys)) /\
  length (_x black_white_plot) = (w black_white_plot * inter black_white_plot)%nat /\
  ((w black_white_plot <= 1)%nat -> (1 <= h black_white_plot)%nat ->
   (0 + 1 <> 0)%Z ->
     _y black_white_plot (0, 1) (0, 1) 0 = Raise IndexError).
Proof.
  apply (_y_total_and_aligned black_white_plot (0, 1) (0, 1) 0).
  - split; [reflexivity | exact black_white_plot_rows].
  - cbn. lia.
Defined.

(** ** The interpolation density *)

(** C10. The density stored by the constructor is [upscale] when
    [upscale >= 10] and [10] otherwise, so it is [max(upscale, 10)], never
    below [10], and the sample axis has [w * max(upscale, 10)] points. *)
Theorem inter_at_least_ten (pixels : list (list Z)) (upscale : Z) :
  let sp := __init__ pixels upscale in
  ((10 <= upscale)%Z -> Z.of_nat (inter sp) = upscale) /\
  ((upscale < 10)%Z -> inter sp = 10%nat) /\
  Z.of_nat (inter sp) = Z.max upscale 10 /\
  (10 <= inter sp)%nat /\
  length (_x sp) = (w sp * Z.to_nat (Z.max upscale 10))%nat.
Proof.
  intros sp. rewrite length__x. subst sp. cbn [inter w __init__].
  destruct (Z.leb_spec 10 upscale) as [Hge | Hlt].
  - rewrite Z.max_l by lia. repeat split; lia.
  - rewrite Z.max_r by lia. repeat split; lia.
Qed.

Lemma inter_at_least_ten_witness :
  let sp := __init__ [[0; 0]; [255; 255]]%Z 3 in
  ((10 <= 3)%Z -> Z.of_nat (inter sp) = 3%Z) /\
  ((3 < 10)%Z -> inter sp = 10%nat) /\
  Z.of_nat (inter sp) = Z.max 3 10 /\
  (10 <= inter sp)%nat /\
  length (_x sp) = (w sp * Z.to_nat (Z.max 3 10))%nat.
Proof.
  exact (inter_at_least_ten [[0; 0]; [255; 255]]%Z 3).
Defined.

(** ** Rounding errors *)

Lemma Rabs_le_inv (x y : R) : Rabs x <= y -> - y <= x <= y.
Proof. unfold Rabs. destruct (Rcase_abs x); lra. Qed.

Lemma Rdiv_le_upper (x D c : R) : 0 < D -> x <= c * D -> x / D <= c.
Proof.
  intros HD H. unfold Rdiv. apply (Rmult_le_reg_r D); [exact HD|].
  rewrite Rmult_assoc, Rinv_l, Rmult_1_r by lra. exact H.
Qed.

Lemma Rdiv_le_lower (x D c : R) : 0 < D -> c * D <= x -> c <= x / D.
Proof.
  intros HD H. unfold Rdiv. apply (Rmult_le_reg_r D); [exact HD|].
  rewrite Rmult_assoc, Rinv_l, Rmult_1_r by lra. exact H.
Qed.

Section RoundingFacts.

Variable rnd : R -> R.
Variable u : R.
Hypothesis Hr : rounding rnd u.

Lemma rnd_zero : rnd 0 = 0.
Proof.
  pose proof (rnd_error rnd u Hr 0) as H.
  rewrite Rabs_R0, Rmult_0_r, Rminus_0_r in H.
  apply Rabs_le_inv in H. lra.
Qed.

Lemma rnd_nonneg (x : R) : 0 <= x -> 0 <= rnd x.
Proof. intros H. rewrite <- rnd_zero. apply (rnd_monotone rnd u Hr). exact H. Qed.

Lemma rnd_nonpos (x : R) : x <= 0 -> rnd x <= 0.
Proof. intros H. rewrite <- rnd_zero. apply (rnd_monotone rnd u Hr). exact H. Qed.

Lemma rnd_near (x M : R) : - M <= x <= M -> x - u * M <= rnd x <= x + u * M.
Proof.
  intros HM.
  pose proof (rnd_error rnd u Hr x) as H.
  pose proof (unit_roundoff rnd u Hr) as Hu.
  assert (Hx : Rabs x <= M) by (apply Rabs_le; exact HM).
  assert (u * Rabs x <= u * M) by (apply Rmult_le_compat_l; lra).
  assert (H1 : Rabs (rnd x - x) <= u * M) by lra.
  apply Rabs_le_inv in H1. lra.
Qed.

Lemma rnd_rel_pos (x : R) : 0 <= x -> x * (1 - u) <= rnd x <= x * (1 + u).
Proof. intros Hx. pose proof (rnd_near x x ltac:(lra)). lra. Qed.

Lemma rnd_one_lower : 1 - u <= rnd 1.
Proof. pose proof (rnd_near 1 1 ltac:(lra)). lra. Qed.

Lemma inv_den_bound (den : R) : 1 - u <= den -> 0 < / den <= 1 + 2 * u.
Proof.
  intros Hden.
  pose proof (unit_roundoff rnd u Hr) as Hu.
  assert (Hpos : 0 < den) by lra.
  assert (Hinv : 0 < / den) by (apply Rinv_0_lt_compat; exact Hpos).
  split; [exact Hinv|].
  assert (E : / den * den = 1) by (apply Rinv_l; lra).
  assert (H1 : / den * (1 - u) <= 1).
  { rewrite <- E. apply Rmult_le_compat_l; lra. }
  assert (H2 : 0 <= / den * u) by (apply Rmult_le_pos; lra).
  assert (H3 : / den * u <= 2 * u * (/ den * (1 - u))).
  { assert (0 <= (/ den * u) * (1 - 2 * u)) by (apply Rmult_le_pos; lra). lra. }
  assert (H4 : 2 * u * (/ den * (1 - u)) <= 2 * u * 1)
    by (apply Rmult_le_compat_l; lra).
  lra.
Qed.

(** The denominator of the logistic term is at least [1], up to rounding. *)
Lemma den_g_lower (expf : R -> R) (sp : SpeckPlot) (x : list R) (j : nat) :
  (forall t, 0 <= expf t) -> 1 - u <= den_g rnd expf sp x j.
Proof.
  intros Hexp. unfold den_g.
  match goal with |- _ <= rnd (1 + expf ?t) =>
    pose proof (Hexp t) as Ht;
    pose proof (rnd_monotone rnd u Hr 1 (1 + expf t) ltac:(lra))
  end.
  pose proof rnd_one_lower. lra.
Qed.

(** *** The rescaled intensity *)

Section RescaleFacts.

Variable wc : R * R.
Hypothesis Hlt : clip_min_g rnd wc < clip_max_g rnd wc.

Lemma clip_width_pos : 0 < rnd (clip_max_g rnd wc - clip_min_g rnd wc).
Proof.
  pose proof (unit_roundoff rnd u Hr) as Hu.
  pose proof (rnd_rel_pos (clip_max_g rnd wc - clip_min_g rnd wc) ltac:(lra)) as H.
  assert (0 < (clip_max_g rnd wc - clip_min_g rnd wc) * (1 - u))
    by (apply Rmult_lt_0_compat; lra).
  lra.
Qed.

Lemma rescale_g_low (v : R) : v <= clip_min_g rnd wc -> rescale_g rnd wc v = 0.
Proof.
  intros Hv. unfold rescale_g.
  rewrite (proj1 (clip_cases (clip_min_g rnd wc) (clip_max_g rnd wc) v
                    ltac:(lra))) by exact Hv.
  rewrite Rminus_diag, rnd_zero, Rmult_0_l, rnd_zero.
  unfold Rdiv. rewrite Rmult_0_l. apply rnd_zero.
Qed.

Lemma rescale_g_near (v : R) :
  let lo := clip_min_g rnd wc in
  let hi := clip_max_g rnd wc in
  let exact := (np.clip lo hi v - lo) * 255 / (hi - lo) in
  0 <= exact <= 255 /\
  exact - 255 * 6 * u <= rescale_g rnd wc v <= exact + 255 * 6 * u.
Proof.
  intros lo hi exact.
  pose proof (unit_roundoff rnd u Hr) as Hu.
  assert (Hlh : lo <= hi) by (unfold lo, hi; lra).
  pose proof (clip_bounds lo hi v Hlh) as Hc.
  pose proof clip_width_pos as HD.
  unfold rescale_g. fold lo hi.
  set (x := np.clip lo hi v - lo) in *.
  set (y := hi - lo) in *.
  assert (Hy : 0 < y) by (unfold y, lo, hi; lra).
  assert (Hx : 0 <= x <= y) by (unfold x, y; lra).
  assert (HE : exact * y = x * 255) by (unfold exact; field; lra).
  assert (HE0 : 0 <= exact <= 255).
  { split.
    - unfold exact. apply Rdiv_le_lower; [exact Hy | lra].
    - unfold exact. apply Rdiv_le_upper; [exact Hy | lra]. }
  split; [exact HE0|].
  set (t := rnd x). set (T := rnd (t * 255)). set (D := rnd y) in *.
  pose proof (rnd_rel_pos x ltac:(lra)) as Ht. fold t in Ht.
  assert (Ht0 : 0 <= t) by (apply rnd_nonneg; lra).
  pose proof (rnd_rel_pos (t * 255) ltac:(lra)) as HT. fold T in HT.
  assert (HT0 : 0 <= T) by (apply rnd_nonneg; lra).
  pose proof (rnd_rel_pos y ltac:(lra)) as HDr. fold D in HDr.
  assert (Hxu : 0 <= x * u) by (apply Rmult_le_pos; lra).
  assert (Hxuu : 0 <= x * u * u <= x * u * / 1024).
  { split; [apply Rmult_le_pos; lra | apply Rmult_le_compat_l; lra]. }
  assert (Htu : t * u <= x * (1 + u) * u) by (apply Rmult_le_compat_r; lra).
  assert (Htu' : x * (1 - u) * u <= t * u) by (apply Rmult_le_compat_r; lra).
  assert (Hup : T <= exact * (1 + 4 * u) * D).
  { assert (exact * (1 + 4 * u) * (y * (1 - u)) <= exact * (1 + 4 * u) * D).
    { apply Rmult_le_compat_l; [apply Rmult_le_pos; lra | lra]. }
    assert (exact * (1 + 4 * u) * (y * (1 - u))
            = x * 255 * ((1 + 4 * u) * (1 - u)))
      by (rewrite <- HE; ring).
    lra. }
  assert (Hlow : exact * (1 - 4 * u) * D <= T).
  { assert (exact * (1 - 4 * u) * D <= exact * (1 - 4 * u) * (y * (1 + u))).
    { apply Rmult_le_compat_l; [apply Rmult_le_pos; lra | lra]. }
    assert (exact * (1 - 4 * u) * (y * (1 + u))
            = x * 255 * ((1 - 4 * u) * (1 + u)))
      by (rewrite <- HE; ring).
    lra. }
  assert (Hq : exact * (1 - 4 * u) <= T / D <= exact * (1 + 4 * u)).
  { split; [apply Rdiv_le_lower | apply Rdiv_le_upper]; assumption. }
  assert (Heu : 0 <= exact * u <= 255 * u).
  { split; [apply Rmult_le_pos; lra | apply Rmult_le_compat_r; lra]. }
  assert (Hq0 : 0 <= T / D).
  { apply Rdiv_le_lower; [exact HD | lra]. }
  pose proof (rnd_near (T / D) 256 ltac:(lra)) as Hfin.
  lra.
Qed.

Lemma rescale_g_range (v : R) : 0 <= rescale_g rnd wc v <= 255 * (1 + 3 * u).
Proof.
  pose proof (unit_roundoff rnd u Hr) as Hu.
  pose proof (clip_bounds (clip_min_g rnd wc) (clip_max_g rnd wc) v ltac:(lra)) as Hc.
  pose proof clip_width_pos as HD.
  unfold rescale_g.
  set (lo := clip_min_g rnd wc) in *. set (hi := clip_max_g rnd wc) in *.
  set (t := rnd (np.clip lo hi v - lo)).
  set (D := rnd (hi - lo)) in *.
  assert (Ht : 0 <= t <= D).
  { split; [apply rnd_nonneg; lra | apply (rnd_monotone rnd u Hr); lra]. }
  set (T := rnd (t * 255)).
  pose proof (rnd_rel_pos (t * 255) ltac:(lra)) as HT. fold T in HT.
  assert (HT0 : 0 <= T) by (apply rnd_nonneg; lra).
  assert (Hq : 0 <= T / D <= 255 * (1 + u)).
  { split; [apply Rdiv_le_lower | apply Rdiv_le_upper]; try exact HD; [lra|].
    assert (t * 255 * (1 + u) <= D * 255 * (1 + u))
      by (apply Rmult_le_compat_r; lra).
    lra. }
  split; [apply rnd_nonneg; lra|].
  pose proof (rnd_rel_pos (T / D) ltac:(lra)) as Hfin.
  assert ((T / D) * (1 + u) <= 255 * (1 + u) * (1 + u))
    by (apply Rmult_le_compat_r; lra).
  assert (0 <= u * u <= u * / 1024)
    by (split; [apply Rmult_le_pos; lra | apply Rmult_le_compat_l; lra]).
  lra.
Qed.

End RescaleFacts.

(** *** The clipping bounds *)

Lemma clip_bound_g_near (c : R) :
  Rabs (rnd (rnd (1 - c) * 255) - (1 - c) * 255) <= 3 * u * Rabs ((1 - c) * 255).
Proof.
  pose proof (unit_roundoff rnd u Hr) as Hu.
  set (X := 1 - c).
  pose proof (rnd_error rnd u Hr X) as H1.
  pose proof (rnd_error rnd u Hr (rnd X * 255)) as H2.
  rewrite Rabs_mult in H2 |- *.
  rewrite (Rabs_pos_eq 255) in H2 |- * by lra.
  pose proof (Rabs_pos X) as HX.
  set (A := Rabs X) in *.
  assert (H3 : Rabs (rnd X) <= A + u * A).
  { replace (rnd X) with ((rnd X - X) + X) by ring.
    eapply Rle_trans; [apply Rabs_triang|]. fold A. lra. }
  assert (H4 : u * (Rabs (rnd X) * 255) <= u * ((A + u * A) * 255))
    by (apply Rmult_le_compat_l; lra).
  assert (H5 : Rabs (rnd X * 255 - X * 255) <= u * A * 255).
  { replace (rnd X * 255 - X * 255) with ((rnd X - X) * 255) by ring.
    rewrite Rabs_mult, (Rabs_pos_eq 255) by lra. lra. }
  replace (rnd (rnd X * 255) - X * 255)
    with ((rnd (rnd X * 255) - rnd X * 255) + (rnd X * 255 - X * 255)) by ring.
  eapply Rle_trans; [apply Rabs_triang|].
  assert (0 <= u * A) by (apply Rmult_le_pos; lra).
  assert (u * (u * A) <= / 1024 * (u * A)) by (apply Rmult_le_compat_r; lra).
  lra.
Qed.

(** *** The levels *)

Section LevelFacts.

Variable weights : R * R.
Hypothesis Ha : 0 <= fst weights.
Hypothesis Hab : fst weights <= snd weights.
Hypothesis Hb : snd weights <= 1.

Lemma y_min_g_near :
  y_min weights - 2 * u <= y_min_g rnd weights <= y_min weights + 2 * u.
Proof.
  pose proof (unit_roundoff rnd u Hr) as Hu.
  unfold y_min, y_min_g.
  pose proof (rnd_near (fst weights / 2) (1 / 2) ltac:(lra)) as H1.
  pose proof (rnd_near (rnd (fst weights / 2) + 0.5) 1.01 ltac:(lra)) as H2.
  lra.
Qed.

Lemma y_max_g_near :
  y_max weights - 2 * u <= y_max_g rnd weights <= y_max weights + 2 * u.
Proof.
  pose proof (unit_roundoff rnd u Hr) as Hu.
  unfold y_max, y_max_g.
  pose proof (rnd_near (snd weights / 2) (1 / 2) ltac:(lra)) as H1.
  pose proof (rnd_near (rnd (snd weights / 2) + 0.5) 1.01 ltac:(lra)) as H2.
  lra.
Qed.

Lemma y_min_g_le_y_max_g : y_min_g rnd weights <= y_max_g rnd weights.
Proof.
  unfold y_min_g, y_max_g.
  apply (rnd_monotone rnd u Hr).
  pose proof (rnd_monotone rnd u Hr (fst weights / 2) (snd weights / 2) ltac:(lra)).
  lra.
Qed.

Lemma level_range (r : R) :
  0 <= r <= 255 * (1 + 3 * u) ->
  y_min weights - 2 * u <= level weights r <= y_max weights.
Proof.
  intros Hrr. pose proof (unit_roundoff rnd u Hr) as Hu.
  unfold level.
  assert (HW : 0 <= y_max weights - y_min weights <= 1 / 2)
    by (unfold y_max, y_min; lra).
  set (W := y_max weights - y_min weights) in *.
  assert (EW : W = y_max weights - y_min weights) by reflexivity.
  assert (H1 : 0 <= r * W) by (apply Rmult_le_pos; lra).
  assert (H2 : r * W <= 255 * (1 + 3 * u) * W) by (apply Rmult_le_compat_r; lra).
  assert (H3 : 0 <= u * W <= u * (1 / 2))
    by (split; [apply Rmult_le_pos; lra | apply Rmult_le_compat_l; lra]).
  lra.
Qed.

Lemma level_g_near (r : R) :
  0 <= r <= 255 * (1 + 3 * u) ->
  level weights r - 10 * u <= level_g rnd weights r <= level weights r + 10 * u.
Proof.
  intros Hrr. pose proof (unit_roundoff rnd u Hr) as Hu.
  pose proof y_min_g_near as Hmin. pose proof y_max_g_near as Hmax.
  pose proof y_min_g_le_y_max_g as Hle.
  assert (Hy : 1 / 2 <= y_min weights /\ y_max weights <= 1)
    by (unfold y_min, y_max; lra).
  assert (Hyy : y_min weights <= y_max weights) by (unfold y_min, y_max; lra).
  unfold level_g, level.
  set (ym := y_min weights) in *. set (yM := y_max weights) in *.
  set (gm := y_min_g rnd weights) in *. set (gM := y_max_g rnd weights) in *.
  pose proof (rnd_near (gM - gm) 0.51 ltac:(lra)) as HW.
  assert (HW0 : 0 <= rnd (gM - gm)) by (apply rnd_nonneg; lra).
  set (W := rnd (gM - gm)) in *.
  assert (Hr256 : r <= 256) by lra.
  assert (HrW : 0 <= r * W <= 130).
  { split; [apply Rmult_le_pos; lra|].
    assert (r * W <= 256 * 0.505)
      by (apply Rmult_le_compat; lra).
    lra. }
  assert (Hru : 0 <= r * u <= 256 * u)
    by (split; [apply Rmult_le_pos; lra | apply Rmult_le_compat_r; lra]).
  assert (HrW1 : r * W <= r * (yM - ym + 5 * u)) by (apply Rmult_le_compat_l; lra).
  assert (HrW2 : r * (yM - ym - 5 * u) <= r * W) by (apply Rmult_le_compat_l; lra).
  pose proof (rnd_near (r * W) 130 ltac:(lra)) as Hp.
  assert (Hp0 : 0 <= rnd (r * W)) by (apply rnd_nonneg; lra).
  set (p := rnd (r * W)) in *.
  pose proof (rnd_near (p / 255) 0.52 ltac:(lra)) as Hs.
  assert (Hs0 : 0 <= rnd (p / 255)) by (apply rnd_nonneg; lra).
  set (s := rnd (p / 255)) in *.
  pose proof (rnd_near (gM - s) 1.01 ltac:(lra)) as Hl.
  lra.
Qed.

Lemma level_g_range (r : R) :
  0 <= r <= 255 * (1 + 3 * u) ->
  y_min weights - 12 * u <= level_g rnd weights r <= y_max weights + 10 * u.
Proof.
  intros Hrr. pose proof (level_g_near r Hrr). pose proof (level_range r Hrr).
  pose proof (unit_roundoff rnd u Hr). lra.
Qed.

End LevelFacts.

(** *** One sample *)

Lemma slack_nonneg (i : nat) : 0 <= slack u i.
Proof.
  pose proof (unit_roundoff rnd u Hr) as Hu. pose proof (pos_INR i).
  unfold slack. apply Rmult_le_pos; [lra | lra].
Qed.

Lemma sample_g_range (i : nat) (l0 l1 den lo hi : R) :
  1 - u <= den ->
  0.4 <= lo -> hi <= 1.1 ->
  lo <= l0 <= hi -> lo <= l1 <= hi ->
  INR i + lo - u * (3 * INR i + 6) <= sample_g rnd i l0 l1 den
                                   <= INR i + hi + u * (3 * INR i + 6).
Proof.
  intros Hden Hlo Hhi H0 H1.
  pose proof (unit_roundoff rnd u Hr) as Hu. pose proof (pos_INR i) as Hi.
  destruct (inv_den_bound den Hden) as [Hinv0 Hinv].
  unfold sample_g.
  pose proof (rnd_near (l1 - l0) 0.7 ltac:(lra)) as HL.
  set (L := rnd (l1 - l0)) in *.
  assert (Hq : lo - 2.9 * u <= l0 + rnd (L / den) <= hi + 2.9 * u
               /\ - 0.72 <= rnd (L / den) <= 0.72).
  { destruct (Rle_dec l0 l1) as [Hc|Hc].
    - assert (HL0 : 0 <= L) by (apply rnd_nonneg; lra).
      assert (Hd : 0 <= L / den <= L * (1 + 2 * u)).
      { unfold Rdiv. split; [apply Rmult_le_pos; lra|].
        apply Rmult_le_compat_l; lra. }
      assert (HLu : 0 <= L * u <= 0.71 * u)
        by (split; [apply Rmult_le_pos; lra | apply Rmult_le_compat_r; lra]).
      pose proof (rnd_near (L / den) 0.72 ltac:(lra)) as Hq.
      assert (0 <= rnd (L / den)) by (apply rnd_nonneg; lra).
      lra.
    - assert (HL0 : L <= 0) by (apply rnd_nonpos; lra).
      assert (Hd : (- L) * (1 + 2 * u) >= (- L) * / den /\ 0 <= (- L) * / den).
      { split; [apply Rle_ge; apply Rmult_le_compat_l; lra
               | apply Rmult_le_pos; lra]. }
      assert (HLu : 0 <= (- L) * u <= 0.71 * u)
        by (split; [apply Rmult_le_pos; lra | apply Rmult_le_compat_r; lra]).
      assert (Hd' : L * (1 + 2 * u) <= L / den <= 0) by (unfold Rdiv; lra).
      pose proof (rnd_near (L / den) 0.72 ltac:(lra)) as Hq.
      assert (rnd (L / den) <= 0) by (apply rnd_nonpos; lra).
      lra. }
  destruct Hq as [Hq Hqm].
  set (q := rnd (L / den)) in *.
  pose proof (rnd_near (INR i + q) (INR i + 0.72) ltac:(lra)) as HA.
  set (A := rnd (INR i + q)) in *.
  assert (Hui : 0 <= u * INR i <= / 1024 * INR i)
    by (split; [apply Rmult_le_pos; lra | apply Rmult_le_compat_r; lra]).
  pose proof (rnd_near (A + l0) (2 * INR i + 2) ltac:(lra)) as Htop.
  lra.
Qed.

Lemma mirror_g_near (i : nat) (top : R) :
  -1 <= top <= 4 * INR i + 3 ->
  INR (2 * i + 1) - top - u * (2 * INR i + 2) <= mirror_g rnd i top
    <= INR (2 * i + 1) - top + u * (2 * INR i + 2).
Proof.
  intros Ht. unfold mirror_g.
  assert (E : INR (2 * i + 1) = 2 * INR i + 1).
  { rewrite plus_INR, mult_INR. cbn [INR]. lra. }
  rewrite E in *.
  apply rnd_near. lra.
Qed.

(** *** The two curves of a row *)

Section RibbonFacts.

Variable expf : R -> R.
Variable sp : SpeckPlot.
Variables weights wc : R * R.
Variable x : list R.

Hypothesis Hexp : forall t, 0 <= expf t.
Hypothesis Ha : 0 <= fst weights.
Hypothesis Hab : fst weights <= snd weights.
Hypothesis Hb : snd weights <= 1.
Hypothesis Hlt : clip_min_g rnd wc < clip_max_g rnd wc.

Lemma ribbon_sample_g (i : nat) (pixels : list Z) (j : nat) :
  let m := boundary sp j in
  let r0 := rescale_g rnd wc (IZR (nth m pixels 0%Z)) in
  let r1 := rescale_g rnd wc (IZR (nth (S m) pixels 0%Z)) in
  let top := top_at_g rnd expf sp weights wc x i pixels j in
  let bot := mirror_g rnd i top in
  (INR i + y_min weights - slack u i <= top <= INR i + y_max weights + slack u i) /\
  (INR i + 1 - y_max weights - slack u i <= bot
     <= INR i + 1 - y_min weights + slack u i) /\
  (fst weights - slack u i <= top - bot <= snd weights + slack u i) /\
  (Rmin (thickness weights r0) (thickness weights r1) - slack u i <= top - bot
     <= Rmax (thickness weights r0) (thickness weights r1) + slack u i) /\
  (r0 = r1 -> Rabs (Rabs (bot - top) - thickness weights r0) <= slack u i).
Proof.
  intros m r0 r1 top bot.
  pose proof (unit_roundoff rnd u Hr) as Hu. pose proof (pos_INR i) as Hi.
  pose proof (rescale_g_range wc Hlt (IZR (nth m pixels 0%Z))) as Hr0.
  pose proof (rescale_g_range wc Hlt (IZR (nth (S m) pixels 0%Z))) as Hr1.
  fold r0 in Hr0. fold r1 in Hr1.
  pose proof (level_g_near weights Ha Hab Hb r0 Hr0) as Hn0.
  pose proof (level_g_near weights Ha Hab Hb r1 Hr1) as Hn1.
  pose proof (level_range weights Ha Hab Hb r0 Hr0) as Hl0.
  pose proof (level_range weights Ha Hab Hb r1 Hr1) as Hl1.
  pose proof (level_thickness weights r0) as Ht0.
  pose proof (level_thickness weights r1) as Ht1.
  assert (Hy : y_min weights = fst weights / 2 + 0.5
               /\ y_max weights = snd weights / 2 + 0.5) by (split; reflexivity).
  destruct Hy as [Eym EyM].
  set (g0 := level_g rnd weights r0) in *.
  set (g1 := level_g rnd weights r1) in *.
  set (lv0 := level weights r0) in *. set (lv1 := level weights r1) in *.
  set (T0 := thickness weights r0) in *. set (T1 := thickness weights r1) in *.
  set (ym := y_min weights) in *. set (yM := y_max weights) in *.
  pose proof (den_g_lower expf sp x j Hexp) as Hden.
  assert (Hs : INR i + Rmin g0 g1 - u * (3 * INR i + 6) <= top
               <= INR i + Rmax g0 g1 + u * (3 * INR i + 6)).
  { apply sample_g_range; try exact Hden.
    - unfold Rmin. destruct (Rle_dec g0 g1); lra.
    - unfold Rmax. destruct (Rle_dec g0 g1); lra.
    - split; [apply Rmin_l | apply Rmax_l].
    - split; [apply Rmin_r | apply Rmax_r]. }
  assert (Hui : 0 <= u * INR i <= / 1024 * INR i)
    by (split; [apply Rmult_le_pos; lra | apply Rmult_le_compat_r; lra]).
  assert (Hm : INR (2 * i + 1) - top - u * (2 * INR i + 2) <= bot
               <= INR (2 * i + 1) - top + u * (2 * INR i + 2)).
  { apply mirror_g_near.
    revert Hs. unfold Rmin, Rmax. destruct (Rle_dec g0 g1); intros Hs; lra. }
  assert (E : INR (2 * i + 1) = 2 * INR i + 1).
  { rewrite plus_INR, mult_INR. cbn [INR]. lra. }
  rewrite E in Hm. clear E.
  unfold slack.
  assert (Hflat : r0 = r1 ->
            Rabs (Rabs (bot - top) - T0) <= 6 * u * (INR i + 6) + 2 * u * INR i + 12 * u).
  { intros Heq.
    assert (Eg : g1 = g0) by (unfold g0, g1; rewrite Heq; reflexivity).
    assert (ET : T1 = T0) by (unfold T0, T1; rewrite Heq; reflexivity).
    rewrite Eg in Hs. unfold Rmin, Rmax in Hs.
    destruct (Rle_dec g0 g0) as [_|Hn]; [|lra].
    apply Rabs_le. unfold Rabs. destruct (Rcase_abs (bot - top)); lra. }
  revert Hs. unfold Rmin, Rmax.
  destruct (Rle_dec g0 g1), (Rle_dec T0 T1); intros Hs;
    (split; [lra|]; split; [lra|]; split; [lra|]; split; [lra|];
     intros Heq; specialize (Hflat Heq); lra).
Qed.

End RibbonFacts.

End RoundingFacts.


(** Exact arithmetic is a rounding with unit roundoff [0]. *)
Lemma exact_rounding : rounding (fun x => x) 0.
Proof.
  split.
  - lra.
  - intros x y H. exact H.
  - intros x. rewrite Rminus_diag, Rabs_R0. lra.
Qed.

Lemma exp_nonneg (t : R) : 0 <= exp t.
Proof. left. apply exp_pos. Qed.

Lemma slack_exact (i : nat) : slack 0 i = 0.
Proof. unfold slack. ring. Qed.

(** ** Clipping and rescaling *)

(** C6, as stated, fails in binary64: with weight_clipping [(0, 0.16)] the
    bounds are ordered and a white pixel is rescaled to a value above
    [255]; and with weight_clipping [(0, 1e-17)] the two bounds are both
    [255], so the rescaled value is [0 / 0]. *)
Lemma rescaled_white_exceeds_255 :
  PrimFloat.ltb 0 0.16%float = true /\
  PrimFloat.ltb (binary64.clip_min (0, 0.16)%float)
                (binary64.clip_max (0, 0.16)%float) = true /\
  PrimFloat.ltb 255 (binary64.rescale (0, 0.16)%float (binary64.of_pixel 255))
  = true /\
  PrimFloat.ltb 0 1e-17%float = true /\
  PrimFloat.is_nan (binary64.rescale (0, 1e-17)%float (binary64.of_pixel 255))
  = true.
Proof. repeat split; vm_compute; reflexivity. Qed.

(** C6, amended. When the clipping fractions lie in [[0, 1]] and the two
    computed bounds [clip_min], [clip_max] are strictly ordered, the bounds
    are [(1 - weight_clipping[1]) * 255] and [(1 - weight_clipping[0]) * 255]
    up to rounding, every intensity is clipped between them, and the
    rescaled value is the linear stretch [(clipped - clip_min) * 255 /
    (clip_max - clip_min)] up to [255 * 6 * u]: it is [0] for an intensity
    at or below [clip_min], within rounding of [255] for one at or above
    [clip_max] and always in [[0, 255 * (1 + 3 * u)]].  Every sample of the
    curves that [_y] returns is computed from the rescaled values of the
    two pixels next to its boundary. *)
Theorem rescale_clips_then_stretches_rounded (rnd expf : R -> R) (u : R)
  (sp : SpeckPlot) (weights wc : R * R) (x : list R) (skip : Z) :
  rounding rnd u ->
  rectangular sp ->
  (2 <= w sp)%nat ->
  (1 <= inter sp)%nat ->
  length x = (w sp * inter sp)%nat ->
  (skip + 1 <> 0)%Z ->
  0 <= fst wc ->
  snd wc <= 1 ->
  clip_min_g rnd wc < clip_max_g rnd wc ->
  let lo := clip_min_g rnd wc in
  let hi := clip_max_g rnd wc in
  let stretch := fun v => (np.clip lo hi v - lo) * 255 / (hi - lo) in
  Rabs (lo - (1 - snd wc) * 255) <= 255 * 3 * u /\
  Rabs (hi - (1 - fst wc) * 255) <= 255 * 3 * u /\
  (forall v,
     lo <= np.clip lo hi v <= hi /\
     (v <= lo -> np.clip lo hi v = lo) /\
     (lo <= v <= hi -> np.clip lo hi v = v) /\
     (hi <= v -> np.clip lo hi v = hi) /\
     0 <= stretch v <= 255 /\
     Rabs (rescale_g rnd wc v - stretch v) <= 255 * 6 * u /\
     (v <= lo -> rescale_g rnd wc v = 0) /\
     (hi <= v -> Rabs (rescale_g rnd wc v - 255) <= 255 * 6 * u) /\
     0 <= rescale_g rnd wc v <= 255 * (1 + 3 * u)) /\
  exists ys,
    _y_g rnd expf sp weights wc x skip = Ok ys /\
    Forall2
      (fun p pr =>
         forall j, (j < w sp * inter sp)%nat ->
           let m := boundary sp j in
           let r0 := rescale_g rnd wc (IZR (nth m (snd p) 0%Z)) in
           let r1 := rescale_g rnd wc (IZR (nth (S m) (snd p) 0%Z)) in
           0 <= r0 <= 255 * (1 + 3 * u) /\
           0 <= r1 <= 255 * (1 + 3 * u) /\
           nth j (fst pr) 0
           = sample_g rnd (fst p) (level_g rnd weights r0) (level_g rnd weights r1)
               (den_g rnd expf sp x j))
      (retained_rows skip 0 (im sp)) ys.
Proof.
  intros Hr [Hh Hrows] Hw Hinter Hx Hs Hc Hd Hlt lo hi stretch.
  pose proof (unit_roundoff rnd u Hr) as Hu.
  assert (Hcd : fst wc < snd wc).
  { destruct (Rlt_le_dec (fst wc) (snd wc)) as [H|H]; [exact H|].
    exfalso. unfold clip_min_g, clip_max_g in Hlt.
    pose proof (rnd_monotone rnd u Hr (1 - fst wc) (1 - snd wc) ltac:(lra)) as H1.
    pose proof (rnd_monotone rnd u Hr (rnd (1 - fst wc) * 255)
                  (rnd (1 - snd wc) * 255) ltac:(lra)) as H2.
    lra. }
  assert (Hbound : forall c, 0 <= c <= 1 ->
            Rabs (rnd (rnd (1 - c) * 255) - (1 - c) * 255) <= 255 * 3 * u).
  { intros c Hc01.
    eapply Rle_trans; [apply (clip_bound_g_near rnd u Hr)|].
    rewrite Rabs_pos_eq by lra.
    assert (3 * u * ((1 - c) * 255) <= 3 * u * (1 * 255))
      by (apply Rmult_le_compat_l; lra).
    lra. }
  split; [apply Hbound; lra|]. split; [apply Hbound; lra|].
  split.
  { intros v.
    destruct (clip_cases lo hi v ltac:(unfold lo, hi; lra)) as (Hlow & Hmid & Hhigh).
    pose proof (rescale_g_near rnd u Hr wc Hlt v) as [Hex Hnear].
    cbv zeta in Hex, Hnear. fold lo hi in Hex, Hnear.
    split; [apply clip_bounds; unfold lo, hi; lra|].
    split; [exact Hlow|]. split; [exact Hmid|]. split; [exact Hhigh|].
    split; [exact Hex|].
    split; [apply Rabs_le; unfold stretch; lra|].
    split; [apply (rescale_g_low rnd u Hr wc Hlt)|].
    split; [|apply (rescale_g_range rnd u Hr wc Hlt)].
    intros Hv. apply Rabs_le.
    assert (E : (np.clip lo hi v - lo) * 255 / (hi - lo) = 255).
    { rewrite (Hhigh Hv). field. unfold lo, hi. lra. }
    rewrite E in Hnear. lra. }
  rewrite (_y_g_closed rnd expf sp weights wc x Hw Hinter Hx skip Hrows Hs).
  eexists. split; [reflexivity|].
  apply Forall2_map_right. apply Forall_forall. intros p _ j Hj. cbv zeta.
  destruct (row_curves_g_nth rnd expf sp weights wc x (fst p) (snd p) j Hj)
    as [-> _].
  split; [apply (rescale_g_range rnd u Hr wc Hlt)|].
  split; [apply (rescale_g_range rnd u Hr wc Hlt)|].
  reflexivity.
Qed.

Lemma rescale_clips_then_stretches_rounded_witness :
  exists ys,
    _y_g (fun x => x) exp black_white_plot (0.2, 0.9) (0, 1)
      (_x black_white_plot) 0 = Ok ys /\
    0 <= rescale_g (fun x => x) (0, 1) 300 <= 255 * (1 + 3 * 0).
Proof.
  destruct (rescale_clips_then_stretches_rounded (fun x => x) exp 0
              black_white_plot (0.2, 0.9) (0, 1) (_x black_white_plot) 0
              exact_rounding
              (conj eq_refl black_white_plot_rows)
              ltac:(cbn; lia) ltac:(cbn; lia)
              (length__x black_white_plot)
              ltac:(lia)
              ltac:(cbn; lra) ltac:(cbn; lra)
              ltac:(unfold clip_min_g, clip_max_g; cbn; lra))
    as (_ & _ & Hv & ys & Hys & _).
  exists ys. split; [exact Hys|].
  destruct (Hv 300) as (_ & _ & _ & _ & _ & _ & _ & _ & Hrange).
  exact Hrange.
Defined.

(** ** The skip stride *)

Lemma nth_error_map_seq {A : Type} (F : nat -> A) (n j : nat) :
  (j < n)%nat -> nth_error (map F (seq 0 n)) j = Some (F j).
Proof.
  intros Hj. rewrite nth_error_map, nth_error_seq.
  destruct (Nat.ltb_spec j n); [reflexivity | lia].
Qed.

Lemma ceil_div_one (a : nat) : ceil_div a 1 = a.
Proof. apply ceil_div_unique; lia. Qed.

(** C7. For a stride [skip >= 0], [_y] returns [ceil(h / (skip + 1))]
    pairs, one for each row [i] with [i mod (skip + 1) = 0], and the pair
    of such a row is the pair that row gets when nothing is skipped. *)
Theorem skip_keeps_row_shapes (sp : SpeckPlot) (weights wc : R * R) (skip : Z) :
  rectangular sp ->
  (2 <= w sp)%nat ->
  (1 <= inter sp)%nat ->
  (0 <= skip)%Z ->
  let m := Z.to_nat (skip + 1) in
  exists ys ys0,
    _y sp weights wc skip = Ok ys /\
    _y sp weights wc 0 = Ok ys0 /\
    length ys0 = h sp /\
    length ys = ceil_div (h sp) m /\
    (forall j, (j < length ys)%nat ->
       (j * m < h sp)%nat /\ nth_error ys j = nth_error ys0 (j * m)) /\
    (forall i, (i < h sp)%nat -> (Z.of_nat i mod (skip + 1) = 0)%Z ->
       (i / m < length ys)%nat /\ nth_error ys (i / m) = nth_error ys0 i).
Proof.
  intros [Hh Hrows] Hw Hinter Hs m.
  assert (Hm : (0 < m)%nat) by (unfold m; lia).
  rewrite (_y_closed sp weights wc Hw Hinter skip Hrows) by lia.
  rewrite (_y_closed sp weights wc Hw Hinter 0 Hrows) by lia.
  rewrite (retained_rows_multiples skip (im sp) Hs).
  rewrite (retained_rows_multiples 0 (im sp)) by lia.
  fold m. change (Z.to_nat (0 + 1)) with 1%nat.
  rewrite Hh, ceil_div_one.
  set (c := ceil_div (h sp) m).
  pose proof (ceil_div_spec (h sp) m Hm) as Hc. fold c in Hc.
  set (f := fun p : nat * list Z => row_curves sp weights wc (fst p) (snd p)).
  assert (Hfew : forall j, (j < c)%nat -> (j * m < h sp)%nat) by (intros j Hj; nia).
  assert (Hsame : forall j, (j < c)%nat ->
            nth_error (map f (map (fun j => ((j * m)%nat, nth (j * m) (im sp) []))
                                  (seq 0 c))) j
            = nth_error (map f (map (fun j => ((j * 1)%nat, nth (j * 1) (im sp) []))
                                    (seq 0 (h sp)))) (j * m)).
  { intros j Hj. rewrite !map_map.
    rewrite nth_error_map_seq by exact Hj.
    rewrite nth_error_map_seq by (apply Hfew; exact Hj).
    rewrite !Nat.mul_1_r. reflexivity. }
  eexists. eexists. split; [reflexivity|]. split; [reflexivity|].
  split; [rewrite !length_map, length_seq; reflexivity|].
  split; [rewrite !length_map, length_seq; reflexivity|].
  split.
  - intros j Hj. rewrite !length_map, length_seq in Hj.
    split; [apply Hfew; exact Hj | apply Hsame; exact Hj].
  - intros i Hi Hmod.
    assert (Hnat : (i mod m = 0)%nat).
    { pose proof (retained_nat skip i Hs) as Hr. unfold retained in Hr.
      rewrite (proj2 (Z.eqb_eq _ _) Hmod) in Hr.
      symmetry in Hr. apply Nat.eqb_eq in Hr. exact Hr. }
    pose proof (Nat.div_mod_eq i m) as Hdm.
    assert (Hq : (i / m < c)%nat) by nia.
    rewrite !length_map, length_seq.
    split; [exact Hq|].
    rewrite Hsame by exact Hq.
    replace (i / m * m)%nat with i by nia. reflexivity.
Qed.

Lemma skip_keeps_row_shapes_witness :
  exists ys ys0,
    _y black_white_plot (0, 1) (0, 1) 1 = Ok ys /\
    _y black_white_plot (0, 1) (0, 1) 0 = Ok ys0 /\
    length ys0 = 2%nat /\
    length ys = 1%nat /\
    nth_error ys 0 = nth_error ys0 0.
Proof.
  destruct (skip_keeps_row_shapes black_white_plot (0, 1) (0, 1) 1
              (conj eq_refl black_white_plot_rows)
              ltac:(cbn; lia) ltac:(cbn; lia) ltac:(lia))
    as (ys & ys0 & H1 & H0 & Hl0 & Hl & Hj & _).
  exists ys, ys0.
  split; [exact H1|]. split; [exact H0|]. split; [exact Hl0|].
  split; [exact Hl|].
  apply (Hj 0%nat). rewrite Hl. cbv. lia.
Defined.

(** ** Uniform images *)

Lemma In_enumerate {A : Type} (l : list A) (i : nat) (p : nat * A) :
  In p (enumerate i l) -> In (snd p) l.
Proof.
  revert i. induction l as [|x l IH]; intros i Hin; cbn [enumerate] in Hin.
  - contradiction.
  - destruct Hin as [<- | Hin]; [left; reflexivity | right; exact (IH _ Hin)].
Qed.

Lemma In_retained_rows (skip : Z) (i : nat) (rows : list (list Z))
  (p : nat * list Z) :
  In p (retained_rows skip i rows) -> In (snd p) rows.
Proof.
  unfold retained_rows. intros Hin. apply filter_In in Hin.
  exact (In_enumerate _ _ _ (proj1 Hin)).
Qed.

Lemma map_const_seq {A : Type} (F : nat -> A) (c : A) (n : nat) :
  (forall j, (j < n)%nat -> F j = c) -> map F (seq 0 n) = List.repeat c n.
Proof.
  intros H. apply (nth_ext _ _ c c).
  - rewrite length_map, length_seq, repeat_length. reflexivity.
  - intros j Hj. rewrite length_map, length_seq in Hj.
    rewrite (nth_map_lt _ _ _ _ 0%nat) by (rewrite length_seq; exact Hj).
    rewrite seq_nth by exact Hj. rewrite nth_repeat_lt by exact Hj.
    apply H. exact Hj.
Qed.

(** On a row whose pixels all have the value [v] there is no ramp. *)
Lemma top_at_uniform (sp : SpeckPlot) (weights wc : R * R) (i : nat)
  (pixels : list Z) (v : Z) (j : nat) :
  (2 <= w sp)%nat -> (1 <= inter sp)%nat ->
  length pixels = w sp ->
  Forall (eq v) pixels ->
  top_at sp weights wc i pixels j = INR i + level weights (rescale wc (IZR v)).
Proof.
  intros Hw Hinter Hlen Hall.
  pose proof (boundary_lt sp j Hw Hinter) as Hm.
  rewrite top_at_blend. cbv zeta.
  assert (Hv : forall q, (q < length pixels)%nat -> nth q pixels 0%Z = v).
  { intros q Hq. symmetry.
    exact (proj1 (Forall_forall _ _) Hall _ (nth_In _ _ Hq)). }
  rewrite !Hv by lia. lra.
Qed.

Lemma _y_flat_rows (sp : SpeckPlot) (weights wc : R * R) (skip : Z) :
  rectangular sp ->
  (2 <= w sp)%nat ->
  (1 <= inter sp)%nat ->
  (skip + 1 <> 0)%Z ->
  exists ys,
    _y sp weights wc skip = Ok ys /\
    Forall2
      (fun p pr =>
         In (snd p) (im sp) /\
         forall v, Forall (eq v) (snd p) ->
           let c := INR (fst p) + level weights (rescale wc (IZR v)) in
           fst pr = List.repeat c (w sp * inter sp) /\
           snd pr = List.repeat (2 * INR (fst p) + 1 - c) (w sp * inter sp))
      (retained_rows skip 0 (im sp)) ys.
Proof.
  intros [Hh Hrows] Hw Hinter Hs.
  rewrite (_y_closed sp weights wc Hw Hinter skip Hrows Hs).
  eexists. split; [reflexivity|].
  apply Forall2_map_right. apply Forall_forall. intros p Hin.
  apply In_retained_rows in Hin. split; [exact Hin|]. intros v Hv.
  pose proof (proj1 (Forall_forall _ _) Hrows _ Hin) as Hlen.
  cbv zeta. unfold row_curves. cbn [fst snd].
  set (c := INR (fst p) + level weights (rescale wc (IZR v))).
  assert (Htop : map (top_at sp weights wc (fst p) (snd p)) (seq 0 (w sp * inter sp))
                 = List.repeat c (w sp * inter sp)).
  { apply map_const_seq. intros j _.
    apply top_at_uniform; assumption. }
  rewrite Htop. split; [reflexivity|].
  rewrite map_repeat. f_equal.
  rewrite !plus_INR, mult_INR. cbn [INR]. lra.
Qed.

(** C4. Every curve generated for an image whose pixels all have one
    value [v] is constant over the whole sample axis: the top curve of row
    [i] stays at [i + level v] and the bottom curve at its mirror image. *)
Theorem uniform_image_constant_curves (sp : SpeckPlot) (weights wc : R * R)
  (skip : Z) (v : Z) :
  rectangular sp ->
  (2 <= w sp)%nat ->
  (1 <= inter sp)%nat ->
  (skip + 1 <> 0)%Z ->
  fst wc < snd wc ->
  Forall (Forall (eq v)) (im sp) ->
  exists ys,
    _y sp weights wc skip = Ok ys /\
    Forall2
      (fun p pr =>
         let c := INR (fst p) + level weights (rescale wc (IZR v)) in
         fst pr = List.repeat c (w sp * inter sp) /\
         snd pr = List.repeat (2 * INR (fst p) + 1 - c) (w sp * inter sp))
      (retained_rows skip 0 (im sp)) ys.
Proof.
  intros Hrect Hw Hinter Hs _ Hall.
  destruct (_y_flat_rows sp weights wc skip Hrect Hw Hinter Hs) as (ys & Hys & HF).
  exists ys. split; [exact Hys|].
  eapply Forall2_impl; [|exact HF].
  intros p pr [Hin Hflat]. apply Hflat.
  exact (proj1 (Forall_forall _ _) Hall _ Hin).
Qed.

Lemma uniform_image_constant_curves_witness :
  exists ys,
    _y white_plot (0, 1) (0, 1) 0 = Ok ys /\
    Forall2
      (fun p pr =>
         let c := INR (fst p) + level (0, 1) (rescale (0, 1) 255) in
         fst pr = List.repeat c (w white_plot * inter white_plot) /\
         snd pr = List.repeat (2 * INR (fst p) + 1 - c)
                    (w white_plot * inter white_plot))
      (retained_rows 0 0 (im white_plot)) ys.
Proof.
  apply (uniform_image_constant_curves white_plot (0, 1) (0, 1) 0 255).
  - split; [reflexivity | exact white_plot_rows].
  - cbn. lia.
  - cbn. lia.
  - lia.
  - cbn. lra.
  - repeat constructor.
Defined.

(** ** The order of the two curves *)

Lemma rescale_default (v : R) : 0 <= v <= 255 -> rescale (0, 1) v = v.
Proof.
  intros Hv. unfold rescale, clip_min, clip_max. cbn [fst snd].
  rewrite (proj1 (proj2 (clip_cases ((1 - 1) * 255) ((1 - 0) * 255) v ltac:(lra))))
    by lra.
  field.
Qed.


(** C3, as stated, fails: on a black row with the default
    weights the top curve is at [1] and the bottom curve at [0]. *)
Lemma top_below_bottom_fails :
  exists top bot,
    _y black_plot (0, 1) (0, 1) 0 = Ok [(top, bot)] /\
    (0 < length top)%nat /\
    ~ nth 0 top 0 < nth 0 bot 0.
Proof.
  destruct (_y_flat_rows black_plot (0, 1) (0, 1) 0
              (conj eq_refl black_plot_rows) ltac:(cbn; lia) ltac:(cbn; lia)
              ltac:(lia))
    as (ys & Hys & HF).
  change (retained_rows 0 0 (im black_plot)) with [(0%nat, [0; 0]%Z)] in HF.
  inversion HF as [|p pr l l' [_ Hp] Hl]; subst. inversion Hl; subst.
  destruct pr as [top bot].
  specialize (Hp 0%Z ltac:(repeat constructor)).
  cbn [fst snd] in Hp. destruct Hp as [-> ->].
  change (w black_plot * inter black_plot)%nat with 20%nat in Hys.
  eexists. eexists. split; [exact Hys|].
  rewrite rescale_default by lra.
  unfold level, y_max, y_min.
  cbn [fst snd List.repeat nth length INR]. split; [lia | lra].
Qed.

(** C3, amended. With weights [0 <= a < b <= 1] the curve called top is
    the numerically larger one: at every sample [top - bottom] lies between
    [a] and [b], up to the rounding slack of the row.  In exact arithmetic
    [a <= top - bottom <= b]. *)
Theorem top_above_bottom_by_weight (rnd expf : R -> R) (u : R)
  (sp : SpeckPlot) (weights wc : R * R) (x : list R) (skip : Z) :
  rounding rnd u ->
  (forall t, 0 <= expf t) ->
  rectangular sp ->
  (2 <= w sp)%nat ->
  (1 <= inter sp)%nat ->
  length x = (w sp * inter sp)%nat ->
  (skip + 1 <> 0)%Z ->
  0 <= fst weights < snd weights ->
  snd weights <= 1 ->
  0 <= fst wc ->
  snd wc <= 1 ->
  clip_min_g rnd wc < clip_max_g rnd wc ->
  exists ys,
    _y_g rnd expf sp weights wc x skip = Ok ys /\
    Forall2
      (fun p pr =>
         length (fst pr) = (w sp * inter sp)%nat /\
         length (snd pr) = (w sp * inter sp)%nat /\
         forall j, (j < w sp * inter sp)%nat ->
           fst weights - slack u (fst p) <= nth j (fst pr) 0 - nth j (snd pr) 0
             <= snd weights + slack u (fst p))
      (retained_rows skip 0 (im sp)) ys.
Proof.
  intros Hr Hexp [Hh Hrows] Hw Hinter Hx Hs Hab Hb Hc Hd Hlt.
  rewrite (_y_g_closed rnd expf sp weights wc x Hw Hinter Hx skip Hrows Hs).
  eexists. split; [reflexivity|].
  apply Forall2_map_right. apply Forall_forall. intros p _.
  destruct (row_curves_g_lengths rnd expf sp weights wc x (fst p) (snd p))
    as [Ht Hbt].
  split; [exact Ht|]. split; [exact Hbt|].
  intros j Hj.
  destruct (row_curves_g_nth rnd expf sp weights wc x (fst p) (snd p) j Hj)
    as [-> ->].
  pose proof (ribbon_sample_g rnd u Hr expf sp weights wc x Hexp
                ltac:(lra) ltac:(lra) Hb Hlt (fst p) (snd p) j) as H.
  cbv zeta in H. destruct H as (_ & _ & H & _). exact H.
Qed.

Lemma top_above_bottom_by_weight_witness :
  exists ys,
    _y_g (fun x => x) exp black_white_plot (0.2, 0.9) (0, 1)
      (_x black_white_plot) 0 = Ok ys /\
    Forall2
      (fun p pr =>
         length (fst pr) = (w black_white_plot * inter black_white_plot)%nat /\
         length (snd pr) = (w black_white_plot * inter black_white_plot)%nat /\
         forall j, (j < w black_white_plot * inter black_white_plot)%nat ->
           fst (0.2, 0.9) - slack 0 (fst p)
             <= nth j (fst pr) 0 - nth j (snd pr) 0
             <= snd (0.2, 0.9) + slack 0 (fst p))
      (retained_rows 0 0 (im black_white_plot)) ys.
Proof.
  apply (top_above_bottom_by_weight (fun x => x) exp 0 black_white_plot
           (0.2, 0.9) (0, 1) (_x black_white_plot) 0).
  - exact exact_rounding.
  - exact exp_nonneg.
  - split; [reflexivity | exact black_white_plot_rows].
  - cbn. lia.
  - cbn. lia.
  - exact (length__x black_white_plot).
  - lia.
  - cbn. lra.
  - cbn. lra.
  - cbn. lra.
  - cbn. lra.
  - unfold clip_min_g, clip_max_g. cbn. lra.
Defined.

(** ** Ribbon thickness *)

(** C2, as stated, fails with a negative lower weight: on the black row
    (rescaled intensity [0]) the ribbon has thickness [0], on the white row
    (rescaled intensity [255]) it has thickness [1], which is not the lower
    weight [-1] and is thicker than the ribbon of the darker row. *)
Lemma negative_weight_thickens_light_rows :
  exists t0 b0 t1 b1,
    fst (-1, 0) < snd (-1, 0) /\
    _y black_white_plot (-1, 0) (0, 1) 0 = Ok [(t0, b0); (t1, b1)] /\
    rescale (0, 1) 0 = 0 /\
    rescale (0, 1) 255 = 255 /\
    Rabs (nth 0 b1 0 - nth 0 t1 0) <> fst (-1, 0) /\
    Rabs (nth 0 b0 0 - nth 0 t0 0) < Rabs (nth 0 b1 0 - nth 0 t1 0).
Proof.
  destruct (_y_flat_rows black_white_plot (-1, 0) (0, 1) 0
              (conj eq_refl black_white_plot_rows) ltac:(cbn; lia) ltac:(cbn; lia)
              ltac:(lia))
    as (ys & Hys & HF).
  change (retained_rows 0 0 (im black_white_plot))
    with [(0%nat, [0; 0]%Z); (1%nat, [255; 255]%Z)] in HF.
  change (w black_white_plot * inter black_white_plot)%nat with 20%nat in HF.
  inversion HF as [|p0 pr0 l0 l0' [_ H0] Hl0]; subst.
  inversion Hl0 as [|p1 pr1 l1 l1' [_ H1] Hl1]; subst.
  inversion Hl1; subst.
  destruct pr0 as [t0 b0], pr1 as [t1 b1].
  specialize (H0 0%Z ltac:(repeat constructor)).
  specialize (H1 255%Z ltac:(repeat constructor)).
  cbn [fst snd] in H0, H1. destruct H0 as [-> ->], H1 as [-> ->].
  do 4 eexists.
  split; [cbn; lra|]. split; [exact Hys|].
  rewrite !rescale_default by lra.
  split; [reflexivity|]. split; [reflexivity|].
  unfold level, y_max, y_min.
  cbn [fst snd List.repeat nth INR].
  unfold Rabs. repeat destruct Rcase_abs; split; lra.
Qed.

(** C2, amended. For weights [0 <= a < b <= 1] the thickness is a
    decreasing linear function of the rescaled intensity, [b] at [0] and [a]
    at [255].  At every sample the distance [top - bottom] lies between the
    thicknesses of the two pixels next to the boundary, and where the two
    pixels have the same rescaled intensity [r] (a flat section) the ribbon
    has thickness [|bottom - top| = thickness r], in both cases up to the
    rounding slack of the row. *)
Theorem flat_thickness_follows_intensity (rnd expf : R -> R) (u : R)
  (sp : SpeckPlot) (weights wc : R * R) (x : list R) (skip : Z) :
  rounding rnd u ->
  (forall t, 0 <= expf t) ->
  rectangular sp ->
  (2 <= w sp)%nat ->
  (1 <= inter sp)%nat ->
  length x = (w sp * inter sp)%nat ->
  (skip + 1 <> 0)%Z ->
  0 <= fst weights < snd weights ->
  snd weights <= 1 ->
  0 <= fst wc ->
  snd wc <= 1 ->
  clip_min_g rnd wc < clip_max_g rnd wc ->
  (forall r1 r2, r1 < r2 -> thickness weights r2 < thickness weights r1) /\
  thickness weights 0 = snd weights /\
  thickness weights 255 = fst weights /\
  exists ys,
    _y_g rnd expf sp weights wc x skip = Ok ys /\
    Forall2
      (fun p pr =>
         forall j, (j < w sp * inter sp)%nat ->
           let m := boundary sp j in
           let r0 := rescale_g rnd wc (IZR (nth m (snd p) 0%Z)) in
           let r1 := rescale_g rnd wc (IZR (nth (S m) (snd p) 0%Z)) in
           0 <= r0 <= 255 * (1 + 3 * u) /\
           0 <= r1 <= 255 * (1 + 3 * u) /\
           Rmin (thickness weights r0) (thickness weights r1) - slack u (fst p)
             <= nth j (fst pr) 0 - nth j (snd pr) 0
             <= Rmax (thickness weights r0) (thickness weights r1)
                + slack u (fst p) /\
           (r0 = r1 ->
            Rabs (Rabs (nth j (snd pr) 0 - nth j (fst pr) 0)
                  - thickness weights r0) <= slack u (fst p)))
      (retained_rows skip 0 (im sp)) ys.
Proof.
  intros Hr Hexp [Hh Hrows] Hw Hinter Hx Hs Hab Hb Hc Hd Hlt.
  split; [intros r1 r2 Hlt12; unfold thickness; nra|].
  split; [unfold thickness; field|].
  split; [unfold thickness; field|].
  rewrite (_y_g_closed rnd expf sp weights wc x Hw Hinter Hx skip Hrows Hs).
  eexists. split; [reflexivity|].
  apply Forall2_map_right. apply Forall_forall. intros p _ j Hj.
  cbv zeta.
  destruct (row_curves_g_nth rnd expf sp weights wc x (fst p) (snd p) j Hj)
    as [-> ->].
  pose proof (ribbon_sample_g rnd u Hr expf sp weights wc x Hexp
                ltac:(lra) ltac:(lra) Hb Hlt (fst p) (snd p) j) as H.
  cbv zeta in H. destruct H as (_ & _ & _ & Hbetween & Hflat).
  split; [apply (rescale_g_range rnd u Hr wc Hlt)|].
  split; [apply (rescale_g_range rnd u Hr wc Hlt)|].
  split; [exact Hbetween | exact Hflat].
Qed.

Lemma flat_thickness_follows_intensity_witness :
  thickness (0.2, 0.9) 0 = 0.9 /\
  thickness (0.2, 0.9) 255 = 0.2 /\
  exists ys,
    _y_g (fun x => x) exp black_white_plot (0.2, 0.9) (0, 1)
      (_x black_white_plot) 0 = Ok ys.
Proof.
  destruct (flat_thickness_follows_intensity (fun x => x) exp 0
              black_white_plot (0.2, 0.9) (0, 1) (_x black_white_plot) 0
              exact_rounding exp_nonneg
              (conj eq_refl black_white_plot_rows)
              ltac:(cbn; lia) ltac:(cbn; lia)
              (length__x black_white_plot)
              ltac:(lia)
              ltac:(cbn; lra) ltac:(cbn; lra) ltac:(cbn; lra) ltac:(cbn; lra)
              ltac:(unfold clip_min_g, clip_max_g; cbn; lra))
    as (_ & H0 & H255 & ys & Hys & _).
  split; [exact H0|]. split; [exact H255|].
  exists ys. exact Hys.
Defined.

(** ** Ribbons and the vertical extent of the image *)

Lemma add_offset_zero (y : curve) : add_offset y (Scalar 0) = Ok y.
Proof.
  unfold add_offset. f_equal.
  rewrite <- (map_id y) at 2. apply map_ext. intros v. lra.
Qed.

Lemma cycle_nth_zero_noise (sp : SpeckPlot) (j : nat) :
  (0 < h sp)%nat -> cycle_nth (_noise sp None) j = Some (Scalar 0, Scalar 0).
Proof.
  intros Hh. unfold cycle_nth, _noise.
  rewrite length_map, length_seq.
  apply (nth_error_map_seq (fun _ => (Scalar 0, Scalar 0))).
  apply Nat.mod_upper_bound. lia.
Qed.

Lemma cycle_nth_nonempty {A : Type} (l : list A) (j : nat) :
  l <> [] -> exists c, cycle_nth l j = Some c.
Proof.
  intros Hne. unfold cycle_nth.
  destruct (nth_error l (j mod length l)) as [c|] eqn:E; [exists c; reflexivity|].
  apply nth_error_None in E.
  assert (0 < length l)%nat by (destruct l; [contradiction | cbn; lia]).
  pose proof (Nat.mod_upper_bound j (length l) ltac:(lia)). lia.
Qed.

(** Without noise the loop of [draw] fills exactly the curves of [_y]. *)
Lemma fill_loop_zero_noise {C : Type} (sp : SpeckPlot) (colours : list C)
  (ys : list (curve * curve)) :
  colours <> [] ->
  (ys <> [] -> (0 < h sp)%nat) ->
  forall j, exists fills,
    fill_loop j ys (_noise sp None) colours = Ok fills /\ map fst fills = ys.
Proof.
  intros Hc. induction ys as [|[top bot] rest IH]; intros Hh j; cbn [fill_loop].
  - exists []. split; reflexivity.
  - rewrite cycle_nth_zero_noise by (apply Hh; discriminate).
    destruct (cycle_nth_nonempty colours j Hc) as [c ->].
    cbn [fst snd]. rewrite !add_offset_zero. cbn [bind].
    destruct (IH ltac:(intros _; apply Hh; discriminate) (S j)) as (fills & -> & Hf).
    cbn [bind]. eexists. split; [reflexivity|].
    cbn [map fst]. rewrite Hf. reflexivity.
Qed.


(** C5, as stated, fails: the ribbon of a white row with the
    default weights has no thickness, so the ordinate [0], which lies in
    the vertical extent [[0, h]], is in no ribbon at the first sample. *)
Lemma white_ribbon_leaves_gaps :
  exists ys fills,
    _y white_plot (0, 1) (0, 1) 0 = Ok ys /\
    fill_loop 0 ys (_noise white_plot None) ["black"%string] = Ok fills /\
    0 <= 0 <= INR (h white_plot) /\
    forall top bot col,
      In (top, bot, col) fills ->
      ~ (Rmin (nth 0 bot 0) (nth 0 top 0) <= 0 <= Rmax (nth 0 bot 0) (nth 0 top 0)).
Proof.
  destruct (_y_flat_rows white_plot (0, 1) (0, 1) 0
              (conj eq_refl white_plot_rows) ltac:(cbn; lia) ltac:(cbn; lia)
              ltac:(lia))
    as (ys & Hys & HF).
  change (retained_rows 0 0 (im white_plot)) with [(0%nat, [255; 255]%Z)] in HF.
  change (w white_plot * inter white_plot)%nat with 20%nat in HF.
  inversion HF as [|p pr l l' [_ Hp] Hl]; subst. inversion Hl; subst.
  destruct pr as [top bot].
  specialize (Hp 255%Z ltac:(repeat constructor)).
  cbn [fst snd] in Hp. destruct Hp as [-> ->].
  match type of Hys with _ = Ok ?l =>
    destruct (fill_loop_zero_noise white_plot ["black"%string] l
                ltac:(discriminate) ltac:(intros _; cbn; lia) 0%nat)
      as (fills & Hfills & Hmap)
  end.
  do 2 eexists. split; [exact Hys|]. split; [exact Hfills|].
  split; [cbn; lra|].
  intros top bot col Hin.
  apply (in_map fst) in Hin. rewrite Hmap in Hin. cbn [fst] in Hin.
  destruct Hin as [Heq | []]. injection Heq as <- <-.
  rewrite rescale_default by lra.
  unfold level, y_max, y_min. cbn [fst snd List.repeat nth INR].
  unfold Rmin, Rmax. repeat destruct Rle_dec; lra.
Qed.

Lemma _y_g_all_rows (rnd expf : R -> R) (sp : SpeckPlot) (weights wc : R * R)
  (x : list R) :
  rectangular sp -> (2 <= w sp)%nat -> (1 <= inter sp)%nat ->
  length x = (w sp * inter sp)%nat ->
  _y_g rnd expf sp weights wc x 0
  = Ok (map (fun i => row_curves_g rnd expf sp weights wc x i (nth i (im sp) []))
            (seq 0 (h sp))).
Proof.
  intros [Hh Hrows] Hw Hinter Hx.
  rewrite (_y_g_closed rnd expf sp weights wc x Hw Hinter Hx 0 Hrows) by lia.
  rewrite (retained_rows_multiples 0 (im sp)) by lia.
  change (Z.to_nat (0 + 1)) with 1%nat.
  rewrite Hh, ceil_div_one, map_map. cbn [fst snd].
  f_equal. apply map_ext. intros i. rewrite Nat.mul_1_r. reflexivity.
Qed.

(** C5, amended. With weights [0 <= a < b <= 1], no skipped row and zero
    noise, the ribbon of row [i] stays inside the band [[i, i + 1]] at every
    sample, up to the rounding slack of the row, so it lies in the vertical
    extent [[0, h]] up to that slack and the ribbons of two distinct rows
    can at most touch, up to the slack of the two rows. *)
Theorem ribbons_stay_near_their_rows {C : Type} (rnd expf : R -> R) (u : R)
  (sp : SpeckPlot) (weights wc : R * R) (x : list R) (colours : list C) :
  rounding rnd u ->
  (forall t, 0 <= expf t) ->
  rectangular sp ->
  (2 <= w sp)%nat ->
  (1 <= inter sp)%nat ->
  length x = (w sp * inter sp)%nat ->
  0 <= fst weights < snd weights ->
  snd weights <= 1 ->
  0 <= fst wc ->
  snd wc <= 1 ->
  clip_min_g rnd wc < clip_max_g rnd wc ->
  colours <> [] ->
  exists ys fills,
    _y_g rnd expf sp weights wc x 0 = Ok ys /\
    fill_loop 0 ys (_noise sp None) colours = Ok fills /\
    length fills = h sp /\
    (forall i top bot col,
       nth_error fills i = Some (top, bot, col) ->
       forall j, (j < w sp * inter sp)%nat ->
         0 <= INR i /\
         INR i - slack u i <= nth j bot 0 /\
         nth j bot 0 <= nth j top 0 + slack u i /\
         nth j top 0 <= INR i + 1 + slack u i /\
         INR i + 1 <= INR (h sp)) /\
    (forall i i' top bot col top' bot' col',
       (i < i')%nat ->
       nth_error fills i = Some (top, bot, col) ->
       nth_error fills i' = Some (top', bot', col') ->
       forall j, (j < w sp * inter sp)%nat ->
         nth j top 0 <= nth j bot' 0 + slack u i + slack u i').
Proof.
  intros Hr Hexp Hrect Hw Hinter Hx Hab Hb Hc Hd Hlt Hcol.
  pose proof (_y_g_all_rows rnd expf sp weights wc x Hrect Hw Hinter Hx) as Hys.
  set (ys := map (fun i => row_curves_g rnd expf sp weights wc x i
                             (nth i (im sp) []))
                 (seq 0 (h sp))) in *.
  assert (Hlen : length ys = h sp)
    by (unfold ys; rewrite length_map, length_seq; reflexivity).
  destruct (fill_loop_zero_noise sp colours ys Hcol
              ltac:(intros Hne; destruct ys; [contradiction | cbn in Hlen; lia])
              0%nat)
    as (fills & Hfills & Hmap).
  assert (Hband : forall i top bot col,
            nth_error fills i = Some (top, bot, col) ->
            forall j, (j < w sp * inter sp)%nat ->
              0 <= INR i /\
              INR i - slack u i <= nth j bot 0 /\
              nth j bot 0 <= nth j top 0 + slack u i /\
              nth j top 0 <= INR i + 1 + slack u i /\
              INR i + 1 <= INR (h sp)).
  { intros i top bot col Hi j Hj.
    assert (Hyi : nth_error ys i = Some (top, bot)).
    { rewrite <- Hmap, nth_error_map, Hi. reflexivity. }
    assert (Hih : (i < h sp)%nat).
    { rewrite <- Hlen. apply nth_error_Some. rewrite Hyi. discriminate. }
    unfold ys in Hyi. rewrite nth_error_map_seq in Hyi by exact Hih.
    assert (Hpr : row_curves_g rnd expf sp weights wc x i (nth i (im sp) [])
                  = (top, bot)) by congruence.
    pose proof (row_curves_g_nth rnd expf sp weights wc x i (nth i (im sp) []) j Hj)
      as [E1 E2].
    rewrite Hpr in E1, E2. cbn [fst snd] in E1, E2. rewrite E1, E2.
    pose proof (ribbon_sample_g rnd u Hr expf sp weights wc x Hexp
                  ltac:(lra) ltac:(lra) Hb Hlt i (nth i (im sp) []) j) as H.
    cbv zeta in H. destruct H as (Htop & Hbot & Hdiff & _).
    unfold y_min, y_max in Htop, Hbot.
    pose proof (pos_INR i) as Hpos.
    assert (Hle : INR i + 1 <= INR (h sp)).
    { rewrite <- S_INR. apply le_INR. lia. }
    repeat split; lra. }
  exists ys, fills. split; [exact Hys|]. split; [exact Hfills|].
  split; [rewrite <- Hlen, <- Hmap, length_map; reflexivity|].
  split; [exact Hband|].
  intros i i' top bot col top' bot' col' Hlt' Hi Hi' j Hj.
  destruct (Hband _ _ _ _ Hi j Hj) as (_ & _ & _ & Htop & _).
  destruct (Hband _ _ _ _ Hi' j Hj) as (_ & Hbot & _).
  assert (INR i + 1 <= INR i') by (rewrite <- S_INR; apply le_INR; lia).
  lra.
Qed.

Lemma ribbons_stay_near_their_rows_witness :
  exists ys fills,
    _y_g (fun x => x) exp black_white_plot (0, 1) (0, 1)
      (_x black_white_plot) 0 = Ok ys /\
    fill_loop 0 ys (_noise black_white_plot None) ["black"%string] = Ok fills /\
    length fills = h black_white_plot.
Proof.
  destruct (ribbons_stay_near_their_rows (fun x => x) exp 0 black_white_plot
              (0, 1) (0, 1) (_x black_white_plot) ["black"%string]
              exact_rounding exp_nonneg
              (conj eq_refl black_white_plot_rows)
              ltac:(cbn; lia) ltac:(cbn; lia)
              (length__x black_white_plot)
              ltac:(cbn; lra) ltac:(cbn; lra) ltac:(cbn; lra) ltac:(cbn; lra)
              ltac:(unfold clip_min_g, clip_max_g; cbn; lra)
              ltac:(discriminate))
    as (ys & fills & Hys & Hfills & Hlen & _).
  exists ys, fills. split; [exact Hys|]. split; [exact Hfills | exact Hlen].
Defined.

(** ** The caches *)

Section LruFacts.

Context {K V : Type}.
Variable K_eq_dec : forall a b : K, {a = b} + {a <> b}.

(** A call on a stored key is a hit: the stored value comes back and the
    wrapped function is not run. *)
Lemma call_hit (maxsize : nat) (f : K -> result V) (key : K)
  (c : functools.lru_cache K V) (v : V) :
  functools.lookup K_eq_dec key (functools.entries c) = Some v ->
  exists c',
    functools.call K_eq_dec maxsize f key c = (Ok v, c') /\
    functools.hits c' = S (functools.hits c) /\
    functools.misses c' = functools.misses c /\
    functools.lookup K_eq_dec key (functools.entries c') = Some v.
Proof.
  intros Hl. unfold functools.call. rewrite Hl.
  eexists. split; [reflexivity|]. cbn.
  destruct (K_eq_dec key key); [auto | contradiction].
Qed.

(** A successful call leaves its result stored. *)
Lemma call_stores (maxsize : nat) (f : K -> result V) (key : K)
  (c c' : functools.lru_cache K V) (v : V) :
  (0 < maxsize)%nat ->
  functools.call K_eq_dec maxsize f key c = (Ok v, c') ->
  functools.lookup K_eq_dec key (functools.entries c') = Some v.
Proof.
  intros Hm. unfold functools.call.
  destruct (functools.lookup K_eq_dec key (functools.entries c)) as [v0|] eqn:E.
  - intros H. injection H as <- <-. cbn.
    destruct (K_eq_dec key key); [reflexivity | contradiction].
  - destruct (f key) as [v0 | e]; intros H; [|discriminate].
    injection H as <- <-. cbn [functools.entries].
    destruct maxsize as [|n]; [lia|]. cbn.
    destruct (K_eq_dec key key); [reflexivity | contradiction].
Qed.

End LruFacts.

(** *** The calls of [_x] made by [_y] *)

Lemma y_row_g_split (sp : SpeckPlot) (weights wc : R * R) (x : list R)
  (i : nat) (pixels : list Z) :
  y_row_g (fun v => v) exp sp weights wc x i pixels
  = (pads <- y_row_pads sp weights wc pixels ;; y_row_curves sp i pads x).
Proof.
  unfold y_row_g, y_row_pads.
  change (rescale_g (fun v => v) wc) with (rescale wc).
  change (level_g (fun v => v) weights) with (level weights).
  change (fun a b : R => a - b) with Rminus.
  destruct (np.broadcast2 Rminus _ _) as [L|e]; cbn [bind]; [|reflexivity].
  destruct (repeat_head_tail (np.repeat _ _) _) as [y_offset|e]; cbn [bind];
    [|reflexivity].
  destruct (repeat_head_tail L _) as [L'|e]; cbn [bind]; [|reflexivity].
  destruct (repeat_head_tail (np.repeat (np.arange _ _) _) _) as [x0|e];
    cbn [bind]; reflexivity.
Qed.

Lemma cached_x_spec (s : self) (c : caches) :
  fst (cached_x s c) = Ok (x_value s c) /\
  functools.lookup x_key_eq_dec (fst s)
    (functools.entries (x_cache (snd (cached_x s c)))) = Some (x_value s c) /\
  y_cache (snd (cached_x s c)) = y_cache c /\
  noise_cache (snd (cached_x s c)) = noise_cache c /\
  x_calls (snd (cached_x s c)) = S (x_calls c).
Proof.
  unfold cached_x, x_value, x_calls.
  destruct (functools.call x_key_eq_dec functools.default_maxsize
              (fun _ => Ok (_x (snd s))) (fst s) (x_cache c)) as [r xc] eqn:E.
  cbn [fst snd x_cache y_cache noise_cache].
  assert (Hr : r = Ok (x_value s c) /\
               (functools.hits xc + functools.misses xc
                = S (functools.hits (x_cache c) + functools.misses (x_cache c)))%nat).
  { unfold functools.call, x_value in *.
    destruct (functools.lookup x_key_eq_dec (fst s) (functools.entries (x_cache c)));
      injection E as <- <-; cbn [functools.hits functools.misses]; split;
      try reflexivity; lia. }
  destruct Hr as [-> Hcalls].
  split; [reflexivity|].
  split.
  { fold (x_value s c).
    apply (call_stores x_key_eq_dec functools.default_maxsize
             (fun _ => Ok (_x (snd s))) (fst s) (x_cache c) xc);
      [unfold functools.default_maxsize; lia | exact E]. }
  split; [reflexivity|]. split; [reflexivity | exact Hcalls].
Qed.

Lemma x_value_of_lookup (s : self) (c : caches) (v : list R) :
  functools.lookup x_key_eq_dec (fst s) (functools.entries (x_cache c)) = Some v ->
  x_value s c = v.
Proof. intros H. unfold x_value. rewrite H. reflexivity. Qed.

Lemma y_row_cached_spec (s : self) (weights wc : R * R) (i : nat)
  (pixels : list Z) (c : caches) :
  let c' := snd (y_row_cached s weights wc i pixels c) in
  fst (y_row_cached s weights wc i pixels c)
  = y_row_g (fun v => v) exp (snd s) weights wc (x_value s c) i pixels /\
  x_value s c' = x_value s c /\
  y_cache c' = y_cache c /\
  noise_cache c' = noise_cache c /\
  (x_calls c <= x_calls c')%nat /\
  (forall curves, fst (y_row_cached s weights wc i pixels c) = Ok curves ->
     x_calls c' = S (x_calls c)).
Proof.
  cbv zeta. rewrite y_row_g_split. unfold y_row_cached.
  destruct (y_row_pads (snd s) weights wc pixels) as [pads|e]; cbn [bind fst snd].
  - destruct (cached_x_spec s c) as (Hr & Hl & Hy & Hn & Hc).
    destruct (cached_x s c) as [rx c']. cbn [fst snd] in *. subst rx.
    cbn [bind].
    split; [reflexivity|].
    split; [apply x_value_of_lookup; exact Hl|].
    split; [exact Hy|]. split; [exact Hn|].
    split; [lia | intros _ _; exact Hc].
  - split; [reflexivity|]. split; [reflexivity|]. split; [reflexivity|].
    split; [reflexivity|]. split; [lia | intros curves H; discriminate H].
Qed.

Lemma y_loop_cached_spec (s : self) (weights wc : R * R) (skip : Z)
  (rows : list (list Z)) :
  forall (i : nat) (y : list (curve * curve)) (c : caches),
    let c' := snd (y_loop_cached s weights wc skip i rows y c) in
    fst (y_loop_cached s weights wc skip i rows y c)
    = y_loop_g (fun v => v) exp (snd s) weights wc (x_value s c) skip i rows y /\
    x_value s c' = x_value s c /\
    y_cache c' = y_cache c /\
    noise_cache c' = noise_cache c /\
    (forall ys, fst (y_loop_cached s weights wc skip i rows y c) = Ok ys ->
       (length y <= length ys)%nat /\
       x_calls c' = (x_calls c + (length ys - length y))%nat).
Proof.
  induction rows as [|line rest IH]; intros i y c; cbv zeta;
    cbn [y_loop_cached y_loop_g].
  - cbn [fst snd]. repeat (split; [reflexivity|]).
    intros ys H. injection H as <-. split; lia.
  - destruct (skip + 1 =? 0)%Z.
    { cbn [fst snd]. repeat (split; [reflexivity|]). intros ys H. discriminate H. }
    destruct (Z.of_nat i mod (skip + 1) =? 0)%Z; cbn [negb]; [|apply IH].
    pose proof (y_row_cached_spec s weights wc i line c) as Hrow.
    cbv zeta in Hrow. destruct Hrow as (Hr & Hv & Hy & Hn & _ & Hc).
    destruct (y_row_cached s weights wc i line c) as [r c1]. cbn [fst snd] in *.
    rewrite <- Hr. destruct r as [curves|e]; cbn [bind].
    + specialize (IH (S i) (y ++ [curves]) c1). cbv zeta in IH.
      destruct IH as (IHr & IHv & IHy & IHn & IHc).
      rewrite Hv in IHr.
      split; [exact IHr|]. split; [congruence|]. split; [congruence|].
      split; [congruence|].
      intros ys Hys. destruct (IHc ys Hys) as [Hlen Hcalls].
      rewrite length_app in Hlen, Hcalls. cbn [length] in Hlen, Hcalls.
      rewrite (Hc curves eq_refl) in Hcalls. split; lia.
    + cbn [fst snd]. split; [reflexivity|]. split; [exact Hv|].
      split; [exact Hy|]. split; [exact Hn|]. intros ys H. discriminate H.
Qed.

Lemma _y_cached_spec (s : self) (weights wc : R * R) (skip : Z) (c : caches) :
  let c' := snd (_y_cached s weights wc skip c) in
  fst (_y_cached s weights wc skip c)
  = _y_g (fun v => v) exp (snd s) weights wc (x_value s c) skip /\
  x_value s c' = x_value s c /\
  y_cache c' = y_cache c /\
  noise_cache c' = noise_cache c /\
  (forall ys, fst (_y_cached s weights wc skip c) = Ok ys ->
     x_calls c' = (x_calls c + length ys)%nat).
Proof.
  pose proof (y_loop_cached_spec s weights wc skip (im (snd s)) 0 [] c) as H.
  cbv zeta in *. unfold _y_cached, _y_g.
  destruct H as (Hr & Hv & Hy & Hn & Hc).
  split; [exact Hr|]. split; [exact Hv|]. split; [exact Hy|]. split; [exact Hn|].
  intros ys Hys. destruct (Hc ys Hys) as [_ E]. rewrite E. cbn [length]. lia.
Qed.

Lemma cached_y_unfold (s : self) (weights wc : R * R) (skip : Z) (c : caches) :
  let key := (fst s, (weights, wc, skip)) in
  let f := fun _ : y_key =>
             _y_g (fun v => v) exp (snd s) weights wc (x_value s c) skip in
  cached_y s weights wc skip c
  = (fst (functools.call y_key_eq_dec functools.default_maxsize f key (y_cache c)),
     {| x_cache :=
          match functools.lookup y_key_eq_dec key (functools.entries (y_cache c)) with
          | Some _ => x_cache c
          | None => x_cache (snd (_y_cached s weights wc skip c))
          end;
        y_cache := snd (functools.call y_key_eq_dec functools.default_maxsize
                          f key (y_cache c));
        noise_cache := noise_cache c |}).
Proof.
  cbv zeta. unfold cached_y.
  rewrite (proj1 (_y_cached_spec s weights wc skip c)).
  destruct (functools.call _ _ _ _ _). reflexivity.
Qed.

(** A call of [_y] leaves in the cache of [_x] the array it read. *)
Lemma cached_y_x_value (s : self) (weights wc : R * R) (skip : Z) (c : caches) :
  x_value s (snd (cached_y s weights wc skip c)) = x_value s c.
Proof.
  rewrite cached_y_unfold. cbn [snd]. unfold x_value at 1. cbn [x_cache].
  destruct (functools.lookup y_key_eq_dec _ (functools.entries (y_cache c)));
    [reflexivity|].
  exact (proj1 (proj2 (_y_cached_spec s weights wc skip c))).
Qed.

Lemma x_agrees_value (s : self) (c : caches) :
  x_agrees s c <-> x_value s c = _x (snd s).
Proof.
  unfold x_agrees, x_value.
  destruct (functools.lookup x_key_eq_dec (fst s) (functools.entries (x_cache c)))
    as [v0|].
  - split; [intros H; apply H; reflexivity | intros -> v E; congruence].
  - split; [reflexivity | intros _ v E; discriminate E].
Qed.

Lemma cache_clear_named (p : string) (c : caches) :
  In p ["_x"; "_y"; "_noise"]%string ->
  exists c',
    cache_clear (Some p) c = Ok c' /\
    cached_only p c c' /\
    (p = "_x"%string -> functools.entries (x_cache c') = []) /\
    (p = "_y"%string -> functools.entries (y_cache c') = []) /\
    (p = "_noise"%string -> functools.entries (noise_cache c') = []).
Proof.
  intros [<- | [<- | [<- | []]]]; cbn [cache_clear String.eqb Ascii.eqb Bool.eqb];
    eexists; (split; [reflexivity|]); unfold cached_only; cbn;
    repeat split; intros H; try reflexivity; try discriminate H;
    exfalso; apply H; reflexivity.
Qed.

(** C8. Clearing the cache of one of ['_x'], ['_y'], ['_noise'] empties
    that cache and leaves the other two as they were: a result stored there
    before is returned by the next call as a hit, without running the
    method again. *)
Theorem cache_clear_leaves_other_caches (s : self) (weights wc : R * R)
  (skip : Z) (noise : option Noise) (p : string) (c : caches) :
  In p ["_x"; "_y"; "_noise"]%string ->
  exists c',
    cache_clear (Some p) c = Ok c' /\
    (p = "_x"%string -> functools.entries (x_cache c') = []) /\
    (p = "_y"%string -> functools.entries (y_cache c') = []) /\
    (p = "_noise"%string -> functools.entries (noise_cache c') = []) /\
    (p <> "_x"%string ->
       x_cache c' = x_cache c /\
       forall v,
         functools.lookup x_key_eq_dec (fst s) (functools.entries (x_cache c)) = Some v ->
         exists c'',
           cached_x s c' = (Ok v, c'') /\
           functools.misses (x_cache c'') = functools.misses (x_cache c) /\
           functools.hits (x_cache c'') = S (functools.hits (x_cache c))) /\
    (p <> "_y"%string ->
       y_cache c' = y_cache c /\
       forall v,
         functools.lookup y_key_eq_dec (fst s, (weights, wc, skip))
           (functools.entries (y_cache c)) = Some v ->
         exists c'',
           cached_y s weights wc skip c' = (Ok v, c'') /\
           functools.misses (y_cache c'') = functools.misses (y_cache c) /\
           functools.hits (y_cache c'') = S (functools.hits (y_cache c))) /\
    (p <> "_noise"%string ->
       noise_cache c' = noise_cache c /\
       forall v,
         functools.lookup noise_key_eq_dec (fst s, option_map noise_id noise)
           (functools.entries (noise_cache c)) = Some v ->
         exists c'',
           cached_noise s noise c' = (Ok v, c'') /\
           functools.misses (noise_cache c'') = functools.misses (noise_cache c) /\
           functools.hits (noise_cache c'') = S (functools.hits (noise_cache c))).
Proof.
  intros Hp.
  destruct (cache_clear_named p c Hp) as (c' & Hc & (Hx & Hy & Hn) & Ex & Ey & En).
  exists c'. split; [exact Hc|].
  split; [exact Ex|]. split; [exact Ey|]. split; [exact En|].
  split; [|split].
  - intros Hne. specialize (Hx Hne). split; [exact Hx|]. intros v Hl.
    unfold cached_x. rewrite Hx.
    destruct (call_hit x_key_eq_dec functools.default_maxsize
                (fun _ => Ok (_x (snd s))) (fst s) (x_cache c) v Hl)
      as (xc & -> & Hh & Hm & _).
    eexists. split; [reflexivity|]. cbn [x_cache]. split; assumption.
  - intros Hne. specialize (Hy Hne). split; [exact Hy|]. intros v Hl.
    rewrite cached_y_unfold. rewrite Hy.
    destruct (call_hit y_key_eq_dec functools.default_maxsize
                (fun _ : y_key =>
                   _y_g (fun v => v) exp (snd s) weights wc (x_value s c') skip)
                (fst s, (weights, wc, skip)) (y_cache c) v Hl)
      as (yc & -> & Hh & Hm & _).
    eexists. split; [reflexivity|]. cbn [snd y_cache]. split; assumption.
  - intros Hne. specialize (Hn Hne). split; [exact Hn|]. intros v Hl.
    unfold cached_noise. rewrite Hn.
    destruct (call_hit noise_key_eq_dec functools.default_maxsize
                (fun _ => Ok (_noise (snd s) noise))
                (fst s, option_map noise_id noise) (noise_cache c) v Hl)
      as (nc & -> & Hh & Hm & _).
    eexists. split; [reflexivity|]. cbn [noise_cache]. split; assumption.
Qed.

Lemma cache_clear_leaves_other_caches_witness :
  let s : self := (7%nat, black_white_plot) in
  exists ys c1 c2 c3,
    cached_y s (0, 1) (0, 1) 0 no_caches = (Ok ys, c1) /\
    cache_clear (Some "_x"%string) c1 = Ok c2 /\
    cached_y s (0, 1) (0, 1) 0 c2 = (Ok ys, c3) /\
    functools.misses (y_cache c3) = functools.misses (y_cache c1) /\
    functools.hits (y_cache c3) = S (functools.hits (y_cache c1)).
Proof.
  intros s.
  destruct (_y_total black_white_plot (0, 1) (0, 1) black_white_plot_rows
              ltac:(cbn; lia) ltac:(cbn; lia) 0%Z ltac:(lia)) as [ys Hys].
  destruct (cached_y s (0, 1) (0, 1) 0 no_caches) as [r c1] eqn:Hcall.
  rewrite cached_y_unfold in Hcall. cbv zeta in Hcall.
  change (x_value s no_caches) with (_x black_white_plot) in Hcall.
  change (snd s) with black_white_plot in Hcall.
  rewrite _y_g_exact in Hcall.
  destruct (functools.call y_key_eq_dec functools.default_maxsize
              (fun _ : y_key => _y black_white_plot (0, 1) (0, 1) 0)
              (fst s, ((0, 1), (0, 1), 0%Z)) (y_cache no_caches))
    as [r0 yc] eqn:E.
  cbn [fst snd] in Hcall. injection Hcall as <- <-.
  assert (Hr : r0 = Ok ys).
  { unfold functools.call in E.
    cbn [no_caches y_cache functools.empty functools.entries functools.lookup] in E.
    rewrite Hys in E. injection E as <- _. reflexivity. }
  subst r0.
  match goal with |- exists ys0 c1 c2 c3, _ = (Ok ys0, c1) /\ _ =>
    set (c1 := {| x_cache :=
                    match functools.lookup y_key_eq_dec (fst s, ((0, 1), (0, 1), 0%Z))
                            (functools.entries (y_cache no_caches)) with
                    | Some _ => x_cache no_caches
                    | None => x_cache (snd (_y_cached s (0, 1) (0, 1) 0 no_caches))
                    end;
                  y_cache := yc;
                  noise_cache := noise_cache no_caches |})
  end.
  assert (Hstored : functools.lookup y_key_eq_dec (fst s, ((0, 1), (0, 1), 0%Z))
                      (functools.entries (y_cache c1)) = Some ys).
  { cbn [c1 y_cache].
    eapply call_stores; [|exact E]. unfold functools.default_maxsize. lia. }
  destruct (cache_clear_leaves_other_caches s (0, 1) (0, 1) 0 None "_x" c1
              ltac:(left; reflexivity))
    as (c2 & Hclear & _ & _ & _ & _ & Hy & _).
  destruct (Hy ltac:(discriminate)) as [_ Hhit].
  destruct (Hhit ys Hstored) as (c3 & Hagain & Hm & Hh).
  exists ys, c1, c2, c3.
  split; [reflexivity|]. split; [exact Hclear|]. split; [exact Hagain|].
  split; [exact Hm | exact Hh].
Defined.

(** * Further properties of the code *)

(** ** The sample axis *)

Lemma nth__x (sp : SpeckPlot) (j : nat) :
  (j < w sp * inter sp)%nat ->
  nth j (_x sp) 0 = INR j * (INR (w sp) / INR (w sp * inter sp - 1)).
Proof.
  intros Hj. unfold _x, np.linspace.
  rewrite (nth_map_lt _ _ _ _ 0%nat) by (rewrite length_seq; exact Hj).
  rewrite seq_nth by exact Hj. cbn [plus]. unfold Rdiv. ring.
Qed.

(** The sample axis starts at [0], ends at [w], and its points are evenly
    spaced and increasing. *)
Theorem _x_evenly_spaced (sp : SpeckPlot) :
  (1 <= w sp)%nat ->
  (2 <= inter sp)%nat ->
  let N := (w sp * inter sp)%nat in
  let step := INR (w sp) / INR (N - 1) in
  0 < step /\
  nth 0 (_x sp) 0 = 0 /\
  nth (N - 1) (_x sp) 0 = INR (w sp) /\
  (forall j, (S j < N)%nat -> nth (S j) (_x sp) 0 = nth j (_x sp) 0 + step) /\
  (forall j, (j < N)%nat -> 0 <= nth j (_x sp) 0 <= INR (w sp)).
Proof.
  intros Hw Hinter N step.
  assert (HN : (2 <= N)%nat) by (unfold N; nia).
  assert (Hden : 0 < INR (N - 1)) by (apply lt_0_INR; lia).
  assert (Hwpos : 0 < INR (w sp)) by (apply lt_0_INR; lia).
  assert (Hstep : 0 < step) by (apply Rdiv_lt_0_compat; assumption).
  split; [exact Hstep|].
  split; [rewrite nth__x by (fold N; lia); cbn [INR]; lra|].
  split.
  { rewrite nth__x by (fold N; lia). fold N. field. lra. }
  split.
  { intros j Hj. rewrite !nth__x by (fold N; lia). fold N step.
    rewrite S_INR. ring. }
  intros j Hj. rewrite nth__x by exact Hj. fold N step.
  assert (Hj0 : 0 <= INR j) by apply pos_INR.
  assert (HjN : INR j <= INR (N - 1)) by (apply le_INR; lia).
  assert (Hweq : INR (w sp) = INR (N - 1) * step) by (unfold step; field; lra).
  rewrite Hweq. clearbody step.
  split; [apply Rmult_le_pos; lra | apply Rmult_le_compat_r; lra].
Qed.

Lemma _x_evenly_spaced_witness :
  nth 0 (_x black_white_plot) 0 = 0 /\
  nth 19 (_x black_white_plot) 0 = 2.
Proof.
  destruct (_x_evenly_spaced black_white_plot ltac:(cbn; lia) ltac:(cbn; lia))
    as (_ & H0 & Hlast & _).
  split; [exact H0|].
  change (w black_white_plot * inter black_white_plot - 1)%nat with 19%nat in Hlast.
  rewrite Hlast. cbn. lra.
Defined.

(** ** The padding *)

Lemma removelast_then_repeat {A : Type} (a : A) (l : list A) (n : nat) :
  removelast (a :: l) ++ List.repeat (last (a :: l) a) (n + 1)
  = (a :: l) ++ List.repeat (last (a :: l) a) n.
Proof.
  pose proof (@app_removelast_last A (a :: l) a ltac:(discriminate)) as H.
  remember (removelast (a :: l)) as r eqn:Hr.
  remember (last (a :: l) a) as x eqn:Hx.
  rewrite H, Nat.add_comm, <- app_assoc. reflexivity.
Qed.

(** Padding a non-empty array puts [n / 2] copies of the first element in
    front of it and the remaining [n - n / 2] copies of the last element
    behind it; an empty array cannot be padded. *)
Theorem repeat_head_tail_shape {A : Type} (a : A) (l : list A) (n : nat) :
  repeat_head_tail (a :: l) n
  = Ok (List.repeat a (n / 2) ++ (a :: l)
          ++ List.repeat (last (a :: l) a) (n - n / 2)) /\
  repeat_head_tail (@nil A) n = Raise IndexError.
Proof.
  split; [|apply repeat_head_tail_nil].
  rewrite repeat_head_tail_cons. unfold padded.
  rewrite removelast_then_repeat. reflexivity.
Qed.

(** ** The curve between two pixels *)



(** ** Strides *)

(** On an image that has rows the stride [skip = -1] is the one stride
    that makes [_y] fail, with a division by zero; an image without rows
    gives no curves whatever the stride. *)
Theorem _y_fails_only_without_stride (sp : SpeckPlot) (weights wc : R * R)
  (skip : Z) :
  rectangular sp ->
  (2 <= w sp)%nat ->
  (1 <= inter sp)%nat ->
  ((exists e, _y sp weights wc skip = Raise e) <->
   (skip = -1)%Z /\ (1 <= h sp)%nat) /\
  (forall e, _y sp weights wc skip = Raise e -> e = ZeroDivisionError) /\
  (h sp = 0%nat -> _y sp weights wc skip = Ok []).
Proof.
  intros [Hh Hrows] Hw Hinter.
  assert (Hempty : h sp = 0%nat -> _y sp weights wc skip = Ok []).
  { intros H0. unfold _y. destruct (im sp); [reflexivity|].
    cbn [length] in Hh. lia. }
  assert (Hzero : (skip = -1)%Z -> (1 <= h sp)%nat ->
                  _y sp weights wc skip = Raise ZeroDivisionError).
  { intros -> Hpos. unfold _y.
    destruct (im sp); [cbn [length] in Hh; lia | reflexivity]. }
  assert (Hraise : forall e, _y sp weights wc skip = Raise e ->
                   (skip = -1)%Z /\ (1 <= h sp)%nat).
  { intros e He.
    destruct (Z.eq_dec (skip + 1) 0) as [E | E].
    - split; [lia|].
      destruct (h sp) eqn:E0; [rewrite Hempty in He by reflexivity; discriminate | lia].
    - rewrite (_y_closed sp weights wc Hw Hinter skip Hrows E) in He. discriminate. }
  split; [split|split].
  - intros [e He]. exact (Hraise e He).
  - intros [Hs Hpos]. exists ZeroDivisionError. exact (Hzero Hs Hpos).
  - intros e He. destruct (Hraise e He) as [Hs Hpos].
    rewrite (Hzero Hs Hpos) in He. congruence.
  - exact Hempty.
Qed.

Lemma _y_fails_only_without_stride_witness :
  _y black_white_plot (0, 1) (0, 1) (-1) = Raise ZeroDivisionError.
Proof.
  destruct (_y_fails_only_without_stride black_white_plot (0, 1) (0, 1) (-1)
              (conj eq_refl black_white_plot_rows)
              ltac:(cbn; lia) ltac:(cbn; lia)) as ([_ Hback] & Honly & _).
  assert (Hpos : (1 <= h black_white_plot)%nat) by (cbn; lia).
  destruct (Hback (conj eq_refl Hpos)) as [e He].
  rewrite He. f_equal. exact (Honly e He).
Defined.

Lemma mod_opp_zero (a b : Z) : ((a mod (- b) =? 0) = (a mod b =? 0))%Z.
Proof.
  destruct (Z.eq_dec b 0) as [-> | Hb]; [reflexivity|].
  destruct (Z.eq_dec (a mod b) 0) as [E | E].
  - rewrite (Z_mod_zero_opp_r a b E), E. reflexivity.
  - rewrite (Z_mod_nz_opp_r a b E).
    rewrite (proj2 (Z.eqb_neq (a mod b) 0) E).
    apply Z.eqb_neq.
    pose proof (Z.mod_bound_or a b Hb). lia.
Qed.

(** A negative stride selects rows by the same divisibility test as its
    positive counterpart: [skip] and [-skip - 2] give the same result, so
    [skip = -2] keeps every row like [skip = 0]. *)
Theorem negative_skip_mirrors_positive (sp : SpeckPlot) (weights wc : R * R)
  (skip : Z) :
  _y sp weights wc (- skip - 2) = _y sp weights wc skip.
Proof.
  unfold _y. generalize (@nil (curve * curve)) as acc. generalize 0%nat as i.
  induction (im sp) as [|line rest IH]; intros i acc; cbn [y_loop]; [reflexivity|].
  replace (- skip - 2 + 1)%Z with (- (skip + 1))%Z by lia.
  rewrite mod_opp_zero.
  replace (- (skip + 1) =? 0)%Z with (skip + 1 =? 0)%Z
    by (destruct (Z.eqb_spec (skip + 1) 0), (Z.eqb_spec (- (skip + 1)) 0);
        try reflexivity; lia).
  destruct (skip + 1 =? 0)%Z; [reflexivity|].
  replace (- (skip + 1))%Z with (- skip - 2 + 1)%Z by lia.
  destruct (Z.of_nat i mod (skip + 1) =? 0)%Z; cbn [negb]; [|apply IH].
  destruct (y_row sp weights wc i line); cbn [bind]; [apply IH | reflexivity].
Qed.

(** ** Equal rows *)




(** ** Constructed plots *)

(** A plot constructed from an array with rows of one length, at least two
    pixels wide, satisfies what [_y] needs: for every stride but [-1] the
    curves are computed, one pair of [w * max(upscale, 10)] samples for
    each retained row. *)
Theorem constructed_plot_draws (pixels : list (list Z)) (upscale : Z)
  (weights wc : R * R) (skip : Z) (width : nat) :
  Forall (fun line => length line = width) pixels ->
  (2 <= width)%nat ->
  pixels <> [] ->
  (skip + 1 <> 0)%Z ->
  let sp := __init__ pixels upscale in
  rectangular sp /\ w sp = width /\ h sp = length pixels /\ k sp = 10%Z /\
  exists ys,
    _y sp weights wc skip = Ok ys /\
    length ys = length (retained_rows skip 0 pixels) /\
    Forall (fun pr =>
              length (fst pr) = (width * Z.to_nat (Z.max upscale 10))%nat /\
              length (snd pr) = (width * Z.to_nat (Z.max upscale 10))%nat) ys.
Proof.
  intros Hrows Hwidth Hne Hs sp.
  assert (Hw : w sp = width).
  { destruct pixels as [|line rest]; [contradiction|].
    inversion Hrows; subst. reflexivity. }
  assert (Hinter : inter sp = Z.to_nat (Z.max upscale 10)).
  { cbn [sp inter __init__]. destruct (Z.leb_spec 10 upscale); f_equal; lia. }
  assert (Hrect : rectangular sp) by (split; [reflexivity | rewrite Hw; exact Hrows]).
  split; [exact Hrect|]. split; [exact Hw|].
  split; [reflexivity|]. split; [reflexivity|].
  rewrite (_y_closed sp weights wc ltac:(lia) ltac:(lia) skip (proj2 Hrect) Hs).
  eexists. split; [reflexivity|].
  split; [rewrite length_map; reflexivity|].
  apply Forall_forall. intros pr Hin.
  apply in_map_iff in Hin. destruct Hin as (p & <- & _).
  rewrite <- Hw, <- Hinter. apply row_curves_lengths.
Qed.

Lemma constructed_plot_draws_witness :
  exists ys,
    _y (__init__ [[0; 0]; [255; 255]]%Z 3) (0, 1) (0, 1) 0 = Ok ys /\
    length ys = 2%nat.
Proof.
  destruct (constructed_plot_draws [[0; 0]; [255; 255]]%Z 3 (0, 1) (0, 1) 0 2
              ltac:(repeat constructor) ltac:(lia) ltac:(discriminate) ltac:(lia))
    as (_ & _ & _ & _ & ys & Hys & Hlen & _).
  exists ys. split; [exact Hys | exact Hlen].
Defined.

(** ** The loop of [draw] *)

Lemma fill_loop_nothing {C : Type} (j : nat) (y : list (curve * curve))
  (n : NoiseData) (c : list C) :
  n = [] \/ c = [] -> fill_loop j y n c = Ok [].
Proof.
  intros Hempty. destruct y as [|y_ rest]; [reflexivity|]. cbn [fill_loop].
  destruct Hempty as [-> | ->].
  - unfold cycle_nth at 1. cbn [length]. destruct (j mod 0)%nat; reflexivity.
  - destruct (cycle_nth n j); [|reflexivity].
    unfold cycle_nth. cbn [length]. destruct (j mod 0)%nat; reflexivity.
Qed.

Lemma fill_loop_entries {C : Type} (y : list (curve * curve))
  (n : NoiseData) (c : list C) :
  n <> [] -> c <> [] ->
  forall j fills,
    fill_loop j y n c = Ok fills ->
    length fills = length y /\
    forall q top bot col,
      nth_error fills q = Some (top, bot, col) ->
      exists y_ n_,
        nth_error y q = Some y_ /\
        nth_error n ((j + q) mod length n) = Some n_ /\
        nth_error c ((j + q) mod length c) = Some col /\
        add_offset (fst y_) (fst n_) = Ok top /\
        add_offset (snd y_) (snd n_) = Ok bot.
Proof.
  intros Hn Hc. induction y as [|y_ rest IH]; intros j fills H; cbn [fill_loop] in H.
  - injection H as <-. split; [reflexivity|].
    intros q top bot col Hq. destruct q; discriminate.
  - destruct (cycle_nth_nonempty n j Hn) as [n_ En].
    destruct (cycle_nth_nonempty c j Hc) as [c_ Ec].
    rewrite En, Ec in H.
    apply bind_Ok_inv in H. destruct H as (top0 & Htop & H).
    apply bind_Ok_inv in H. destruct H as (bot0 & Hbot & H).
    apply bind_Ok_inv in H. destruct H as (filled & Hrest & H).
    injection H as <-.
    destruct (IH _ _ Hrest) as [Hlen Hnth].
    split; [cbn [length]; rewrite Hlen; reflexivity|].
    intros q top bot col Hq. destruct q as [|q]; cbn [nth_error] in Hq.
    + injection Hq as <- <- <-. exists y_, n_.
      rewrite Nat.add_0_r. unfold cycle_nth in En, Ec.
      repeat split; assumption.
    + destruct (Hnth q top bot col Hq) as (y' & n' & Hy & Hn' & Hc' & Ht & Hb).
      exists y', n'. replace (j + S q)%nat with (S j + q)%nat by lia.
      repeat split; assumption.
Qed.

(** The ribbons are the curves zipped with the cycled noise pairs and the
    cycled colours: ribbon [q] is curve pair [q] moved by noise pair
    [q mod len(n)] and filled with colour [q mod len(c)]; when there is no
    noise pair or no colour nothing is filled. *)
Theorem fill_loop_cycles {C : Type} (y : list (curve * curve))
  (n : NoiseData) (c : list C) (fills : list (curve * curve * C)) :
  fill_loop 0 y n c = Ok fills ->
  (n = [] \/ c = [] -> fills = []) /\
  (n <> [] -> c <> [] ->
     length fills = length y /\
     forall q top bot col,
       nth_error fills q = Some (top, bot, col) ->
       exists y_ n_,
         nth_error y q = Some y_ /\
         nth_error n (q mod length n) = Some n_ /\
         nth_error c (q mod length c) = Some col /\
         add_offset (fst y_) (fst n_) = Ok top /\
         add_offset (snd y_) (snd n_) = Ok bot).
Proof.
  intros H. split.
  - intros Hempty. rewrite (fill_loop_nothing 0 y n c Hempty) in H.
    injection H as <-. reflexivity.
  - intros Hn Hc. exact (fill_loop_entries y n c Hn Hc 0%nat fills H).
Qed.

Lemma fill_loop_cycles_witness :
  let y := [([1; 2], [0; 1]); ([3; 4], [2; 3]); ([5; 6], [4; 5])] in
  let n := [(Scalar 0, Scalar 0)] in
  exists fills,
    fill_loop 0 y n ["red"; "blue"]%string = Ok fills /\
    length fills = 3%nat.
Proof.
  intros y n.
  destruct (fill_loop_zero_noise (__init__ [[0; 0]]%Z 10) ["red"; "blue"]%string y
              ltac:(discriminate) ltac:(intros _; cbn; lia) 0%nat)
    as (fills & Hfills & _).
  change (_noise (__init__ [[0; 0]]%Z 10) None) with n in Hfills.
  exists fills. split; [exact Hfills|].
  destruct (fill_loop_cycles y n ["red"; "blue"]%string fills Hfills) as [_ Hcyc].
  exact (proj1 (Hcyc ltac:(discriminate) ltac:(discriminate))).
Defined.

(** ** Memoisation *)

Section LruAgreement.

Context {K V : Type}.
Variable K_eq_dec : forall a b : K, {a = b} + {a <> b}.

Lemma lookup_firstn (key : K) (n : nat) (l : list (K * V)) (v : V) :
  functools.lookup K_eq_dec key (firstn n l) = Some v ->
  functools.lookup K_eq_dec key l = Some v.
Proof.
  revert n. induction l as [|[key' v'] l IH]; intros n H.
  - rewrite firstn_nil in H. discriminate.
  - destruct n as [|n]; [discriminate|].
    cbn [firstn functools.lookup] in *.
    destruct (K_eq_dec key key'); [exact H | exact (IH n H)].
Qed.

Lemma lookup_remove (key key' : K) (l : list (K * V)) (v : V) :
  functools.lookup K_eq_dec key' (functools.remove K_eq_dec key l) = Some v ->
  functools.lookup K_eq_dec key' l = Some v.
Proof.
  induction l as [|[k0 v0] l IH]; intros H; [discriminate|].
  cbn [functools.remove functools.lookup] in *.
  destruct (K_eq_dec key k0) as [-> | Hne].
  - destruct (K_eq_dec key' k0) as [-> | Hne'].
    + exfalso. clear IH. induction l as [|[k1 v1] l IHl]; [discriminate|].
      cbn [functools.remove functools.lookup] in H.
      destruct (K_eq_dec k0 k1) as [-> | Hne1]; [exact (IHl H)|].
      cbn [functools.lookup] in H.
      destruct (K_eq_dec k0 k1); [contradiction | exact (IHl H)].
    + exact (IH H).
  - cbn [functools.lookup] in H.
    destruct (K_eq_dec key' k0); [exact H | exact (IH H)].
Qed.

(** When the stored entries of the keys in [P] hold what [f] returns, a
    call on such a key returns what [f] returns and keeps it so. *)
Lemma call_agrees (P : K -> Prop) (maxsize : nat) (f : K -> result V)
  (key : K) (c : functools.lru_cache K V) :
  (forall k v, P k -> functools.lookup K_eq_dec k (functools.entries c) = Some v ->
               f k = Ok v) ->
  P key ->
  fst (functools.call K_eq_dec maxsize f key c) = f key /\
  (forall k v, P k ->
     functools.lookup K_eq_dec k
       (functools.entries (snd (functools.call K_eq_dec maxsize f key c))) = Some v ->
     f k = Ok v).
Proof.
  intros Hagree Hkey. unfold functools.call.
  destruct (functools.lookup K_eq_dec key (functools.entries c)) as [v0|] eqn:E.
  - cbn [fst snd functools.entries]. split; [symmetry; exact (Hagree _ _ Hkey E)|].
    intros k v Hk H. cbn [functools.lookup] in H.
    destruct (K_eq_dec k key) as [-> | Hne].
    + injection H as <-. exact (Hagree _ _ Hkey E).
    + exact (Hagree _ _ Hk (lookup_remove _ _ _ _ H)).
  - destruct (f key) as [v0 | e] eqn:Ef; cbn [fst snd functools.entries].
    + split; [reflexivity|]. intros k v Hk H.
      apply lookup_firstn in H. cbn [functools.lookup] in H.
      destruct (K_eq_dec k key) as [-> | Hne].
      * injection H as <-. exact Ef.
      * exact (Hagree _ _ Hk H).
    + split; [reflexivity|]. exact Hagree.
Qed.

(** A call runs the wrapped function on its key only. *)
Lemma call_ext (maxsize : nat) (f g : K -> result V) (key : K)
  (c : functools.lru_cache K V) :
  f key = g key ->
  functools.call K_eq_dec maxsize f key c = functools.call K_eq_dec maxsize g key c.
Proof.
  intros H. unfold functools.call. rewrite H. reflexivity.
Qed.

(** A call repeated on a cache with the same entries gives the same
    result. *)
Lemma call_again (maxsize : nat) (f : K -> result V) (key : K)
  (c c0 : functools.lru_cache K V) :
  (0 < maxsize)%nat ->
  functools.entries c0
  = functools.entries (snd (functools.call K_eq_dec maxsize f key c)) ->
  fst (functools.call K_eq_dec maxsize f key c0)
  = fst (functools.call K_eq_dec maxsize f key c).
Proof.
  intros Hm He.
  destruct (functools.call K_eq_dec maxsize f key c) as [r c'] eqn:Ecall.
  cbn [fst snd] in *.
  destruct r as [v | e].
  - pose proof (call_stores K_eq_dec maxsize f key c c' v Hm Ecall) as Hst.
    rewrite <- He in Hst.
    destruct (call_hit K_eq_dec maxsize f key c0 v Hst) as (c'' & -> & _).
    reflexivity.
  - unfold functools.call in Ecall.
    destruct (functools.lookup K_eq_dec key (functools.entries c)) eqn:El;
      [discriminate|].
    destruct (f key) as [v | e'] eqn:Ef; [discriminate|].
    injection Ecall as -> <-. cbn [functools.entries] in He.
    unfold functools.call. rewrite He, El, Ef. reflexivity.
Qed.

End LruAgreement.

Lemma cached_x_unfold (s : self) (c : caches) :
  cached_x s c
  = (fst (functools.call x_key_eq_dec functools.default_maxsize
            (fun _ => Ok (_x (snd s))) (fst s) (x_cache c)),
     {| x_cache := snd (functools.call x_key_eq_dec functools.default_maxsize
                          (fun _ => Ok (_x (snd s))) (fst s) (x_cache c));
        y_cache := y_cache c;
        noise_cache := noise_cache c |}).
Proof. unfold cached_x. destruct (functools.call _ _ _ _ _). reflexivity. Qed.

Lemma cached_noise_unfold (s : self) (noise : option Noise) (c : caches) :
  cached_noise s noise c
  = (fst (functools.call noise_key_eq_dec functools.default_maxsize
            (fun _ => Ok (_noise (snd s) noise))
            (fst s, option_map noise_id noise) (noise_cache c)),
     {| x_cache := x_cache c;
        y_cache := y_cache c;
        noise_cache := snd (functools.call noise_key_eq_dec functools.default_maxsize
                              (fun _ => Ok (_noise (snd s) noise))
                              (fst s, option_map noise_id noise) (noise_cache c)) |}).
Proof. unfold cached_noise. destruct (functools.call _ _ _ _ _). reflexivity. Qed.

Lemma cached_x_agrees (s : self) (c : caches) :
  x_agrees s c ->
  fst (cached_x s c) = Ok (_x (snd s)) /\ x_agrees s (snd (cached_x s c)).
Proof.
  intros Hx. rewrite cached_x_unfold. cbn [fst snd].
  destruct (call_agrees x_key_eq_dec (fun k => k = fst s)
              functools.default_maxsize (fun _ => Ok (_x (snd s))) (fst s) (x_cache c))
    as [Hr Hkeep].
  - intros k v -> Hl. f_equal. symmetry. exact (Hx v Hl).
  - reflexivity.
  - split; [exact Hr|]. intros v Hl. cbn [x_cache] in Hl.
    specialize (Hkeep (fst s) v eq_refl Hl). congruence.
Qed.

Lemma cached_y_agrees (s : self) (weights wc : R * R) (skip : Z) (c : caches) :
  x_agrees s c ->
  y_agrees s c ->
  fst (cached_y s weights wc skip c) = _y (snd s) weights wc skip /\
  x_agrees s (snd (cached_y s weights wc skip c)) /\
  y_agrees s (snd (cached_y s weights wc skip c)) /\
  noise_cache (snd (cached_y s weights wc skip c)) = noise_cache c.
Proof.
  intros Hx Hy.
  assert (Hxa : x_agrees s (snd (cached_y s weights wc skip c))).
  { apply x_agrees_value. rewrite cached_y_x_value. apply x_agrees_value. exact Hx. }
  split; [|split; [exact Hxa|]].
  - rewrite cached_y_unfold. cbv zeta. cbn [fst].
    rewrite (proj1 (x_agrees_value s c) Hx), _y_g_exact.
    destruct (call_agrees y_key_eq_dec (fun k => k = (fst s, (weights, wc, skip)))
                functools.default_maxsize
                (fun _ : y_key => _y (snd s) weights wc skip)
                (fst s, (weights, wc, skip)) (y_cache c))
      as [Hr _]; [|reflexivity|exact Hr].
    intros k v -> Hl. exact (Hy weights wc skip v Hl).
  - rewrite cached_y_unfold. cbv zeta. cbn [snd y_cache noise_cache].
    split; [|reflexivity].
    rewrite (proj1 (x_agrees_value s c) Hx), _y_g_exact.
    rewrite (call_ext y_key_eq_dec functools.default_maxsize
               (fun _ : y_key => _y (snd s) weights wc skip)
               (fun k : y_key => _y (snd s) (fst (fst (snd k))) (snd (fst (snd k)))
                                    (snd (snd k)))
               (fst s, (weights, wc, skip)) (y_cache c) eq_refl).
    destruct (call_agrees y_key_eq_dec (fun k => fst k = fst s)
                functools.default_maxsize
                (fun k : y_key => _y (snd s) (fst (fst (snd k))) (snd (fst (snd k)))
                                     (snd (snd k)))
                (fst s, (weights, wc, skip)) (y_cache c))
      as [_ Hkeep].
    + intros [id [[wt wcl] sk]] v Hid Hl. cbn [fst snd] in *. subst id.
      exact (Hy wt wcl sk v Hl).
    + reflexivity.
    + intros wt wcl sk v Hl.
      exact (Hkeep (fst s, (wt, wcl, sk)) v eq_refl Hl).
Qed.

Lemma cached_noise_agrees (s : self) (noise : option Noise) (c : caches) :
  noise_agrees s noise c ->
  fst (cached_noise s noise c) = Ok (_noise (snd s) noise) /\
  noise_agrees s noise (snd (cached_noise s noise c)).
Proof.
  intros Hn. rewrite cached_noise_unfold. cbn [fst snd].
  destruct (call_agrees noise_key_eq_dec
              (fun k => k = (fst s, option_map noise_id noise))
              functools.default_maxsize (fun _ => Ok (_noise (snd s) noise))
              (fst s, option_map noise_id noise) (noise_cache c))
    as [Hr Hkeep].
  - intros k v -> Hl. f_equal. symmetry. exact (Hn v Hl).
  - reflexivity.
  - split; [exact Hr|]. intros v Hl. cbn [noise_cache] in Hl.
    specialize (Hkeep _ v eq_refl Hl). congruence.
Qed.

(** Memoisation does not change results: as long as the entries stored for
    an object hold what its methods compute, a call of [_y] through the
    cache returns what the method computes, hit or miss, and the entries
    keep holding it.  The call leaves the cache of [_noise] alone.  On a
    hit it leaves the cache of [_x] alone too; on a miss that returns, the
    cache of [_x] has counted one call for every pair of curves. *)
Theorem memoised_y_is_y (s : self) (weights wc : R * R) (skip : Z) (c : caches) :
  x_agrees s c ->
  y_agrees s c ->
  let after := snd (cached_y s weights wc skip c) in
  fst (cached_y s weights wc skip c) = _y (snd s) weights wc skip /\
  x_agrees s after /\
  y_agrees s after /\
  noise_cache after = noise_cache c /\
  (forall v,
     functools.lookup y_key_eq_dec (fst s, (weights, wc, skip))
       (functools.entries (y_cache c)) = Some v ->
     x_cache after = x_cache c) /\
  (forall ys,
     functools.lookup y_key_eq_dec (fst s, (weights, wc, skip))
       (functools.entries (y_cache c)) = None ->
     _y (snd s) weights wc skip = Ok ys ->
     x_calls after = (x_calls c + length ys)%nat).
Proof.
  intros Hx Hy after.
  destruct (cached_y_agrees s weights wc skip c Hx Hy) as (Hr & Hxa & Hya & Hn).
  split; [exact Hr|]. split; [exact Hxa|]. split; [exact Hya|].
  split; [exact Hn|].
  subst after. rewrite cached_y_unfold. cbv zeta. cbn [snd x_cache].
  split.
  - intros v Hl. rewrite Hl. reflexivity.
  - intros ys Hl Hys. rewrite Hl. unfold x_calls at 1. cbn [x_cache].
    apply (proj2 (proj2 (proj2 (proj2 (_y_cached_spec s weights wc skip c))))).
    rewrite (proj1 (_y_cached_spec s weights wc skip c)).
    rewrite (proj1 (x_agrees_value s c) Hx), _y_g_exact. exact Hys.
Qed.

Lemma no_caches_agree (s : self) (noise : option Noise) :
  x_agrees s no_caches /\ y_agrees s no_caches /\ noise_agrees s noise no_caches.
Proof.
  unfold x_agrees, y_agrees, noise_agrees.
  repeat split; intros;
    match goal with H : _ = Some _ |- _ => discriminate H end.
Qed.

Lemma memoised_y_is_y_witness :
  let s : self := (7%nat, black_white_plot) in
  fst (cached_y s (0, 1) (0, 1) 0 no_caches) = _y black_white_plot (0, 1) (0, 1) 0.
Proof.
  intros s.
  exact (proj1 (memoised_y_is_y s (0, 1) (0, 1) 0 no_caches
                  (proj1 (no_caches_agree s None))
                  (proj1 (proj2 (no_caches_agree s None))))).
Defined.

(** After [set_k] every cache is empty, so the next call of [_y] on the
    object computes the curves with the new growth rate instead of
    returning curves stored under the old one. *)
Theorem set_k_recomputes (s : self) (k' : Z) (weights wc : R * R) (skip : Z)
  (c : caches) :
  let sp' := fst (set_k (snd s) k' c) in
  exists c',
    snd (set_k (snd s) k' c) = Ok c' /\
    k sp' = k' /\ im sp' = im (snd s) /\ h sp' = h (snd s) /\
    w sp' = w (snd s) /\ inter sp' = inter (snd s) /\
    functools.entries (x_cache c') = [] /\
    functools.entries (y_cache c') = [] /\
    functools.entries (noise_cache c') = [] /\
    fst (cached_y (fst s, sp') weights wc skip c') = _y sp' weights wc skip.
Proof.
  intros sp'. eexists. split; [reflexivity|].
  repeat (split; [reflexivity|]).
  apply cached_y_agrees.
  - intros v H. discriminate H.
  - intros wt wcl sk v H. discriminate H.
Qed.

(** ** Drawing *)

Section DrawFacts.

Context {C : Type}.
Variable s : self.
Variables weights wc : R * R.
Variable noise : option Noise.
Variable skip : Z.

Lemma draw_unfold (colour : colour_arg C)
  (modifiers : option (list (Modifier C))) (c : caches) :
  let c1 := snd (cached_x s c) in
  let c2 := snd (cached_y s weights wc skip c1) in
  let c3 := snd (cached_noise s noise c2) in
  draw s weights wc noise colour skip modifiers c
  = match fst (cached_x s c) with
    | Raise e => (Raise e, c1)
    | Ok x =>
        match fst (cached_y s weights wc skip c1) with
        | Raise e => (Raise e, c2)
        | Ok y =>
            match fst (cached_noise s noise c2) with
            | Raise e => (Raise e, c3)
            | Ok n => (finish_draw s colour modifiers x y n, c3)
            end
        end
    end.
Proof.
  cbv zeta. unfold draw.
  destruct (cached_x s c) as [rx c1]. cbn [fst snd].
  destruct rx as [x | e]; [|reflexivity].
  destruct (cached_y s weights wc skip c1) as [ry c2]. cbn [fst snd].
  destruct ry as [y | e]; [|reflexivity].
  destruct (cached_noise s noise c2) as [rn c3]. cbn [fst snd].
  destruct rn as [n | e]; reflexivity.
Qed.

Lemma cached_x_again (c c0 : caches) :
  x_cache c0 = x_cache (snd (cached_x s c)) ->
  fst (cached_x s c0) = fst (cached_x s c).
Proof.
  rewrite !cached_x_unfold. cbn [fst snd x_cache]. intros E.
  apply call_again; [unfold functools.default_maxsize; lia|].
  rewrite E. reflexivity.
Qed.

Lemma cached_y_again (c c0 : caches) :
  y_cache c0 = y_cache (snd (cached_y s weights wc skip c)) ->
  x_value s c0 = x_value s c ->
  fst (cached_y s weights wc skip c0) = fst (cached_y s weights wc skip c).
Proof.
  rewrite !cached_y_unfold. cbv zeta. cbn [fst snd y_cache]. intros E Ex.
  rewrite Ex.
  apply call_again; [unfold functools.default_maxsize; lia|].
  rewrite E. reflexivity.
Qed.

Lemma cached_noise_again (c c0 : caches) :
  noise_cache c0 = noise_cache (snd (cached_noise s noise c)) ->
  fst (cached_noise s noise c0) = fst (cached_noise s noise c).
Proof.
  rewrite !cached_noise_unfold. cbn [fst snd noise_cache]. intros E.
  apply call_again; [unfold functools.default_maxsize; lia|].
  rewrite E. reflexivity.
Qed.

Lemma cached_x_frame (c : caches) :
  y_cache (snd (cached_x s c)) = y_cache c /\
  noise_cache (snd (cached_x s c)) = noise_cache c.
Proof. rewrite cached_x_unfold. split; reflexivity. Qed.

Lemma cached_y_frame (c : caches) :
  x_value s (snd (cached_y s weights wc skip c)) = x_value s c /\
  noise_cache (snd (cached_y s weights wc skip c)) = noise_cache c.
Proof.
  split; [apply cached_y_x_value|].
  rewrite cached_y_unfold. reflexivity.
Qed.

Lemma cached_x_x_value (c : caches) : x_value s (snd (cached_x s c)) = x_value s c.
Proof.
  apply x_value_of_lookup. exact (proj1 (proj2 (cached_x_spec s c))).
Qed.

Lemma cached_noise_frame (c : caches) :
  x_cache (snd (cached_noise s noise c)) = x_cache c /\
  y_cache (snd (cached_noise s noise c)) = y_cache c.
Proof. rewrite cached_noise_unfold. split; reflexivity. Qed.

(** Drawing a second time with the same arguments gives the same result
    as the first time, whatever the caches held before, when the colour
    is a colour name and there is no modifier: the sample axis, the curves
    and the noise of the second call are the ones the first call left in
    the caches. *)
Theorem draw_again_same (name : C) (c : caches) :
  fst (draw s weights wc noise (ColourName name) skip None
         (snd (draw s weights wc noise (ColourName name) skip None c)))
  = fst (draw s weights wc noise (ColourName name) skip None c).
Proof.
  set (c1 := snd (cached_x s c)).
  set (c2 := snd (cached_y s weights wc skip c1)).
  set (c3 := snd (cached_noise s noise c2)).
  assert (Hx : forall c0, x_value s c0 = x_value s c ->
                 fst (cached_x s c0) = fst (cached_x s c)).
  { intros c0 E.
    rewrite (proj1 (cached_x_spec s c0)), (proj1 (cached_x_spec s c)), E.
    reflexivity. }
  assert (Hy : forall c0, y_cache c0 = y_cache c2 ->
                 x_value s c0 = x_value s c ->
                 fst (cached_y s weights wc skip (snd (cached_x s c0)))
                 = fst (cached_y s weights wc skip c1)).
  { intros c0 E Ev. apply cached_y_again.
    - rewrite (proj1 (cached_x_frame c0)). exact E.
    - unfold c1. rewrite !cached_x_x_value. exact Ev. }
  assert (Hn : forall c0, noise_cache c0 = noise_cache c3 ->
                 fst (cached_noise s noise
                        (snd (cached_y s weights wc skip (snd (cached_x s c0)))))
                 = fst (cached_noise s noise c2)).
  { intros c0 E. apply cached_noise_again.
    rewrite (proj2 (cached_y_frame (snd (cached_x s c0)))).
    rewrite (proj2 (cached_x_frame c0)). exact E. }
  pose proof (cached_y_frame c1) as [Fy1 Fy2].
  pose proof (cached_noise_frame c2) as [Fn1 Fn2].
  fold c2 in Fy1, Fy2. fold c3 in Fn1, Fn2.
  assert (V1 : x_value s c1 = x_value s c) by apply cached_x_x_value.
  assert (V3 : x_value s c3 = x_value s c2) by (unfold x_value; rewrite Fn1; reflexivity).
  rewrite (draw_unfold (ColourName name) None c). cbv zeta. fold c1 c2 c3.
  destruct (fst (cached_x s c)) as [x | e] eqn:Ex; cbn [fst snd].
  - destruct (fst (cached_y s weights wc skip c1)) as [y | e] eqn:Ey; cbn [fst snd].
    + destruct (fst (cached_noise s noise c2)) as [n | e] eqn:En; cbn [fst snd].
      * rewrite (draw_unfold (ColourName name) None c3). cbv zeta.
        rewrite (Hx c3) by congruence. rewrite ?Ex.
        rewrite (Hy c3) by congruence. rewrite ?Ey.
        rewrite (Hn c3) by reflexivity. rewrite ?En. reflexivity.
      * rewrite (draw_unfold (ColourName name) None c3). cbv zeta.
        rewrite (Hx c3) by congruence. rewrite ?Ex.
        rewrite (Hy c3) by congruence. rewrite ?Ey.
        rewrite (Hn c3) by reflexivity. rewrite ?En. reflexivity.
    + rewrite (draw_unfold (ColourName name) None c2). cbv zeta.
      rewrite (Hx c2) by congruence. rewrite ?Ex.
      rewrite (Hy c2) by congruence. rewrite ?Ey. reflexivity.
  - rewrite (draw_unfold (ColourName name) None c1). cbv zeta.
    rewrite (Hx c1) by congruence. rewrite ?Ex. reflexivity.
Qed.

End DrawFacts.

Lemma _y_without_rows (sp : SpeckPlot) (weights wc : R * R) (skip : Z)
  (ys : list (curve * curve)) :
  rectangular sp -> _y sp weights wc skip = Ok ys -> ys <> [] -> (0 < h sp)%nat.
Proof.
  intros [Hh _] Hys Hne.
  destruct (h sp) eqn:E; [|lia].
  unfold _y in Hys. destruct (im sp); [|cbn [length] in Hh; lia].
  cbn [y_loop] in Hys. injection Hys as <-. contradiction.
Qed.

(** With the default noise, one colour name and no modifier, [draw] on an
    image that [_y] accepts hands to [fill_between] the sample axis of the
    object and exactly the curve pairs of [_y], unmoved and all in that
    colour, provided the caches hold what the methods compute; after the
    call they still do. *)
Theorem draw_defaults_fill_the_curves {C : Type} (s : self) (weights wc : R * R)
  (skip : Z) (name : C) (c : caches) :
  rectangular (snd s) ->
  (2 <= w (snd s))%nat ->
  (1 <= inter (snd s))%nat ->
  (skip + 1 <> 0)%Z ->
  x_agrees s c -> y_agrees s c -> noise_agrees s None c ->
  let after := snd (draw s weights wc None (ColourName name) skip None c) in
  exists ys fills,
    _y (snd s) weights wc skip = Ok ys /\
    fst (draw s weights wc None (ColourName name) skip None c)
    = Ok (_x (snd s), fills) /\
    map fst fills = ys /\
    Forall (fun ribbon => snd ribbon = name) fills /\
    x_agrees s after /\ y_agrees s after /\ noise_agrees s None after.
Proof.
  intros Hrect Hw Hinter Hs Hx Hy Hn after.
  destruct (_y_total (snd s) weights wc (proj2 Hrect) Hw Hinter skip Hs) as [ys Hys].
  set (c1 := snd (cached_x s c)).
  set (c2 := snd (cached_y s weights wc skip c1)).
  set (c3 := snd (cached_noise s None c2)).
  destruct (cached_x_agrees s c Hx) as [Rx Ax]. fold c1 in Ax.
  pose proof (cached_x_frame s c) as [Fx1 Fx2]. fold c1 in Fx1, Fx2.
  assert (Ay1 : y_agrees s c1) by (unfold y_agrees; rewrite Fx1; exact Hy).
  destruct (cached_y_agrees s weights wc skip c1 Ax Ay1) as (Ry & Ax2 & Ay & Fy2).
  fold c2 in Ax2, Ay, Fy2.
  assert (An2 : noise_agrees s None c2)
    by (unfold noise_agrees; rewrite Fy2, Fx2; exact Hn).
  destruct (cached_noise_agrees s None c2 An2) as [Rn An]. fold c3 in An.
  pose proof (cached_noise_frame s None c2) as [Fn1 Fn2]. fold c3 in Fn1, Fn2.
  assert (Hdraw : draw s weights wc None (ColourName name) skip None c
                  = (finish_draw s (ColourName name) None
                       (_x (snd s)) ys (_noise (snd s) None), c3)).
  { rewrite (draw_unfold s weights wc None skip (ColourName name) None c).
    cbv zeta. fold c1. rewrite Rx. fold c2. rewrite Ry, Hys. fold c3.
    rewrite Rn. reflexivity. }
  destruct (fill_loop_zero_noise (snd s) [name] ys ltac:(discriminate)
              (_y_without_rows _ _ _ _ _ Hrect Hys) 0%nat)
    as (fills & Hfills & Hmap).
  exists ys, fills. split; [exact Hys|].
  subst after. rewrite Hdraw. cbn [fst snd].
  split.
  { unfold finish_draw. cbn [bind _colour]. rewrite Hfills. reflexivity. }
  split; [exact Hmap|].
  split.
  { apply Forall_forall. intros [[top bot] col] Hin.
    apply In_nth_error in Hin. destruct Hin as [q Hq].
    destruct (Nat.eq_dec (h (snd s)) 0) as [E0 | E0].
    - assert (ys = []).
      { destruct ys; [reflexivity|].
        pose proof (_y_without_rows _ _ _ _ _ Hrect Hys ltac:(discriminate)). lia. }
      subst ys. destruct fills; [destruct q; discriminate | discriminate].
    - assert (Hnoise : _noise (snd s) None <> []).
      { unfold _noise. destruct (h (snd s)); [contradiction | discriminate]. }
      destruct (fill_loop_entries ys (_noise (snd s) None) [name]
                  Hnoise ltac:(discriminate) 0%nat fills Hfills) as [_ Hent].
      destruct (Hent q top bot col Hq) as (_ & _ & _ & _ & Hcol & _).
      cbn [length] in Hcol. rewrite Nat.mod_1_r in Hcol.
      cbn [nth_error] in Hcol. injection Hcol as <-. reflexivity. }
  split; [unfold x_agrees; rewrite Fn1; exact Ax2|].
  split; [unfold y_agrees; rewrite Fn2; exact Ay|].
  exact An.
Qed.

Lemma draw_defaults_fill_the_curves_witness :
  let s : self := (7%nat, black_white_plot) in
  exists ys fills,
    _y black_white_plot (0, 1) (0, 1) 0 = Ok ys /\
    fst (draw s (0, 1) (0, 1) None (ColourName "black"%string) 0 None no_caches)
    = Ok (_x black_white_plot, fills) /\
    map fst fills = ys.
Proof.
  intros s.
  destruct (no_caches_agree s None) as (Hx & Hy & Hn).
  destruct (draw_defaults_fill_the_curves s (0, 1) (0, 1) 0 "black"%string no_caches
              (conj eq_refl black_white_plot_rows)
              ltac:(cbn; lia) ltac:(cbn; lia) ltac:(lia) Hx Hy Hn)
    as (ys & fills & Hys & Hdraw & Hmap & _).
  exists ys, fills. split; [exact Hys|]. split; [exact Hdraw | exact Hmap].
Defined.

(** ** Every sample in closed form *)



(** ** Modifiers *)

(** The modifiers run in the order of the list, each on the data the one
    before it returned; the first one that raises ends the run with its
    exception, and an empty list changes nothing. *)
Theorem modifiers_run_in_order {C : Type} (ms1 ms2 : list (Modifier C))
  (data : plot_data C) :
  run_modifiers (ms1 ++ ms2) data
  = (data' <- run_modifiers ms1 data ;; run_modifiers ms2 data') /\
  (forall e, run_modifiers ms1 data = Raise e ->
             run_modifiers (ms1 ++ ms2) data = Raise e) /\
  (forall (s : self) weights wc noise colour skip c,
     draw s weights wc noise colour skip (Some []) c
     = draw s weights wc noise colour skip (@None (list (Modifier C))) c).
Proof.
  assert (Happ : forall d, run_modifiers (ms1 ++ ms2) d
                 = (data' <- run_modifiers ms1 d ;; run_modifiers ms2 data')).
  { induction ms1 as [|m rest IH]; intros d; cbn [app run_modifiers bind];
      [reflexivity|].
    destruct (m d) as [d' | e]; cbn [bind]; [apply IH | reflexivity]. }
  split; [apply Happ|]. split.
  - intros e He. rewrite Happ, He. reflexivity.
  - intros. reflexivity.
Qed.
